(** * rutest.ai: the tolerant JSON extraction and repair engine

    A shallow embedding of the repair pipeline of
    [extension/src/services/ConfigService.ts]:
    [fixJsonString], [extremeJsonFallback], [simpleJsonRepair],
    [extractJsonCandidates], and of the two call sites that decode an LLM
    response ([generateTestCases], [generateAutotests]).

    A JavaScript string is a sequence of UTF-16 code units; it is modelled
    as a list of code units, each one a natural number [N].  Indices and
    counters are JavaScript numbers holding small integers; they are
    modelled as [Z] (the sentinel [-1] of [indexOf] and of [startPos] is
    kept as it is). *)

From Stdlib Require Import String Ascii.
From Stdlib Require Import List Bool Arith ZArith NArith Lia.
From Stdlib Require Import Sorting.Permutation Sorting.Sorted.
Import ListNotations.

Local Open Scope Z_scope.

(** ** Code units and texts *)

Definition char := N.
Definition text := list char.

Module Ch.
Definition tab : char := 9%N.
Definition lf : char := 10%N.
Definition cr : char := 13%N.
Definition space : char := 32%N.
Definition quote : char := 34%N.
Definition comma : char := 44%N.
Definition colon : char := 58%N.
Definition lbracket : char := 91%N.
Definition backslash : char := 92%N.
Definition rbracket : char := 93%N.
Definition lbrace : char := 123%N.
Definition rbrace : char := 125%N.
Definition letter_n : char := 110%N.
End Ch.

(** Literals of the development are written as Rocq strings in which an
    apostrophe stands for the double quote (code unit 34); every other
    character denotes its own code. *)
Fixpoint js (s : string) : text :=
  match s with
  | EmptyString => []
  | String a r =>
      (if Ascii.eqb a "'"%char then Ch.quote else N_of_ascii a) :: js r
  end.

Definition text_eqb (a b : text) : bool :=
  if list_eq_dec N.eq_dec a b then true else false.

(** ** String primitives of the JavaScript runtime *)

(** [\s] of a regular expression, and the characters that [trim] strips
    (WhiteSpace and LineTerminator of ECMAScript): the same set. *)
Definition is_space (c : char) : bool :=
  ((9 <=? c) && (c <=? 13))%N
  || (c =? 32)%N || (c =? 160)%N || (c =? 5760)%N
  || ((8192 <=? c) && (c <=? 8202))%N
  || (c =? 8232)%N || (c =? 8233)%N || (c =? 8239)%N
  || (c =? 8287)%N || (c =? 12288)%N || (c =? 65279)%N.

Fixpoint trimStart (s : text) : text :=
  match s with
  | c :: r => if is_space c then trimStart r else s
  | [] => []
  end.

Definition trimEnd (s : text) : text := rev (trimStart (rev s)).

Definition trim (s : text) : text := trimEnd (trimStart s).

(** [s.indexOf(c)]: index of the first occurrence, [-1] when absent. *)
Fixpoint indexOf_from (i : Z) (s : text) (c : char) : Z :=
  match s with
  | [] => -1
  | x :: r => if (x =? c)%N then i else indexOf_from (i + 1) r c
  end.

Definition indexOf (s : text) (c : char) : Z := indexOf_from 0 s c.

(** [s.lastIndexOf(c)]: index of the last occurrence, [-1] when absent. *)
Fixpoint lastIndexOf_from (i : Z) (s : text) (c : char) (found : Z) : Z :=
  match s with
  | [] => found
  | x :: r => lastIndexOf_from (i + 1) r c (if (x =? c)%N then i else found)
  end.

Definition lastIndexOf (s : text) (c : char) : Z := lastIndexOf_from 0 s c (-1).

Definition clamp (n : Z) (len : Z) : Z := Z.max 0 (Z.min n len).

(** [s.substring(a, b)]: both ends are clamped to [0, length] and swapped
    when they come in the wrong order. *)
Definition substring (s : text) (a b : Z) : text :=
  let len := Z.of_nat (length s) in
  let a' := clamp a len in
  let b' := clamp b len in
  let lo := Z.min a' b' in
  let hi := Z.max a' b' in
  firstn (Z.to_nat (hi - lo)) (skipn (Z.to_nat lo) s).

(** [s.replace(c, r)] with a one-character search string: the first
    occurrence only. *)
Fixpoint replaceFirst (s : text) (c : char) (r : text) : text :=
  match s with
  | [] => []
  | x :: t => if (x =? c)%N then r ++ t else x :: replaceFirst t c r
  end.

(** *** Regular-expression drivers

    A pattern is given by its matcher at one position: [m s] is [Some n]
    when the pattern matches a prefix of [s] of length [n].  All patterns of
    the engine start with a literal character, so no match is empty. *)

(** [s.match(re)] without the [g] flag: the leftmost match. *)
Fixpoint regexMatch (m : text -> option nat) (s : text) : option text :=
  match m s with
  | Some n => Some (firstn n s)
  | None =>
      match s with
      | [] => None
      | _ :: r => regexMatch m r
      end
  end.

(** [s.replace(re, ...)] with the [g] flag: matches are found from left to
    right, the search resuming where the previous match ended.  [m s] gives
    the length of the match and its replacement; [skip] counts the
    characters of the current match that remain to be passed over. *)
Fixpoint replaceAll_go (m : text -> option (nat * text)) (skip : nat)
    (s : text) : text :=
  match s with
  | [] => []
  | c :: r =>
      match skip with
      | S k => replaceAll_go m k r
      | O =>
          match m s with
          | Some (n, rep) => rep ++ replaceAll_go m (Nat.pred n) r
          | None => c :: replaceAll_go m O r
          end
      end
  end.

Definition replaceAll (m : text -> option (nat * text)) (s : text) : text :=
  replaceAll_go m O s.

(** Greedy [\s*]: the maximal run of white space, and what follows it. *)
Fixpoint spanSpace (s : text) : text * text :=
  match s with
  | c :: r =>
      if is_space c then let (w, t) := spanSpace r in (c :: w, t)
      else ([], s)
  | [] => ([], [])
  end.

(** The maximal run of characters other than the double quote (a greedy
    negated class), and what follows it. *)
Fixpoint spanNonQuote (s : text) : text * text :=
  match s with
  | c :: r =>
      if (c =? Ch.quote)%N then ([], s)
      else let (w, t) := spanNonQuote r in (c :: w, t)
  | [] => ([], [])
  end.

(** ** [simpleJsonRepair] *)

(** The character loop: inside string literals a raw line feed becomes the
    two characters backslash and n, a raw tab becomes a space, a raw
    carriage return is dropped.  The result is [result.join('')]. *)
Fixpoint normalizeLoop (inString escapeNext : bool) (s : text) : text :=
  match s with
  | [] => []
  | char :: r =>
      if escapeNext then char :: normalizeLoop inString false r
      else if (char =? Ch.backslash)%N then
        char :: normalizeLoop inString true r
      else if (char =? Ch.quote)%N && negb escapeNext then
        char :: normalizeLoop (negb inString) escapeNext r
      else if inString && (char =? Ch.lf)%N then
        Ch.backslash :: Ch.letter_n :: normalizeLoop inString escapeNext r
      else if inString && (char =? Ch.tab)%N then
        Ch.space :: normalizeLoop inString escapeNext r
      else if inString && (char =? Ch.cr)%N then
        normalizeLoop inString escapeNext r
      else char :: normalizeLoop inString escapeNext r
  end.

(** The trailing-separator rewrite, with the [g] flag: a comma, white space,
    a closing brace or bracket (group 1); the replacement is group 1. *)
Definition trailingSepAt (s : text) : option (nat * text) :=
  match s with
  | c :: r =>
      if (c =? Ch.comma)%N then
        let (w, t) := spanSpace r in
        match t with
        | d :: _ =>
            if (d =? Ch.rbrace)%N || (d =? Ch.rbracket)%N
            then Some (S (length w + 1), w ++ [d])
            else None
        | [] => None
        end
      else None
  | [] => None
  end.

(** The two missing-separator rewrites, one per closing delimiter [close]
    (the closing brace, then the closing bracket), both with the [g] flag:
    [close], white space (group 1), a double quote, one or more characters
    other than the double quote (group 2), a double quote, a colon; the
    replacement puts a comma after [close] and keeps the rest.  White space
    and the negated class are greedy, and what must follow each of them is
    outside the class, so backtracking never finds another match. *)
Definition missingSepAt (close : char) (s : text) : option (nat * text) :=
  match s with
  | c :: r =>
      if (c =? close)%N then
        let (w, t) := spanSpace r in
        match t with
        | q :: t1 =>
            if (q =? Ch.quote)%N then
              let (k, t2) := spanNonQuote t1 in
              match k, t2 with
              | _ :: _, q2 :: c2 :: _ =>
                  if (q2 =? Ch.quote)%N && (c2 =? Ch.colon)%N
                  then Some (S (length w + 1 + length k + 2),
                             close :: Ch.comma :: w
                               ++ Ch.quote :: k ++ [Ch.quote; Ch.colon])
                  else None
              | _, _ => None
              end
            else None
        | [] => None
        end
      else None
  | [] => None
  end.

Definition countQuotes (s : text) : nat := count_occ N.eq_dec s Ch.quote.

(** The five fixes, in the order of the source. *)
Definition boundaryTrim (jsonStr : text) : text :=
  let jsonStr := trim jsonStr in
  let startBrace := indexOf jsonStr Ch.lbrace in
  let lastBrace := lastIndexOf jsonStr Ch.rbrace in
  if negb (startBrace =? -1) && negb (lastBrace =? -1)
     && (lastBrace >? startBrace)
  then substring jsonStr startBrace (lastBrace + 1)
  else jsonStr.

Definition normalizeControls (jsonStr : text) : text :=
  normalizeLoop false false jsonStr.

Definition removeTrailingSeparators (jsonStr : text) : text :=
  replaceAll trailingSepAt jsonStr.

Definition quoteParityRepair (jsonStr : text) : text :=
  let quoteCount := countQuotes jsonStr in
  if negb (Nat.eqb (Nat.modulo quoteCount 2) 0)
  then jsonStr ++ [Ch.quote]
  else jsonStr.

Definition insertMissingSeparators (jsonStr : text) : text :=
  replaceAll (missingSepAt Ch.rbracket)
    (replaceAll (missingSepAt Ch.rbrace) jsonStr).

Definition simpleJsonRepair (jsonStr : text) : text :=
  insertMissingSeparators
    (quoteParityRepair
       (removeTrailingSeparators
          (normalizeControls
             (boundaryTrim jsonStr)))).

(** ** [JSON.parse]

    The parser of the JavaScript runtime, modelled after the JSON grammar of
    ECMA-404 that [JSON.parse] implements: a recursive-descent parser over
    code units.  A number is kept as its lexeme (no floating-point value is
    computed), an object as its members in the order of the text. *)

#[warnings="-register-all"]
Inductive json : Type :=
| JNull
| JBool (b : bool)
| JNumber (lexeme : text)
| JString (s : text)
| JArray (items : list json)
| JObject (members : list (text * json)).

(** JSON white space: tab, line feed, carriage return, space. *)
Definition is_json_ws (c : char) : bool :=
  (c =? 9)%N || (c =? 10)%N || (c =? 13)%N || (c =? 32)%N.

Fixpoint skipWs (s : text) : text :=
  match s with
  | c :: r => if is_json_ws c then skipWs r else s
  | [] => []
  end.

Definition is_digit (c : char) : bool := ((48 <=? c) && (c <=? 57))%N.

Definition hexValue (c : char) : option N :=
  if is_digit c then Some (c - 48)%N
  else if ((65 <=? c) && (c <=? 70))%N then Some (c - 55)%N
  else if ((97 <=? c) && (c <=? 102))%N then Some (c - 87)%N
  else None.

(** The character denoted by a one-letter escape. *)
Definition simpleEscape (c : char) : option char :=
  if (c =? 34)%N then Some 34%N            (* quote *)
  else if (c =? 92)%N then Some 92%N       (* backslash *)
  else if (c =? 47)%N then Some 47%N       (* slash *)
  else if (c =? 98)%N then Some 8%N        (* b *)
  else if (c =? 102)%N then Some 12%N      (* f *)
  else if (c =? 110)%N then Some 10%N      (* n *)
  else if (c =? 114)%N then Some 13%N      (* r *)
  else if (c =? 116)%N then Some 9%N       (* t *)
  else None.

(** The rest of a string literal, after its opening quote: the decoded
    content and what follows the closing quote. *)
Fixpoint lexString (s : text) : option (text * text) :=
  match s with
  | [] => None
  | c :: r =>
      if (c =? Ch.quote)%N then Some ([], r)
      else if (c =? Ch.backslash)%N then
        match r with
        | e :: r1 =>
            if (e =? 117)%N then            (* u and four hex digits *)
              match r1 with
              | h1 :: h2 :: h3 :: h4 :: r2 =>
                  match hexValue h1, hexValue h2, hexValue h3, hexValue h4 with
                  | Some a, Some b, Some c4, Some d =>
                      match lexString r2 with
                      | Some (w, t) =>
                          Some ((((a * 16 + b) * 16 + c4) * 16 + d)%N :: w, t)
                      | None => None
                      end
                  | _, _, _, _ => None
                  end
              | _ => None
              end
            else
              match simpleEscape e with
              | Some x =>
                  match lexString r1 with
                  | Some (w, t) => Some (x :: w, t)
                  | None => None
                  end
              | None => None
              end
        | [] => None
        end
      else if (c <? 32)%N then None
      else
        match lexString r with
        | Some (w, t) => Some (c :: w, t)
        | None => None
        end
  end.

Fixpoint spanDigits (s : text) : text * text :=
  match s with
  | c :: r =>
      if is_digit c then let (w, t) := spanDigits r in (c :: w, t)
      else ([], s)
  | [] => ([], [])
  end.

(** A number: optional minus, integer part without a leading zero, optional
    fraction, optional exponent.  Each part returns its lexeme and the
    rest. *)
Definition lexSign (s : text) : text * text :=
  match s with
  | c :: r => if (c =? 45)%N then ([c], r) else ([], s)
  | [] => ([], s)
  end.

Definition lexInt (s : text) : option (text * text) :=
  match s with
  | c :: r =>
      if (c =? 48)%N then Some ([c], r)
      else if is_digit c then let (w, t) := spanDigits r in Some (c :: w, t)
      else None
  | [] => None
  end.

Definition lexFrac (s : text) : option (text * text) :=
  match s with
  | c :: r =>
      if (c =? 46)%N then
        match spanDigits r with
        | ([], _) => None
        | (w, t) => Some (c :: w, t)
        end
      else Some ([], s)
  | [] => Some ([], s)
  end.

Definition lexExp (s : text) : option (text * text) :=
  match s with
  | c :: r =>
      if (c =? 101)%N || (c =? 69)%N then
        let (sg, r1) :=
          match r with
          | x :: r' =>
              if (x =? 43)%N || (x =? 45)%N then ([x], r') else ([], r)
          | [] => ([], r)
          end in
        match spanDigits r1 with
        | ([], _) => None
        | (w, t) => Some (c :: sg ++ w, t)
        end
      else Some ([], s)
  | [] => Some ([], s)
  end.

Definition lexNumber (s : text) : option (text * text) :=
  let (sign, s1) := lexSign s in
  match lexInt s1 with
  | None => None
  | Some (ip, s2) =>
      match lexFrac s2 with
      | None => None
      | Some (fp, s3) =>
          match lexExp s3 with
          | None => None
          | Some (ep, s4) => Some (sign ++ ip ++ fp ++ ep, s4)
          end
      end
  end.

(** [stripPrefix p s] is the rest of [s] after its prefix [p]. *)
Fixpoint stripPrefix (p s : text) : option text :=
  match p, s with
  | [], _ => Some s
  | x :: p', y :: s' => if (x =? y)%N then stripPrefix p' s' else None
  | _ :: _, [] => None
  end.

Inductive presult : Type :=
| POk (v : json) (rest : text)
| PFail
| PFuel.

(** The three literal names and the numbers. *)
Definition parseScalar (s : text) : presult :=
  match stripPrefix (js "true") s with
  | Some r' => POk (JBool true) r'
  | None =>
      match stripPrefix (js "false") s with
      | Some r' => POk (JBool false) r'
      | None =>
          match stripPrefix (js "null") s with
          | Some r' => POk JNull r'
          | None =>
              match lexNumber s with
              | Some (lexeme, r') => POk (JNumber lexeme) r'
              | None => PFail
              end
          end
      end
  end.
Arguments parseScalar : simpl never.

Fixpoint parseValue (fuel : nat) (s : text) : presult :=
  match fuel with
  | O => PFuel
  | S f =>
      match skipWs s with
      | [] => PFail
      | c :: r =>
          if (c =? Ch.lbrace)%N then
            match skipWs r with
            | d :: r' =>
                if (d =? Ch.rbrace)%N then POk (JObject []) r'
                else parseMembers f (skipWs r) []
            | [] => PFail
            end
          else if (c =? Ch.lbracket)%N then
            match skipWs r with
            | d :: r' =>
                if (d =? Ch.rbracket)%N then POk (JArray []) r'
                else parseElements f (skipWs r) []
            | [] => PFail
            end
          else if (c =? Ch.quote)%N then
            match lexString r with
            | Some (str, r') => POk (JString str) r'
            | None => PFail
            end
          else parseScalar (c :: r)
      end
  end

with parseElements (fuel : nat) (s : text) (acc : list json) : presult :=
  match fuel with
  | O => PFuel
  | S f =>
      match parseValue f s with
      | POk v r =>
          match skipWs r with
          | d :: r' =>
              if (d =? Ch.comma)%N then parseElements f r' (v :: acc)
              else if (d =? Ch.rbracket)%N then POk (JArray (rev (v :: acc))) r'
              else PFail
          | [] => PFail
          end
      | PFail => PFail
      | PFuel => PFuel
      end
  end

with parseMembers (fuel : nat) (s : text) (acc : list (text * json))
    : presult :=
  match fuel with
  | O => PFuel
  | S f =>
      match skipWs s with
      | q :: r =>
          if (q =? Ch.quote)%N then
            match lexString r with
            | Some (k, r1) =>
                match skipWs r1 with
                | c :: r2 =>
                    if (c =? Ch.colon)%N then
                      match parseValue f r2 with
                      | POk v r3 =>
                          match skipWs r3 with
                          | d :: r4 =>
                              if (d =? Ch.comma)%N then
                                parseMembers f r4 ((k, v) :: acc)
                              else if (d =? Ch.rbrace)%N then
                                POk (JObject (rev ((k, v) :: acc))) r4
                              else PFail
                          | [] => PFail
                          end
                      | PFail => PFail
                      | PFuel => PFuel
                      end
                    else PFail
                | [] => PFail
                end
            | None => PFail
            end
          else PFail
      | [] => PFail
      end
  end.

(** The outcome of [JSON.parse]: a value, or a thrown [SyntaxError].
    [OutOfFuel] is an artefact of the model; [JSON_parse_never_out_of_fuel]
    shows that it never occurs. *)
Inductive parsed : Type :=
| Value (v : json)
| SyntaxError
| OutOfFuel.

Definition parseFuel (s : text) : nat := 2 * length s + 1.

Definition JSON_parse (s : text) : parsed :=
  match parseValue (parseFuel s) s with
  | POk v rest =>
      match skipWs rest with
      | [] => Value v
      | _ :: _ => SyntaxError
      end
  | PFail => SyntaxError
  | PFuel => OutOfFuel
  end.

(** [try { JSON.parse(s); ... } catch { ... }]: does the parse succeed? *)
Definition parses (s : text) : bool :=
  match JSON_parse s with
  | Value _ => true
  | _ => false
  end.

(** ** [extractJsonCandidates] *)

(** The mutable variables of the scanning loop. *)
Record ScanState : Type := mkScan {
  braceCount : Z;
  startPos : Z;
  inString : bool;
  escapeNext : bool;
  candidates : list text
}.

Definition scanInit : ScanState :=
  {| braceCount := 0; startPos := -1; inString := false;
     escapeNext := false; candidates := [] |}.

(** One iteration of the loop, at index [i] on character [char]. *)
Definition scanStep (jsonStr : text) (st : ScanState) (i : Z) (char : char)
    : ScanState :=
  if escapeNext st then
    {| braceCount := braceCount st; startPos := startPos st;
       inString := inString st; escapeNext := false;
       candidates := candidates st |}
  else if (char =? Ch.backslash)%N then
    {| braceCount := braceCount st; startPos := startPos st;
       inString := inString st; escapeNext := true;
       candidates := candidates st |}
  else if (char =? Ch.quote)%N && negb (escapeNext st) then
    {| braceCount := braceCount st; startPos := startPos st;
       inString := negb (inString st); escapeNext := escapeNext st;
       candidates := candidates st |}
  else if negb (inString st) then
    if (char =? Ch.lbrace)%N then
      {| braceCount := braceCount st + 1;
         startPos := if braceCount st =? 0 then i else startPos st;
         inString := inString st; escapeNext := escapeNext st;
         candidates := candidates st |}
    else if (char =? Ch.rbrace)%N then
      let braceCount' := braceCount st - 1 in
      {| braceCount := braceCount';
         startPos := startPos st;
         inString := inString st; escapeNext := escapeNext st;
         candidates :=
           if (braceCount' =? 0) && negb (startPos st =? -1)
           then candidates st ++ [substring jsonStr (startPos st) (i + 1)]
           else candidates st |}
    else st
  else st.

(** The loop from index [i] over the remaining characters [rest]. *)
Fixpoint scanFrom (jsonStr : text) (i : Z) (rest : text) (st : ScanState)
    : ScanState :=
  match rest with
  | [] => st
  | char :: r => scanFrom jsonStr (i + 1) r (scanStep jsonStr st i char)
  end.

(** The spans in the order the loop pushes them (the order of the text). *)
Definition locatedSpans (jsonStr : text) : list text :=
  candidates (scanFrom jsonStr 0 jsonStr scanInit).

(** [Array.prototype.sort] with a comparator: a stable sort; [x] goes before
    [y] when [cmp x y <= 0] and [x] came first. *)
Fixpoint insertSorted {A} (cmp : A -> A -> Z) (x : A) (l : list A) : list A :=
  match l with
  | [] => [x]
  | y :: l' => if cmp x y <=? 0 then x :: l else y :: insertSorted cmp x l'
  end.

Fixpoint sortBy {A} (cmp : A -> A -> Z) (l : list A) : list A :=
  match l with
  | [] => []
  | x :: l' => insertSorted cmp x (sortBy cmp l')
  end.

(** [(a, b) => b.length - a.length] *)
Definition byLengthDesc (a b : text) : Z :=
  Z.of_nat (length b) - Z.of_nat (length a).

Definition extractJsonCandidates (jsonStr : text) : list text :=
  sortBy byLengthDesc (locatedSpans jsonStr).

(** ** [extremeJsonFallback] *)

(** Canonicalisation of the [i] flag (no [u] flag): the upper case of the
    code unit.  A code unit of 128 or more is never canonicalised to one
    below 128, so against the ASCII letters of the two keys only the ASCII
    letters matter. *)
Definition canonicalize (c : char) : char :=
  if ((97 <=? c) && (c <=? 122))%N then (c - 32)%N else c.

Fixpoint stripPrefixCI (p s : text) : option text :=
  match p, s with
  | [], _ => Some s
  | x :: p', y :: s' =>
      if (canonicalize x =? canonicalize y)%N then stripPrefixCI p' s'
      else None
  | _ :: _, [] => None
  end.

(** A lazy run of arbitrary characters up to the first [c]: the number of
    characters up to and including that [c]. *)
Fixpoint lazyUntil (c : char) (s : text) : option nat :=
  match s with
  | [] => None
  | x :: r =>
      if (x =? c)%N then Some 1%nat
      else match lazyUntil c r with
           | Some n => Some (S n)
           | None => None
           end
  end.

(** The pattern of a known key, with the [i] flag: the quoted key, white
    space, a colon, white space, an opening bracket, and lazily everything
    up to the first closing bracket. *)
Definition keyArrayAt (key : text) (s : text) : option nat :=
  match stripPrefixCI (Ch.quote :: key ++ [Ch.quote]) s with
  | Some r1 =>
      let (w1, r2) := spanSpace r1 in
      match r2 with
      | c :: r3 =>
          if (c =? Ch.colon)%N then
            let (w2, r4) := spanSpace r3 in
            match r4 with
            | b :: r5 =>
                if (b =? Ch.lbracket)%N then
                  match lazyUntil Ch.rbracket r5 with
                  | Some n =>
                      Some (length key + 2 + length w1 + 1
                            + length w2 + 1 + n)%nat
                  | None => None
                  end
                else None
            | [] => None
            end
          else None
      | [] => None
      end
  | None => None
  end.

Definition emptyEnvelope : text := js "{'test_files': []}".

Definition extremeJsonFallback (jsonStr : text) : text :=
  match regexMatch (keyArrayAt (js "test_files")) jsonStr with
  | Some testFilesMatch => js "{'test_files': " ++ testFilesMatch ++ js "}"
  | None =>
      match regexMatch (keyArrayAt (js "test_cases")) jsonStr with
      | Some testCasesMatch => js "{'test_cases': " ++ testCasesMatch ++ js "}"
      | None => emptyEnvelope
      end
  end.

(** ** [fixJsonString] *)

(** The loop over the candidates: the first one that [JSON.parse] accepts. *)
Fixpoint firstParsing (cands : list text) : option text :=
  match cands with
  | [] => None
  | candidate :: rest =>
      if parses candidate then Some candidate else firstParsing rest
  end.

Definition fixJsonString (jsonStr : text) : text :=
  let repaired := simpleJsonRepair jsonStr in
  if parses repaired then repaired
  else
    match firstParsing (extractJsonCandidates jsonStr) with
    | Some candidate => candidate
    | None => extremeJsonFallback jsonStr
    end.

(** ** The two call sites *)

Inductive thrown : Type :=
| NoJsonArray       (* the response holds no bracketed array *)
| NoJsonObject      (* the response holds no braced object *)
| ParseError        (* a SyntaxError of the second JSON.parse *)
| TypeError         (* property access on null *)
| BadTestCases.     (* the decoded test cases are not an array *)

Inductive result (A : Type) : Type :=
| Return (a : A)
| Throw (e : thrown).
Arguments Return {A} a.
Arguments Throw {A} e.

(** The greedy array pattern of [generateTestCases]: an opening bracket and
    everything up to the last closing bracket. *)
Definition arrayGreedyAt (s : text) : option nat :=
  match s with
  | c :: r =>
      if (c =? Ch.lbracket)%N then
        let j := lastIndexOf r Ch.rbracket in
        if j =? -1 then None else Some (S (Z.to_nat j + 1))
      else None
  | [] => None
  end.

(** The lazy object pattern of [generateAutotests]: an opening brace and
    everything up to the first closing brace. *)
Definition objectLazyAt (s : text) : option nat :=
  match s with
  | c :: r =>
      if (c =? Ch.lbrace)%N then
        match lazyUntil Ch.rbrace r with
        | Some n => Some (S n)
        | None => None
        end
      else None
  | [] => None
  end.

(** [data.key] on a decoded value: the last member of that name of an
    object, [undefined] ([None]) on anything else, a TypeError on null. *)
Fixpoint lookupMember (key : text) (members : list (text * json))
    : option json :=
  match members with
  | [] => None
  | (k, v) :: rest =>
      match lookupMember key rest with
      | Some v' => Some v'
      | None => if text_eqb k key then Some v else None
      end
  end.

Definition getProperty (data : json) (key : text) : result (option json) :=
  match data with
  | JObject members => Return (lookupMember key members)
  | JNull => Throw TypeError
  | _ => Return None
  end.

(** [generateTestCases], from the response text to the returned test cases
    (the local-LLM branch). *)
Definition generateTestCases_decode (response : text) : result json :=
  let raw1 := trim response in
  match regexMatch arrayGreedyAt raw1 with
  | None => Throw NoJsonArray
  | Some jsonStr =>
      let testCases :=
        match JSON_parse jsonStr with
        | Value v => Return (Some v)
        | _ =>
            let jsonStr' :=
              fixJsonString
                (replaceFirst
                   (replaceFirst jsonStr Ch.lbracket (js "{ 'test_cases': "))
                   Ch.rbracket (js " }")) in
            match JSON_parse jsonStr' with
            | Value data => getProperty data (js "test_cases")
            | _ => Throw ParseError
            end
        end in
      match testCases with
      | Return (Some (JArray items)) => Return (JArray items)
      | Return _ => Throw BadTestCases       (* not Array.isArray *)
      | Throw e => Throw e
      end
  end.

(** [generateAutotests], from the response text to the decoded [data], before
    the caller's own check of [data.test_files]. *)
Definition generateAutotests_decode (response : text) : result json :=
  let raw := trim response in
  match regexMatch objectLazyAt raw with
  | None => Throw NoJsonObject
  | Some jsonStr =>
      match JSON_parse jsonStr with
      | Value data => Return data
      | _ =>
          match JSON_parse (fixJsonString jsonStr) with
          | Value data => Return data
          | _ => Throw ParseError
          end
      end
  end.

(** The spec's [repair_and_parse] on the text handed to the engine:
    [fixJsonString], then the caller's [JSON.parse] of its result. *)
Definition repair_and_parse (jsonStr : text) : parsed :=
  JSON_parse (fixJsonString jsonStr).

(** ** Other functions of the services

    The pure parts of the remaining functions of [ConfigService],
    [ApiService] and [FileService]: configuration lookup and validation,
    the normalisation of URLs, the text taken from a local-LLM answer, the
    sanitising of spreadsheet cells, the selection of the files sent with a
    request, and the tree of the workspace. *)

(** A function that returns a value or throws [new Error(message)]. *)
Inductive outcome (A : Type) : Type :=
| Done (a : A)
| Failed (message : text).
Arguments Done {A} a.
Arguments Failed {A} message.

(** *** Trailing slashes

    [s.replace(re, rep)] without the [g] flag replaces the leftmost match
    only. *)
Fixpoint regexReplaceFirst (m : text -> option nat) (rep : text) (s : text)
    : text :=
  match m s with
  | Some n => rep ++ skipn n s
  | None =>
      match s with
      | [] => []
      | c :: r => c :: regexReplaceFirst m rep r
      end
  end.

Definition slash : char := 47%N.

(** One or more slashes up to the end of the text: the greedy run must reach
    the end, a shorter run is followed by a slash. *)
Definition slashesToEndAt (s : text) : option nat :=
  match s with
  | [] => None
  | _ :: _ => if forallb (fun c => (c =? slash)%N) s then Some (length s)
              else None
  end.

(** [url.replace(re, '')] with the pattern of trailing slashes, as in
    [getBackendUrl], the constructor of [ApiService] and the base URL of the
    local LLM. *)
Definition stripTrailingSlashes (url : text) : text :=
  regexReplaceFirst slashesToEndAt [] url.

(** *** [ConfigService] *)

(** The effective settings of the extension: [None] where a key has no
    value, in which case [get] returns its default. *)
Definition Settings : Type := text -> option text.

Definition configGet (config : Settings) (key dflt : text) : text :=
  match config key with
  | Some v => v
  | None => dflt
  end.

Inductive Provider : Type :=
| OpenAI | OpenRouter | Anthropic | Ollama | LLMStudio.

Definition providerName (p : Provider) : text :=
  match p with
  | OpenAI => js "openai"
  | OpenRouter => js "openrouter"
  | Anthropic => js "anthropic"
  | Ollama => js "ollama"
  | LLMStudio => js "llmstudio"
  end.

Record LLMConfig : Type := mkLLMConfig {
  provider : Provider;
  apiKey : option text;
  model : text;
  baseUrl : option text
}.

Definition getLLMConfig (config : Settings) : outcome LLMConfig :=
  let provider := configGet config (js "provider") (js "openai") in
  if text_eqb provider (js "openai") then
    Done {| provider := OpenAI;
            apiKey := Some (configGet config (js "openai.apiKey") []);
            model := configGet config (js "openai.model") (js "gpt-4");
            baseUrl := None |}
  else if text_eqb provider (js "openrouter") then
    Done {| provider := OpenRouter;
            apiKey := Some (configGet config (js "openrouter.apiKey") []);
            model := configGet config (js "openrouter.model")
                       (js "anthropic/claude-3-opus");
            baseUrl := Some (configGet config (js "openrouter.baseUrl")
                               (js "https://openrouter.ai/api/v1")) |}
  else if text_eqb provider (js "anthropic") then
    Done {| provider := Anthropic;
            apiKey := Some (configGet config (js "anthropic.apiKey") []);
            model := configGet config (js "anthropic.model")
                       (js "claude-3-opus-20240229");
            baseUrl := None |}
  else if text_eqb provider (js "ollama") then
    Done {| provider := Ollama;
            apiKey := None;
            model := configGet config (js "ollama.model") (js "llama2");
            baseUrl := Some (configGet config (js "ollama.baseUrl")
                               (js "http://localhost:11434")) |}
  else if text_eqb provider (js "llmstudio") then
    Done {| provider := LLMStudio;
            apiKey := None;
            model := configGet config (js "llmstudio.model")
                       (js "local-model");
            baseUrl := Some (configGet config (js "llmstudio.baseUrl")
                               (js "http://localhost:1234")) |}
  else Failed (js "Unknown provider: " ++ provider).

Definition getBackendUrl (config : Settings) : text :=
  stripTrailingSlashes
    (configGet config (js "backend.url") (js "https://ayukidev.ru")).

Record Validity : Type := mkValidity {
  valid : bool;
  message : option text
}.

(** [!s] on an optional string: absent or empty. *)
Definition falsyString (s : option text) : bool :=
  match s with
  | None => true
  | Some [] => true
  | Some (_ :: _) => false
  end.

Definition isConfigValid (config : Settings) : outcome Validity :=
  match getLLMConfig config with
  | Failed e => Failed e
  | Done llmConfig =>
      match provider llmConfig with
      | Ollama | LLMStudio =>
          if falsyString (baseUrl llmConfig) then
            Done {| valid := false;
                    message := Some (providerName (provider llmConfig)
                                       ++ js " base URL is required") |}
          else Done {| valid := true; message := None |}
      | _ =>
          if falsyString (apiKey llmConfig) then
            Done {| valid := false;
                    message := Some (js "API key for "
                                       ++ providerName (provider llmConfig)
                                       ++ js " is required") |}
          else Done {| valid := true; message := None |}
      end
  end.

(** *** The text of a local-LLM answer

    [ollamaRequest] on status 200 resolves with the parsed body, or with an
    object holding the body under [response] when the body is not JSON. *)
Definition ollamaResolved (body : text) : json :=
  match JSON_parse body with
  | Value v => v
  | _ => JObject [(js "response", JString body)]
  end.

(** Truthiness of a value read from a decoded answer ([None] is
    [undefined]).  Whether a number lexeme denotes zero is floating-point
    arithmetic; it is taken as the parameter [isZero]. *)
Definition truthy (isZero : text -> bool) (v : option json) : bool :=
  match v with
  | None => false
  | Some JNull => false
  | Some (JBool b) => b
  | Some (JNumber lexeme) => negb (isZero lexeme)
  | Some (JString []) => false
  | Some (JString (_ :: _)) => true
  | Some (JArray _) => true
  | Some (JObject _) => true
  end.

(** The receiver of [.trim()] in [(response.response || response).trim()]:
    the call throws a TypeError on anything but a string. *)
Definition llmResponseText (isZero : text -> bool) (response : json)
    : result text :=
  match getProperty response (js "response") with
  | Throw e => Throw e
  | Return field =>
      let receiver :=
        if truthy isZero field then
          match field with
          | Some v => v
          | None => response
          end
        else response in
      match receiver with
      | JString s => Return s
      | _ => Throw TypeError
      end
  end.

(** *** Cells of the spreadsheet export ([sanitize] of [generateXlsxBuffer]) *)

(** The argument of [sanitize]: null or undefined, a string, or any other
    value together with the text [String(value)] gives for it. *)
Inductive cellValue : Type :=
| CellNull
| CellString (s : text)
| CellOther (asString : text).

Definition nulAt (s : text) : option (nat * text) :=
  match s with
  | c :: _ => if (c =? 0)%N then Some (1%nat, []) else None
  | [] => None
  end.

Definition crlfAt (s : text) : option (nat * text) :=
  match s with
  | a :: b :: _ =>
      if (a =? Ch.cr)%N && (b =? Ch.lf)%N then Some (2%nat, [Ch.lf]) else None
  | _ => None
  end.

Definition crAt (s : text) : option (nat * text) :=
  match s with
  | c :: _ => if (c =? Ch.cr)%N then Some (1%nat, [Ch.lf]) else None
  | [] => None
  end.

Definition sanitize (value : cellValue) : text :=
  match value with
  | CellNull => []
  | CellString s | CellOther s =>
      replaceAll crAt (replaceAll crlfAt (replaceAll nulAt s))
  end.

(** *** The files sent with a request (end of [autoDiscoverRelevantFiles]) *)

Record FileContext : Type := mkFileContext {
  path : text;
  content : text;
  language : text
}.

(** [self.findIndex(p)]: the first index where [p] holds, [-1] if none. *)
Fixpoint findIndex_from {A} (p : A -> bool) (i : Z) (l : list A) : Z :=
  match l with
  | [] => -1
  | x :: r => if p x then i else findIndex_from p (i + 1) r
  end.

Definition findIndex {A} (p : A -> bool) (l : list A) : Z :=
  findIndex_from p 0 l.

(** [self.filter((x, index, self) => keep x index self)], from index [i]. *)
Fixpoint filterIndexed_from {A} (keep : A -> Z -> list A -> bool)
    (self : list A) (i : Z) (l : list A) : list A :=
  match l with
  | [] => []
  | x :: r =>
      if keep x i self then x :: filterIndexed_from keep self (i + 1) r
      else filterIndexed_from keep self (i + 1) r
  end.

Definition filterIndexed {A} (keep : A -> Z -> list A -> bool) (l : list A)
    : list A :=
  filterIndexed_from keep l 0 l.

Definition uniqueFiles (files : list FileContext) : list FileContext :=
  filterIndexed
    (fun file index self =>
       index =? findIndex (fun f => text_eqb (path f) (path file)) self)
    files.

(** The loop that fills [limitedFiles]: it breaks at the first file that
    would take the total over 500000 characters. *)
Fixpoint limitLoop (uniqueFiles : list FileContext) (totalSize : Z)
    (limitedFiles : list FileContext) : list FileContext :=
  match uniqueFiles with
  | [] => limitedFiles
  | file :: rest =>
      if totalSize + Z.of_nat (length (content file)) >? 500000
      then limitedFiles
      else limitLoop rest (totalSize + Z.of_nat (length (content file)))
             (limitedFiles ++ [file])
  end.

Definition limitFiles (uniqueFiles : list FileContext) : list FileContext :=
  limitLoop uniqueFiles 0 [].

(** What [autoDiscoverRelevantFiles] returns as [files], from the collected
    [files]. *)
Definition selectDiscoveredFiles (files : list FileContext)
    : list FileContext :=
  limitFiles (uniqueFiles files).

(** *** The tree of the workspace ([FileService]) *)

(** The part of the file system that [buildTree] can see, as the unfolding
    along paths of what [fs.statSync] and [fs.readdirSync] answer: an entry
    on which [statSync] throws, an entry that is no directory, or a
    directory with what [readdirSync] returns for it, in its order ([None]
    when it throws).  [readdirSync] on anything that is no directory
    throws. *)
#[warnings="-register-all"]
Inductive fsNode : Type :=
| FsMissing
| FsFile
| FsDir (entries : option (list (text * fsNode))).

Definition readdirSync (node : fsNode) : option (list (text * fsNode)) :=
  match node with
  | FsDir entries => entries
  | _ => None
  end.

Definition ignorePatterns : list text :=
  [js "node_modules"; js ".git"; js "dist"; js "build"; js "out";
   js ".vscode"; js "coverage"; js ".next"; js ".nuxt"].

(** [list.includes(x)] on strings. *)
Definition includes (l : list text) (x : text) : bool :=
  existsb (text_eqb x) l.

(** The connectors and the indentation of the tree, as code units: the
    corner, the tee and the vertical bar of the box-drawing block. *)
Definition connectorLast : text := [9492; 9472; 9472; 32]%N.
Definition connectorMid : text := [9500; 9472; 9472; 32]%N.
Definition indentLast : text := [32; 32; 32; 32]%N.
Definition indentMid : text := [9474; 32; 32; 32]%N.

(** The callback of [items.forEach] in [buildTree], from the item at
    [index] on: what it appends to [result] until the loop ends or
    [statSync] throws, which ends the loop and leaves [result] as it is.
    [recur] is the recursive call of [buildTree] one level down and [len]
    is [items.length]. *)
Fixpoint forEachItem (recur : fsNode -> text -> text) (len : nat)
    (prefix : text) (rest : list (text * fsNode)) (index : nat) : text :=
  match rest with
  | [] => []
  | (item, node) :: rest' =>
      if includes ignorePatterns item
      then forEachItem recur len prefix rest' (S index)
      else
        match node with
        | FsMissing => []
        | _ =>
            let isLast := (index =? len - 1)%nat in
            let connector := if isLast then connectorLast else connectorMid in
            (prefix ++ connector ++ item ++ [Ch.lf])
            ++ (match node with
                | FsDir _ =>
                    recur node
                      (prefix ++ (if isLast then indentLast else indentMid))
                | _ => []
                end)
            ++ forEachItem recur len prefix rest' (S index)
        end
  end.

Fixpoint buildTree (dir : fsNode) (prefix : text) (depth : nat) {struct dir}
    : text :=
  if (3 <? depth)%nat then []
  else
    match dir with
    | FsDir (Some items) =>
        forEachItem (fun node newPrefix => buildTree node newPrefix (S depth))
          (length items) prefix items 0%nat
    | _ => []
    end.

(** [getWorkspaceStructure], from the workspace folders ([None] when the
    editor has none). *)
Definition getWorkspaceStructure (workspaceFolders : option (list fsNode))
    : outcome text :=
  match workspaceFolders with
  | None | Some [] => Failed (js "No workspace folder open")
  | Some (root :: _) => Done (buildTree root [] 0%nat)
  end.

(** ** The specification's wording of two steps

    Two definitions that follow the words of the specification, not the
    source, to be compared with the source's [fixJsonString] and
    [quoteParityRepair]. *)

(** Section 4.4 of the specification: when the first repaired variant does
    not parse, each candidate span is tried with the same fix sequence,
    longest first, before the Envelope Fallback. *)
Fixpoint firstParsingRepaired (cands : list text) : option text :=
  match cands with
  | [] => None
  | candidate :: rest =>
      if parses (simpleJsonRepair candidate)
      then Some (simpleJsonRepair candidate)
      else firstParsingRepaired rest
  end.

Definition fixJsonString_spec (jsonStr : text) : text :=
  let repaired := simpleJsonRepair jsonStr in
  if parses repaired then repaired
  else
    match firstParsingRepaired (extractJsonCandidates jsonStr) with
    | Some fixed => fixed
    | None => extremeJsonFallback jsonStr
    end.

(** Fix 4 of the specification counts the unescaped quotes only: a quote
    that a backslash escapes is left out. *)
Fixpoint countUnescapedQuotes_from (escaped : bool) (s : text) : nat :=
  match s with
  | [] => 0
  | c :: r =>
      if escaped then countUnescapedQuotes_from false r
      else if (c =? Ch.backslash)%N then countUnescapedQuotes_from true r
      else if (c =? Ch.quote)%N then S (countUnescapedQuotes_from false r)
      else countUnescapedQuotes_from false r
  end.

Definition countUnescapedQuotes (s : text) : nat :=
  countUnescapedQuotes_from false s.

Definition quoteParityRepair_spec (jsonStr : text) : text :=
  if Nat.odd (countUnescapedQuotes jsonStr)
  then jsonStr ++ [Ch.quote]
  else jsonStr.

(** The content of a string literal, between its two quotes: every
    backslash escapes the character after it, and no quote is left
    unescaped. *)
Fixpoint literalBody (escaped : bool) (s : text) : bool :=
  match s with
  | [] => negb escaped
  | c :: r =>
      if escaped then literalBody false r
      else if (c =? Ch.backslash)%N then literalBody true r
      else if (c =? Ch.quote)%N then false
      else literalBody false r
  end.

(** ** Predicates of the statements and of the invariants *)

(** With fuel above twice the length of the input, the parser never runs
    out of fuel, and what it leaves is no longer than what it was given. *)
Definition fuelOk (need : nat) (f : nat) (s : text) (p : presult) : Prop :=
  (need <= f)%nat ->
  p <> PFuel /\ forall v r, p = POk v r -> (length r <= length s)%nat.

(** The order of the sorted candidates: [a] may stand before [b]. *)
Definition longerFirst (a b : text) : Prop := (length b <= length a)%nat.

(** A text that starts with an opening brace and ends with a closing one. *)
Definition braced (c : text) : Prop :=
  exists mid, c = Ch.lbrace :: mid ++ [Ch.rbrace].

(** The invariant of the loop at index [i]: while the depth is positive,
    [startPos] is the index of an opening brace already passed; every span
    recorded so far is brace-delimited. *)
Definition scanInv (jsonStr : text) (i : Z) (st : ScanState) : Prop :=
  (1 <= braceCount st ->
   0 <= startPos st < i
   /\ nth_error jsonStr (Z.to_nat (startPos st)) = Some Ch.lbrace)
  /\ Forall braced (candidates st).

(** A text with no white space at either end. *)
Definition edgesClean (s : text) : Prop :=
  trimStart s = s /\ trimStart (rev s) = rev s.

(** A character that stands for itself inside a JSON string literal. *)
Definition plain (c : char) : bool :=
  negb (c =? Ch.quote)%N && negb (c =? Ch.backslash)%N && negb (c <? 32)%N.

(** Equality of two characters under the [i] flag. *)
Definition sameCI (p c : char) : Prop := canonicalize p = canonicalize c.

(** The characters of the two known keys: letters and the underscore. *)
Definition keyChar (p : char) : bool :=
  ((65 <=? canonicalize p) && (canonicalize p <=? 90))%N
  || (canonicalize p =? 95)%N.

(** [a] is a contiguous part of [s]. *)
Definition isInfix (a s : text) : Prop := exists pre post, s = pre ++ a ++ post.



(** The total size of a list of files, in characters. *)
Definition totalSize (files : list FileContext) : Z :=
  fold_right (fun f acc => Z.of_nat (length (content f)) + acc) 0 files.

(** Does a string literal of [s] hold a raw line feed, tab or carriage
    return that no backslash escapes?  The scan starts inside a literal when
    [inString] is set, with a pending escape when [escapeNext] is. *)
Fixpoint rawControlInString (inString escapeNext : bool) (s : text) : bool :=
  match s with
  | [] => false
  | c :: r =>
      if escapeNext then rawControlInString inString false r
      else if (c =? Ch.backslash)%N then rawControlInString inString true r
      else if (c =? Ch.quote)%N then rawControlInString (negb inString) false r
      else (inString && ((c =? Ch.lf)%N || (c =? Ch.tab)%N || (c =? Ch.cr)%N))
           || rawControlInString inString false r
  end.

(** What [buildTree] at [depth] can tell of a node: an ignored entry counts
    for its place in the listing only (it stands here as a [node_modules]
    that cannot be examined), and a directory that is not read (at the
    fourth level, or unreadable) shows like a file. *)
Fixpoint shown (depth : nat) (node : fsNode) {struct node} : fsNode :=
  match node with
  | FsDir entries =>
      if (3 <? depth)%nat then FsFile
      else
        match entries with
        | None => FsFile
        | Some items =>
            FsDir (Some (map (fun e =>
                                if includes ignorePatterns (fst e)
                                then (js "node_modules", FsMissing)
                                else (fst e, shown (S depth) (snd e)))
                             items))
        end
  | other => other
  end.

(** A character the scanning loop of [extractJsonCandidates] passes over:
    no brace, no quote and no backslash. *)
Definition scanPlain (c : char) : bool :=
  negb ((c =? Ch.lbrace)%N || (c =? Ch.rbrace)%N
        || (c =? Ch.quote)%N || (c =? Ch.backslash)%N).

(** A stretch of text that the scanning loop, met inside an object and
    outside a string literal, leaves in the state it found: its literals
    are closed and its braces are balanced. *)
Definition scanKeeps (u : text) : Prop :=
  forall (jsonStr : text) (i : Z) (st : ScanState),
    inString st = false -> escapeNext st = false -> 1 <= braceCount st ->
    scanFrom jsonStr i u st = st.

(** The brace depth and the two literal flags after [s], as the scanning
    loop of [extractJsonCandidates] counts them: a backslash escapes the
    character after it, an unescaped quote opens or closes a literal, and a
    brace outside a literal moves the depth, which may become negative. *)
Fixpoint braceWalk (depth : Z) (inString escaped : bool) (s : text)
    : Z * bool * bool :=
  match s with
  | [] => (depth, inString, escaped)
  | c :: r =>
      if escaped then braceWalk depth inString false r
      else if (c =? Ch.backslash)%N then braceWalk depth inString true r
      else if (c =? Ch.quote)%N then braceWalk depth (negb inString) false r
      else if inString then braceWalk depth true false r
      else if (c =? Ch.lbrace)%N then braceWalk (depth + 1) false false r
      else if (c =? Ch.rbrace)%N then braceWalk (depth - 1) false false r
      else braceWalk depth false false r
  end.

(** A place of a text where the counter stands at depth zero, outside a
    literal: [before] is the text up to that place. *)
Definition atDepthZero (before : text) : Prop :=
  braceWalk 0 false false before = (0, false, false).

(** Are the braces of [s] paired within [s], and its literals closed?
    [depth] counts the braces of [s] that are open; a closing brace with
    none open is a failure. *)
Fixpoint bracesBalanced (depth : nat) (inString escaped : bool) (s : text)
    : bool :=
  match s with
  | [] => (depth =? 0)%nat && negb inString && negb escaped
  | c :: r =>
      if escaped then bracesBalanced depth inString false r
      else if (c =? Ch.backslash)%N then bracesBalanced depth inString true r
      else if (c =? Ch.quote)%N
      then bracesBalanced depth (negb inString) false r
      else if inString then bracesBalanced depth true false r
      else if (c =? Ch.lbrace)%N then bracesBalanced (S depth) false false r
      else if (c =? Ch.rbrace)%N then
        match depth with
        | O => false
        | S d => bracesBalanced d false false r
        end
      else bracesBalanced depth false false r
  end.

(** A span from an opening brace to the closing brace that pairs with it. *)
Definition balancedSpan (c : text) : Prop :=
  exists body,
    c = Ch.lbrace :: body ++ [Ch.rbrace]
    /\ bracesBalanced 0 false false body = true.

(** [c] stands in [s] as a balanced span that opens at depth zero. *)
Definition recordable (s c : text) : Prop :=
  exists before after,
    s = before ++ c ++ after /\ atDepthZero before /\ balancedSpan c.

(** The invariant of the scanning loop after the characters [pre]: the
    counter and the flags are those of [braceWalk]; while the depth is
    positive, [startPos] is the place of the brace that opened the current
    span at depth zero, and the text since then has not closed it; every
    span recorded so far is a balanced span that opened at depth zero. *)
Definition locatorInv (pre : text) (st : ScanState) : Prop :=
  braceWalk 0 false false pre = (braceCount st, inString st, escapeNext st)
  /\ (1 <= braceCount st ->
      exists before body,
        pre = before ++ Ch.lbrace :: body
        /\ startPos st = Z.of_nat (length before)
        /\ atDepthZero before
        /\ forall tail,
             bracesBalanced 0 false false (body ++ tail)
             = bracesBalanced (Z.to_nat (braceCount st - 1))
                 (inString st) (escapeNext st) tail)
  /\ Forall (recordable pre) (candidates st).

(** Equations between concatenations, up to associativity. *)
Ltac list_eq :=
  repeat rewrite <- app_assoc; cbn [app]; repeat rewrite <- app_assoc;
  cbn [app]; reflexivity.

(** * Properties *)

(** ** The model on small inputs *)

Example simpleJsonRepair_trailing_comma :
  simpleJsonRepair (js "{'a': [1, 2, ]}") = js "{'a': [1, 2 ]}".
Proof. vm_compute. reflexivity. Qed.

Example simpleJsonRepair_missing_comma :
  simpleJsonRepair (js "noise {'a': {'b': 1} 'c': [2] 'd': 3} noise")
  = js "{'a': {'b': 1}, 'c': [2], 'd': 3}".
Proof. vm_compute. reflexivity. Qed.

Example simpleJsonRepair_unterminated :
  simpleJsonRepair (js "{'a': 'hello") = js "{'a': 'hello'".
Proof. vm_compute. reflexivity. Qed.

Example JSON_parse_object :
  JSON_parse (js " {'a': [1, -2.5e3, true, null], 'b\n': {}} ")
  = Value (JObject [(js "a", JArray [JNumber (js "1"); JNumber (js "-2.5e3");
                                     JBool true; JNull]);
                    ([98; 10]%N, JObject [])]).
Proof. vm_compute. reflexivity. Qed.

Example JSON_parse_trailing_comma :
  JSON_parse (js "{'a': [1, 2, ]}") = SyntaxError.
Proof. vm_compute. reflexivity. Qed.

Example JSON_parse_leading_zero : JSON_parse (js "[01]") = SyntaxError.
Proof. vm_compute. reflexivity. Qed.

Example JSON_parse_empty : JSON_parse [] = SyntaxError.
Proof. vm_compute. reflexivity. Qed.

Example extractJsonCandidates_two :
  extractJsonCandidates (js "x {'a': '}'} y {'b': {'c': 2}} z")
  = [js "{'b': {'c': 2}}"; js "{'a': '}'}"].
Proof. vm_compute. reflexivity. Qed.

(** ** [JSON.parse] always answers *)

Lemma skipWs_length (s : text) : (length (skipWs s) <= length s)%nat.
Proof.
  induction s as [|c r IH]; simpl; [lia|].
  destruct (is_json_ws c); simpl; lia.
Qed.

Lemma skipWs_cons_length (s : text) (c : char) (r : text) :
  skipWs s = c :: r -> (S (length r) <= length s)%nat.
Proof.
  intros H. pose proof (skipWs_length s) as L. rewrite H in L. simpl in L. lia.
Qed.

Lemma lexString_length (s w t : text) :
  lexString s = Some (w, t) -> (S (length t) <= length s)%nat.
Proof.
  revert w t.
  induction s as [s IH] using (well_founded_induction
    (Wf_nat.well_founded_ltof _ (@length char))).
  unfold Wf_nat.ltof in IH.
  intros w t H. destruct s as [|c r]; simpl in H; [discriminate|].
  destruct (c =? Ch.quote)%N.
  { inversion H; subst. simpl. lia. }
  destruct (c =? Ch.backslash)%N.
  - destruct r as [|e r1]; [discriminate|].
    destruct (e =? 117)%N.
    + destruct r1 as [|h1 [|h2 [|h3 [|h4 r2]]]]; try discriminate.
      destruct (hexValue h1), (hexValue h2), (hexValue h3), (hexValue h4);
        try discriminate.
      destruct (lexString r2) as [[w' t']|] eqn:E; [|discriminate].
      inversion H; subst. apply IH in E; simpl in *; lia.
    + destruct (simpleEscape e); [|discriminate].
      destruct (lexString r1) as [[w' t']|] eqn:E; [|discriminate].
      inversion H; subst. apply IH in E; simpl in *; lia.
  - destruct (c <? 32)%N; [discriminate|].
    destruct (lexString r) as [[w' t']|] eqn:E; [|discriminate].
    inversion H; subst. apply IH in E; simpl in *; lia.
Qed.

Lemma spanDigits_length (s w t : text) :
  spanDigits s = (w, t) -> (length t <= length s)%nat.
Proof.
  revert w t. induction s as [|c r IH]; simpl; intros w t H.
  - inversion H; subst. simpl. lia.
  - destruct (is_digit c).
    + destruct (spanDigits r) as [w' t'] eqn:E. inversion H; subst.
      specialize (IH _ _ eq_refl). lia.
    + inversion H; subst. simpl. lia.
Qed.

Lemma stripPrefix_length (p s t : text) :
  stripPrefix p s = Some t -> (length t <= length s)%nat.
Proof.
  revert s. induction p as [|x p IH]; intros s H; simpl in H.
  - inversion H; subst. lia.
  - destruct s as [|y s']; [discriminate|].
    destruct (x =? y)%N; [|discriminate]. apply IH in H. simpl. lia.
Qed.

Lemma lexSign_length (s w t : text) :
  lexSign s = (w, t) -> (length t <= length s)%nat.
Proof.
  destruct s as [|c r]; simpl; intros H.
  - inversion H; subst. simpl. lia.
  - destruct (c =? 45)%N; inversion H; subst; simpl; lia.
Qed.

Lemma lexInt_length (s w t : text) :
  lexInt s = Some (w, t) -> (length t <= length s)%nat.
Proof.
  destruct s as [|c r]; simpl; intros H; [discriminate|].
  destruct (c =? 48)%N.
  - inversion H; subst. lia.
  - destruct (is_digit c); [|discriminate].
    destruct (spanDigits r) as [w' t'] eqn:E. apply spanDigits_length in E.
    inversion H; subst. lia.
Qed.

Lemma lexFrac_length (s w t : text) :
  lexFrac s = Some (w, t) -> (length t <= length s)%nat.
Proof.
  destruct s as [|c r]; simpl; intros H.
  - inversion H; subst. simpl. lia.
  - destruct (c =? 46)%N.
    + destruct (spanDigits r) as [w' t'] eqn:E. apply spanDigits_length in E.
      destruct w'; [discriminate|]. inversion H; subst. lia.
    + inversion H; subst. simpl. lia.
Qed.

Lemma lexExp_length (s w t : text) :
  lexExp s = Some (w, t) -> (length t <= length s)%nat.
Proof.
  destruct s as [|c r]; simpl; intros H.
  - inversion H; subst. simpl. lia.
  - destruct ((c =? 101)%N || (c =? 69)%N).
    + destruct r as [|x r'].
      * simpl in H. discriminate.
      * destruct ((x =? 43)%N || (x =? 45)%N).
        -- destruct (spanDigits r') as [w' t'] eqn:E.
           apply spanDigits_length in E.
           destruct w'; [discriminate|]. inversion H; subst. simpl. lia.
        -- destruct (spanDigits (x :: r')) as [w' t'] eqn:E.
           apply spanDigits_length in E.
           destruct w'; [discriminate|]. inversion H; subst. simpl in *. lia.
    + inversion H; subst. simpl. lia.
Qed.

Lemma lexNumber_length (s w t : text) :
  lexNumber s = Some (w, t) -> (length t <= length s)%nat.
Proof.
  unfold lexNumber. intros H.
  destruct (lexSign s) as [sign s1] eqn:E1. apply lexSign_length in E1.
  destruct (lexInt s1) as [[ip s2]|] eqn:E2; [|discriminate].
  apply lexInt_length in E2.
  destruct (lexFrac s2) as [[fp s3]|] eqn:E3; [|discriminate].
  apply lexFrac_length in E3.
  destruct (lexExp s3) as [[ep s4]|] eqn:E4; [|discriminate].
  apply lexExp_length in E4.
  inversion H; subst. lia.
Qed.

Lemma parse_fuel_ok (f : nat) :
  (forall s, fuelOk (2 * length s + 1) f s (parseValue f s))
  /\ (forall s acc, fuelOk (2 * length s + 2) f s (parseElements f s acc))
  /\ (forall s acc, fuelOk (2 * length s + 2) f s (parseMembers f s acc)).
Proof.
  unfold fuelOk.
  induction f as [|f (IHv & IHe & IHm)].
  { repeat split; intros; simpl in *; lia. }
  assert (done : forall (s : text) v0 r0, (length r0 <= length s)%nat ->
            POk v0 r0 <> PFuel /\
            forall v r, POk v0 r0 = POk v r -> (length r <= length s)%nat).
  { intros s v0 r0 L. split; [discriminate|].
    intros v r E. inversion E; subst. exact L. }
  assert (fail : forall (s : text),
            PFail <> PFuel /\
            forall v r, PFail = POk v r -> (length r <= length s)%nat).
  { intros s. split; discriminate. }
  split; [|split].
  - (* parseValue *)
    intros s Hf. simpl.
    destruct (skipWs s) as [|c r] eqn:Es; [apply fail|].
    apply skipWs_cons_length in Es.
    destruct (c =? Ch.lbrace)%N.
    { destruct (skipWs r) as [|d r'] eqn:Er; [apply fail|].
      pose proof (skipWs_length r) as Lr. rewrite Er in Lr.
      destruct (d =? Ch.rbrace)%N.
      - apply done. simpl in Lr. lia.
      - destruct (IHm (d :: r') []) as [N L]; [lia|].
        split; [exact N|]. intros v t E. apply L in E. lia. }
    destruct (c =? Ch.lbracket)%N.
    { destruct (skipWs r) as [|d r'] eqn:Er; [apply fail|].
      pose proof (skipWs_length r) as Lr. rewrite Er in Lr.
      destruct (d =? Ch.rbracket)%N.
      - apply done. simpl in Lr. lia.
      - destruct (IHe (d :: r') []) as [N L]; [lia|].
        split; [exact N|]. intros v t E. apply L in E. lia. }
    destruct (c =? Ch.quote)%N.
    { destruct (lexString r) as [[str r']|] eqn:El; [|apply fail].
      apply lexString_length in El. apply done. lia. }
    unfold parseScalar.
    destruct (stripPrefix (js "true") (c :: r)) as [r'|] eqn:E1.
    { apply stripPrefix_length in E1. apply done. simpl in E1. lia. }
    destruct (stripPrefix (js "false") (c :: r)) as [r'|] eqn:E2.
    { apply stripPrefix_length in E2. apply done. simpl in E2. lia. }
    destruct (stripPrefix (js "null") (c :: r)) as [r'|] eqn:E3.
    { apply stripPrefix_length in E3. apply done. simpl in E3. lia. }
    destruct (lexNumber (c :: r)) as [[lexeme r']|] eqn:E4; [|apply fail].
    apply lexNumber_length in E4. apply done. simpl in E4. lia.
  - (* parseElements *)
    intros s acc Hf. simpl.
    destruct (IHv s) as [N L]; [lia|].
    destruct (parseValue f s) as [v r| |] eqn:Ev;
      [|apply fail|contradiction].
    specialize (L _ _ eq_refl).
    destruct (skipWs r) as [|d r'] eqn:Er; [apply fail|].
    apply skipWs_cons_length in Er.
    destruct (d =? Ch.comma)%N.
    + destruct (IHe r' (v :: acc)) as [N' L']; [lia|].
      split; [exact N'|]. intros v' t E. apply L' in E. lia.
    + destruct (d =? Ch.rbracket)%N; [apply done; lia|apply fail].
  - (* parseMembers *)
    intros s acc Hf. simpl.
    destruct (skipWs s) as [|q r] eqn:Es; [apply fail|].
    apply skipWs_cons_length in Es.
    destruct (q =? Ch.quote)%N; [|apply fail].
    destruct (lexString r) as [[k r1]|] eqn:El; [|apply fail].
    apply lexString_length in El.
    destruct (skipWs r1) as [|c r2] eqn:E1; [apply fail|].
    apply skipWs_cons_length in E1.
    destruct (c =? Ch.colon)%N; [|apply fail].
    destruct (IHv r2) as [N L]; [lia|].
    destruct (parseValue f r2) as [v r3| |] eqn:Ev;
      [|apply fail|contradiction].
    specialize (L _ _ eq_refl).
    destruct (skipWs r3) as [|d r4] eqn:E3; [apply fail|].
    apply skipWs_cons_length in E3.
    destruct (d =? Ch.comma)%N.
    + destruct (IHm r4 ((k, v) :: acc)) as [N' L']; [lia|].
      split; [exact N'|]. intros v' t E. apply L' in E. lia.
    + destruct (d =? Ch.rbrace)%N; [apply done; lia|apply fail].
Qed.

(** [JSON.parse] is total: on every text it returns a value or throws a
    SyntaxError. *)
Lemma JSON_parse_never_out_of_fuel (s : text) : JSON_parse s <> OutOfFuel.
Proof.
  unfold JSON_parse.
  destruct (proj1 (parse_fuel_ok (parseFuel s)) s) as [N _].
  { unfold parseFuel. lia. }
  destruct (parseValue (parseFuel s) s) as [v r| |]; [|discriminate|contradiction].
  destruct (skipWs r); discriminate.
Qed.

Lemma parses_false_SyntaxError (s : text) :
  parses s = false <-> JSON_parse s = SyntaxError.
Proof.
  unfold parses. pose proof (JSON_parse_never_out_of_fuel s) as N.
  destruct (JSON_parse s); split; intros H; try discriminate; try reflexivity.
  contradiction.
Qed.

Lemma parses_true_Value (s : text) :
  parses s = true <-> exists v, JSON_parse s = Value v.
Proof.
  unfold parses. destruct (JSON_parse s) as [v| |]; split; intros H;
    try discriminate; try reflexivity; try (destruct H; discriminate).
  exists v. reflexivity.
Qed.

(** ** The candidate loop of [fixJsonString] *)

Lemma firstParsing_Some (cands : list text) (c : text) :
  firstParsing cands = Some c ->
  exists l1 l2, cands = l1 ++ c :: l2
                /\ Forall (fun x => parses x = false) l1
                /\ parses c = true.
Proof.
  induction cands as [|x l IH]; simpl; intros H; [discriminate|].
  destruct (parses x) eqn:Px.
  - inversion H; subst. exists [], l. auto.
  - destruct (IH H) as (l1 & l2 & E & F & P).
    exists (x :: l1), l2. subst. auto.
Qed.

Lemma firstParsing_None (cands : list text) :
  firstParsing cands = None -> Forall (fun x => parses x = false) cands.
Proof.
  induction cands as [|x l IH]; simpl; intros H; [constructor|].
  destruct (parses x) eqn:Px; [discriminate|]. auto.
Qed.


(** ** The order of the candidates *)

Lemma insertSorted_perm {A} (cmp : A -> A -> Z) (x : A) (l : list A) :
  Permutation (x :: l) (insertSorted cmp x l).
Proof.
  induction l as [|y l IH]; simpl; [reflexivity|].
  destruct (cmp x y <=? 0); [reflexivity|].
  rewrite perm_swap. constructor. exact IH.
Qed.

Lemma sortBy_perm {A} (cmp : A -> A -> Z) (l : list A) :
  Permutation l (sortBy cmp l).
Proof.
  induction l as [|x l IH]; simpl; [constructor|].
  rewrite <- insertSorted_perm. constructor. exact IH.
Qed.

Lemma insertSorted_byLength (x : text) (l : list text) :
  StronglySorted longerFirst l ->
  StronglySorted longerFirst (insertSorted byLengthDesc x l).
Proof.
  induction 1 as [|y l S IH F]; simpl.
  - repeat constructor.
  - unfold byLengthDesc at 1.
    destruct (Z.leb_spec (Z.of_nat (length y) - Z.of_nat (length x)) 0) as [L|L].
    + constructor; [constructor; assumption|].
      constructor; [unfold longerFirst; lia|].
      eapply Forall_impl; [|exact F]. unfold longerFirst. intros; lia.
    + constructor; [exact IH|].
      eapply Permutation_Forall; [apply insertSorted_perm|].
      constructor; [unfold longerFirst; lia|exact F].
Qed.

Lemma sortBy_byLength (l : list text) :
  StronglySorted longerFirst (sortBy byLengthDesc l).
Proof.
  induction l as [|x l IH]; simpl; [constructor|].
  apply insertSorted_byLength. exact IH.
Qed.


Lemma fixJsonString_loop (jsonStr : text) :
  parses (simpleJsonRepair jsonStr) = false ->
  fixJsonString jsonStr
  = match firstParsing (extractJsonCandidates jsonStr) with
    | Some candidate => candidate
    | None => extremeJsonFallback jsonStr
    end.
Proof. unfold fixJsonString. intros ->. reflexivity. Qed.

(** C2 (as amended): when the first repaired variant fails to parse, the
    candidate spans of the Candidate Locator are tried longest-first, each
    one parsed as it is, with no fix applied to it; the first one that
    parses is returned unchanged, and when none parses control passes to the
    Envelope Fallback. *)
Theorem C2_candidates_tried_as_they_are (jsonStr : text) :
  parses (simpleJsonRepair jsonStr) = false ->
  StronglySorted longerFirst (extractJsonCandidates jsonStr)
  /\ ((exists l1 c l2,
          extractJsonCandidates jsonStr = l1 ++ c :: l2
          /\ Forall (fun x => parses x = false) l1
          /\ parses c = true
          /\ In c (locatedSpans jsonStr)
          /\ fixJsonString jsonStr = c)
      \/ (Forall (fun x => parses x = false) (extractJsonCandidates jsonStr)
          /\ fixJsonString jsonStr = extremeJsonFallback jsonStr)).
Proof.
  intros H. split; [apply sortBy_byLength|].
  rewrite (fixJsonString_loop _ H).
  destruct (firstParsing (extractJsonCandidates jsonStr)) as [c|] eqn:E.
  - left. destruct (firstParsing_Some _ _ E) as (l1 & l2 & Es & F & P).
    exists l1, c, l2. repeat split; auto.
    eapply Permutation_in.
    + symmetry. apply (sortBy_perm byLengthDesc).
    + fold (extractJsonCandidates jsonStr). rewrite Es.
      apply in_or_app. right. left. reflexivity.
  - right. split; [|reflexivity]. apply firstParsing_None. exact E.
Qed.

Lemma C2_candidates_tried_as_they_are_witness :
  let x := js "{'a': [1,]} {'b': 2}" in
  StronglySorted longerFirst (extractJsonCandidates x)
  /\ ((exists l1 c l2,
          extractJsonCandidates x = l1 ++ c :: l2
          /\ Forall (fun y => parses y = false) l1
          /\ parses c = true
          /\ In c (locatedSpans x)
          /\ fixJsonString x = c)
      \/ (Forall (fun y => parses y = false) (extractJsonCandidates x)
          /\ fixJsonString x = extremeJsonFallback x)).
Proof.
  intros x. apply (C2_candidates_tried_as_they_are x).
  vm_compute. reflexivity.
Defined.

(** C2 as stated fails: the one candidate of this text parses once the fix
    sequence is applied to it, yet the source parses it unrepaired, so
    control passes to the Envelope Fallback. *)
Lemma C2_counterexample :
  let x := js "{'a': [1,]} }" in
  parses (simpleJsonRepair x) = false
  /\ extractJsonCandidates x = [js "{'a': [1,]}"]
  /\ parses (simpleJsonRepair (js "{'a': [1,]}")) = true
  /\ fixJsonString_spec x = js "{'a': [1]}"
  /\ fixJsonString x = emptyEnvelope
  /\ fixJsonString x <> fixJsonString_spec x.
Proof. vm_compute. repeat split; try reflexivity. discriminate. Qed.

(** ** The scan of the Candidate Locator *)

Lemma scanFrom_app (jsonStr : text) (a b : text) (i : Z) (st : ScanState) :
  scanFrom jsonStr i (a ++ b) st
  = scanFrom jsonStr (i + Z.of_nat (length a)) b (scanFrom jsonStr i a st).
Proof.
  revert i st. induction a as [|c a IH]; intros i st.
  - simpl. f_equal. lia.
  - cbn [app scanFrom length]. rewrite IH. f_equal. lia.
Qed.

(** Inside a string literal the scan changes nothing but the escape flag. *)
Lemma scanFrom_literalBody (jsonStr : text) (body : text) :
  forall (i : Z) (st : ScanState),
    inString st = true ->
    literalBody (escapeNext st) body = true ->
    scanFrom jsonStr i body st
    = {| braceCount := braceCount st; startPos := startPos st;
         inString := true; escapeNext := false;
         candidates := candidates st |}.
Proof.
  induction body as [|c r IH]; intros i st Hin Hb.
  - simpl in *. destruct st as [bc sp ins esc cs]; simpl in *.
    subst. destruct esc; [discriminate|reflexivity].
  - cbn [scanFrom]. cbn [literalBody] in Hb.
    destruct st as [bc sp ins esc cs]; simpl in Hin, Hb; subst ins.
    unfold scanStep; cbn [escapeNext inString braceCount startPos candidates].
    destruct esc.
    + rewrite IH; [reflexivity|reflexivity|exact Hb].
    + destruct (c =? Ch.backslash)%N.
      * rewrite IH; [reflexivity|reflexivity|exact Hb].
      * destruct (c =? Ch.quote)%N; [discriminate|].
        cbn [andb negb]. rewrite IH; [reflexivity|reflexivity|exact Hb].
Qed.

(** C6: the candidate-locating scan never counts a brace inside a quoted
    string literal toward the structural depth, and it honours escapes: an
    escaped quote does not toggle the in-string flag, and after an escaped
    backslash pair the next quote is live.  As a whole: after a complete
    string literal, whatever braces and escaped quotes its content holds,
    the scan goes on in the very state it had before the literal. *)
Theorem C6_string_literal_bracket_immunity
    (jsonStr : text) (st : ScanState) (i : Z) :
  (forall c, inString st = true -> c = Ch.lbrace \/ c = Ch.rbrace ->
     braceCount (scanStep jsonStr st i c) = braceCount st
     /\ startPos (scanStep jsonStr st i c) = startPos st
     /\ candidates (scanStep jsonStr st i c) = candidates st
     /\ inString (scanStep jsonStr st i c) = true)
  /\ (escapeNext st = true ->
      inString (scanStep jsonStr st i Ch.quote) = inString st
      /\ escapeNext (scanStep jsonStr st i Ch.quote) = false)
  /\ (escapeNext st = false ->
      let st2 := scanStep jsonStr (scanStep jsonStr st i Ch.backslash)
                   (i + 1) Ch.backslash in
      st2 = st
      /\ inString (scanStep jsonStr st2 (i + 2) Ch.quote)
         = negb (inString st))
  /\ (forall body rest,
        inString st = false -> escapeNext st = false ->
        literalBody false body = true ->
        scanFrom jsonStr i (Ch.quote :: body ++ Ch.quote :: rest) st
        = scanFrom jsonStr (i + Z.of_nat (length body) + 2) rest st).
Proof.
  destruct st as [bc sp ins esc cs].
  cbn [inString escapeNext braceCount startPos candidates].
  split; [|split; [|split]].
  - intros c -> [-> | ->]; unfold scanStep;
      cbn [inString escapeNext braceCount startPos candidates];
      destruct esc; simpl; auto.
  - intros ->. unfold scanStep. simpl. auto.
  - intros ->. unfold scanStep. simpl. auto.
  - intros body rest -> -> Hb.
    cbn [scanFrom]. rewrite scanFrom_app.
    assert (Hq : forall b c k,
               scanStep jsonStr (mkScan bc sp b false c) k Ch.quote
               = mkScan bc sp (negb b) false c) by reflexivity.
    rewrite Hq. cbn [negb].
    rewrite (scanFrom_literalBody jsonStr body); [|reflexivity|exact Hb].
    cbn [scanFrom inString escapeNext braceCount startPos candidates negb].
    rewrite Hq. cbn [negb]. f_equal. lia.
Qed.

Lemma C6_string_literal_bracket_immunity_witness :
  braceCount (scanStep (js "{'}'}") (mkScan 1 0 true false []) 2 Ch.rbrace) = 1
  /\ inString (scanStep (js "'\''") (mkScan 0 (-1) true true []) 2 Ch.quote)
     = true
  /\ inString
       (scanStep (js "'\\'")
          (scanStep (js "'\\'")
             (scanStep (js "'\\'") (mkScan 0 (-1) true false []) 1
                Ch.backslash) (1 + 1) Ch.backslash) (1 + 2) Ch.quote)
     = false
  /\ scanFrom (js "{'a}\'{': 1}") 1 (js "'a}\'{': 1}") (mkScan 1 0 false false [])
     = scanFrom (js "{'a}\'{': 1}") 8 (js ": 1}") (mkScan 1 0 false false []).
Proof.
  split; [|split; [|split]].
  - apply (proj1 (C6_string_literal_bracket_immunity
                    (js "{'}'}") (mkScan 1 0 true false []) 2) Ch.rbrace);
      [reflexivity | right; reflexivity].
  - apply (proj1 (proj2 (C6_string_literal_bracket_immunity
                    (js "'\''") (mkScan 0 (-1) true true []) 2))).
    reflexivity.
  - apply (proj2 (proj1 (proj2 (proj2 (C6_string_literal_bracket_immunity
                    (js "'\\'") (mkScan 0 (-1) true false []) 1))) eq_refl)).
  - apply (proj2 (proj2 (proj2 (C6_string_literal_bracket_immunity
                    (js "{'a}\'{': 1}") (mkScan 1 0 false false []) 1)))
             (js "a}\'{") (js ": 1}")); reflexivity.
Defined.

(** *** Only brace-delimited spans are located *)

Lemma substring_ends (s : text) (a b : Z) (x y : char) :
  0 <= a -> a < b ->
  nth_error s (Z.to_nat a) = Some x ->
  nth_error s (Z.to_nat b) = Some y ->
  exists mid, substring s a (b + 1) = x :: mid ++ [y].
Proof.
  intros Ha Hab Hx Hy.
  assert (Lb : (Z.to_nat b < length s)%nat).
  { apply nth_error_Some. rewrite Hy. discriminate. }
  destruct (nth_error_split _ _ Hx) as (s1 & s2 & Es & L1).
  unfold substring, clamp.
  replace (Z.min (Z.max 0 (Z.min a (Z.of_nat (length s))))
             (Z.max 0 (Z.min (b + 1) (Z.of_nat (length s))))) with a by lia.
  replace (Z.max (Z.max 0 (Z.min a (Z.of_nat (length s))))
             (Z.max 0 (Z.min (b + 1) (Z.of_nat (length s))))) with (b + 1)
    by lia.
  assert (Hy2 : nth_error s2 (Z.to_nat (b - a - 1)) = Some y).
  { rewrite Es in Hy. rewrite nth_error_app2 in Hy by lia.
    replace (Z.to_nat b - length s1)%nat
      with (S (Z.to_nat (b - a - 1))) in Hy by lia.
    exact Hy. }
  clear Hx Hy Lb. subst s.
  rewrite <- L1, skipn_app, skipn_all, Nat.sub_diag.
  cbn [app skipn].
  replace (Z.to_nat (b + 1 - a)) with (S (Z.to_nat (b - a - 1) + 1)) by lia.
  cbn [firstn].
  destruct (nth_error_split _ _ Hy2) as (m & s3 & Es2 & L2).
  exists m. f_equal. rewrite Es2, <- L2.
  rewrite firstn_app, firstn_all2 by lia.
  replace (length m + 1 - length m)%nat with 1%nat by lia. reflexivity.
Qed.

Lemma scanStep_inv (jsonStr : text) (i : Z) (c : char) (st : ScanState) :
  0 <= i ->
  nth_error jsonStr (Z.to_nat i) = Some c ->
  scanInv jsonStr i st ->
  scanInv jsonStr (i + 1) (scanStep jsonStr st i c).
Proof.
  intros Hi Hc [Hs Hf]. destruct st as [bc sp ins esc cs].
  cbn [braceCount startPos candidates] in *.
  assert (keep : scanInv jsonStr (i + 1) (mkScan bc sp ins false cs)
                 /\ scanInv jsonStr (i + 1) (mkScan bc sp ins true cs)
                 /\ scanInv jsonStr (i + 1) (mkScan bc sp (negb ins) esc cs)
                 /\ scanInv jsonStr (i + 1) (mkScan bc sp ins esc cs)).
  { repeat apply conj; cbn [braceCount startPos candidates]; try exact Hf;
      intros B; destruct (Hs B) as [R E]; (split; [lia|exact E]). }
  destruct keep as (K1 & K2 & K3 & K4).
  unfold scanStep. cbn [escapeNext inString braceCount startPos candidates].
  destruct esc; [exact K1|].
  destruct (c =? Ch.backslash)%N; [exact K2|].
  destruct (c =? Ch.quote)%N; [exact K3|]. cbn [andb].
  destruct ins; [exact K4|]. cbn [negb].
  destruct (N.eqb_spec c Ch.lbrace) as [->|_].
  { split; cbn [braceCount startPos candidates]; [|exact Hf].
    intros B. destruct (Z.eqb_spec bc 0) as [->|N0].
    - split; [lia|exact Hc].
    - destruct Hs as [R E]; [lia|]. split; [lia|exact E]. }
  destruct (N.eqb_spec c Ch.rbrace) as [->|_]; [|exact K4].
  split; cbn [braceCount startPos candidates].
  - intros B. destruct Hs as [R E]; [lia|]. split; [lia|exact E].
  - destruct (Z.eqb_spec (bc - 1) 0) as [E0|_]; [|exact Hf].
    destruct (sp =? -1); [exact Hf|]. cbn [andb negb].
    apply Forall_app. split; [exact Hf|]. constructor; [|constructor].
    destruct Hs as [R E]; [lia|].
    apply (substring_ends jsonStr sp i Ch.lbrace Ch.rbrace); try lia;
      assumption.
Qed.

Lemma scanFrom_inv (jsonStr : text) (rest pre : text) (st : ScanState) :
  jsonStr = pre ++ rest ->
  scanInv jsonStr (Z.of_nat (length pre)) st ->
  Forall braced (candidates (scanFrom jsonStr (Z.of_nat (length pre)) rest st)).
Proof.
  revert pre st. induction rest as [|c r IH]; intros pre st E I.
  - exact (proj2 I).
  - cbn [scanFrom].
    replace (Z.of_nat (length pre) + 1) with (Z.of_nat (length (pre ++ [c])))
      by (rewrite length_app; simpl; lia).
    apply IH.
    + rewrite <- app_assoc. exact E.
    + rewrite length_app. simpl length.
      replace (Z.of_nat (length pre + 1)) with (Z.of_nat (length pre) + 1)
        by lia.
      apply scanStep_inv; [lia| |exact I].
      rewrite Nat2Z.id, E, nth_error_app2, Nat.sub_diag by lia. reflexivity.
Qed.

Lemma locatedSpans_braced (jsonStr : text) :
  Forall braced (locatedSpans jsonStr).
Proof.
  unfold locatedSpans.
  apply (scanFrom_inv jsonStr jsonStr [] scanInit); [reflexivity|].
  split; simpl; [lia|constructor].
Qed.

(** Without an opening brace the depth never becomes positive, and no span
    is recorded. *)
Lemma scanFrom_no_lbrace (jsonStr : text) (rest : text) :
  forall (i : Z) (st : ScanState),
    ~ In Ch.lbrace rest -> braceCount st <= 0 ->
    candidates (scanFrom jsonStr i rest st) = candidates st.
Proof.
  induction rest as [|c r IH]; intros i st Hn Hb; [reflexivity|].
  cbn [scanFrom].
  assert (Hc : c <> Ch.lbrace) by (intros ->; apply Hn; left; reflexivity).
  assert (Hr : ~ In Ch.lbrace r) by (intros H; apply Hn; right; exact H).
  destruct st as [bc sp ins esc cs]. cbn [braceCount candidates] in *.
  unfold scanStep. cbn [escapeNext inString braceCount startPos candidates].
  destruct esc; [rewrite IH; auto|].
  destruct (c =? Ch.backslash)%N; [rewrite IH; auto|].
  destruct (c =? Ch.quote)%N; [rewrite IH; auto|]. cbn [andb].
  destruct ins; [rewrite IH; auto|]. cbn [negb].
  destruct (N.eqb_spec c Ch.lbrace) as [E|_]; [contradiction|].
  destruct (c =? Ch.rbrace)%N; [|rewrite IH; auto].
  rewrite IH; cbn [braceCount candidates]; [|exact Hr|lia].
  destruct (Z.eqb_spec (bc - 1) 0); [lia|reflexivity].
Qed.

(** C8 as stated fails: the only top-level structure of the first text is an
    array, and the locator returns the empty sequence; in the second text it
    returns the object nested in the array, not the array span. *)
Lemma C8_counterexample :
  JSON_parse (js "[1, 2]") = Value (JArray [JNumber (js "1"); JNumber (js "2")])
  /\ extractJsonCandidates (js "[1, 2]") = []
  /\ extractJsonCandidates (js "[{'a':1}]") = [js "{'a':1}"].
Proof. vm_compute. repeat split; reflexivity. Qed.

(** ** The fixes of the Structural Repairer, one by one *)

(** *** Boundary trim *)

Lemma trimStart_length (s : text) : (length (trimStart s) <= length s)%nat.
Proof.
  induction s as [|c r IH]; simpl; [lia|].
  destruct (is_space c); simpl; lia.
Qed.

Lemma trimStart_fixed (s : text) :
  trimStart s = s <->
  s = [] \/ exists c r, s = c :: r /\ is_space c = false.
Proof.
  split.
  - destruct s as [|c r]; [auto|]. simpl. intros H. right.
    destruct (is_space c) eqn:E.
    + pose proof (trimStart_length r) as L. rewrite H in L. simpl in L. lia.
    + exists c, r. auto.
  - intros [->|(c & r & -> & E)]; simpl; [reflexivity|].
    rewrite E. reflexivity.
Qed.

Lemma trimStart_idem (s : text) : trimStart (trimStart s) = trimStart s.
Proof.
  induction s as [|c r IH]; [reflexivity|]. simpl.
  destruct (is_space c) eqn:E; [exact IH|]. simpl. rewrite E. reflexivity.
Qed.

Lemma trimStart_suffix (s : text) : exists w, s = w ++ trimStart s.
Proof.
  induction s as [|c r [w IH]]; [exists []; reflexivity|]. simpl.
  destruct (is_space c).
  - exists (c :: w). simpl. f_equal. exact IH.
  - exists []. reflexivity.
Qed.

Lemma trim_edgesClean (s : text) : edgesClean s -> trim s = s.
Proof.
  intros [H1 H2]. unfold trim, trimEnd. rewrite H1, H2. apply rev_involutive.
Qed.

Lemma edgesClean_trim (s : text) : edgesClean (trim s).
Proof.
  unfold trim, trimEnd, edgesClean.
  set (x := trimStart s). set (y := trimStart (rev x)).
  rewrite rev_involutive. split; [|apply trimStart_idem].
  destruct (trimStart_suffix (rev x)) as [w Hw]. fold y in Hw.
  assert (Ex : x = rev y ++ rev w).
  { rewrite <- (rev_involutive x), Hw, rev_app_distr. reflexivity. }
  assert (Fx : trimStart x = x) by apply trimStart_idem.
  apply trimStart_fixed in Fx. apply trimStart_fixed.
  destruct (rev y) as [|c r] eqn:Ey; [left; reflexivity|]. right.
  exists c, r. split; [reflexivity|].
  destruct Fx as [F|(c' & r' & F & Sp)]; rewrite Ex in F; simpl in F;
    [discriminate|].
  inversion F; subst. exact Sp.
Qed.

Lemma trim_idem (s : text) : trim (trim s) = trim s.
Proof. apply trim_edgesClean, edgesClean_trim. Qed.

Lemma braced_edgesClean (u : text) : braced u -> edgesClean u.
Proof.
  intros [mid ->]. split; apply trimStart_fixed; right.
  - exists Ch.lbrace, (mid ++ [Ch.rbrace]). split; reflexivity.
  - exists Ch.rbrace, (rev mid ++ [Ch.lbrace]). split; [|reflexivity].
    change (Ch.lbrace :: mid ++ [Ch.rbrace])
      with ([Ch.lbrace] ++ mid ++ [Ch.rbrace]).
    rewrite !rev_app_distr. reflexivity.
Qed.

Lemma indexOf_from_found (s : text) (c : char) :
  forall k, 0 <= k -> indexOf_from k s c <> -1 ->
    k <= indexOf_from k s c
    /\ nth_error s (Z.to_nat (indexOf_from k s c - k)) = Some c.
Proof.
  induction s as [|x r IH]; intros k Hk H; simpl in *; [contradiction|].
  destruct (N.eqb_spec x c) as [->|_].
  - rewrite Z.sub_diag. split; [lia|reflexivity].
  - destruct (IH (k + 1)) as [L E]; [lia|exact H|]. split; [lia|].
    replace (Z.to_nat (indexOf_from (k + 1) r c - k))
      with (S (Z.to_nat (indexOf_from (k + 1) r c - (k + 1)))) by lia.
    exact E.
Qed.

Lemma lastIndexOf_from_found (s : text) (c : char) :
  forall k found, 0 <= k ->
    lastIndexOf_from k s c found = found
    \/ (k <= lastIndexOf_from k s c found
        /\ nth_error s (Z.to_nat (lastIndexOf_from k s c found - k)) = Some c).
Proof.
  induction s as [|x r IH]; intros k found Hk; simpl; [left; reflexivity|].
  destruct (N.eqb_spec x c) as [->|_].
  - destruct (IH (k + 1) k) as [E|[L E]]; [lia| |]; right.
    + rewrite E, Z.sub_diag. split; [lia|reflexivity].
    + split; [lia|].
      replace (Z.to_nat (lastIndexOf_from (k + 1) r c k - k))
        with (S (Z.to_nat (lastIndexOf_from (k + 1) r c k - (k + 1)))) by lia.
      exact E.
  - destruct (IH (k + 1) found) as [E|[L E]]; [lia|left; exact E|right].
    split; [lia|].
    replace (Z.to_nat (lastIndexOf_from (k + 1) r c found - k))
      with (S (Z.to_nat (lastIndexOf_from (k + 1) r c found - (k + 1))))
      by lia.
    exact E.
Qed.

Lemma lastIndexOf_from_last (m : text) (c : char) :
  forall k found,
    lastIndexOf_from k (m ++ [c]) c found = k + Z.of_nat (length m).
Proof.
  induction m as [|x m IH]; intros k found; simpl.
  - rewrite N.eqb_refl. lia.
  - rewrite IH. lia.
Qed.

Lemma substring_whole (u : text) :
  substring u 0 (Z.of_nat (length u)) = u.
Proof.
  unfold substring, clamp.
  replace (Z.min (Z.max 0 (Z.min 0 (Z.of_nat (length u))))
             (Z.max 0 (Z.min (Z.of_nat (length u)) (Z.of_nat (length u)))))
    with 0 by lia.
  replace (Z.max (Z.max 0 (Z.min 0 (Z.of_nat (length u))))
             (Z.max 0 (Z.min (Z.of_nat (length u)) (Z.of_nat (length u)))))
    with (Z.of_nat (length u)) by lia.
  rewrite Z.sub_0_r, Nat2Z.id. simpl. apply firstn_all.
Qed.

Lemma boundaryTrim_braced (u : text) : braced u -> boundaryTrim u = u.
Proof.
  intros B. unfold boundaryTrim.
  rewrite (trim_edgesClean _ (braced_edgesClean _ B)).
  destruct B as [mid ->].
  assert (EI : indexOf (Ch.lbrace :: mid ++ [Ch.rbrace]) Ch.lbrace = 0)
    by reflexivity.
  assert (EL : lastIndexOf (Ch.lbrace :: mid ++ [Ch.rbrace]) Ch.rbrace
               = Z.of_nat (S (length mid))).
  { unfold lastIndexOf.
    change (Ch.lbrace :: mid ++ [Ch.rbrace])
      with ((Ch.lbrace :: mid) ++ [Ch.rbrace]).
    rewrite lastIndexOf_from_last. simpl length. lia. }
  rewrite EI, EL.
  replace (0 =? -1) with false by reflexivity.
  destruct (Z.eqb_spec (Z.of_nat (S (length mid))) (-1)); [lia|].
  destruct (Z.gtb_spec (Z.of_nat (S (length mid))) 0); [|lia].
  cbn [negb andb].
  replace (Z.of_nat (S (length mid)) + 1)
    with (Z.of_nat (length (Ch.lbrace :: mid ++ [Ch.rbrace])))
    by (simpl length; rewrite length_app; simpl; lia).
  apply substring_whole.
Qed.

Lemma boundaryTrim_cases (s : text) :
  braced (boundaryTrim s)
  \/ (boundaryTrim s = trim s
      /\ negb (indexOf (trim s) Ch.lbrace =? -1)
         && negb (lastIndexOf (trim s) Ch.rbrace =? -1)
         && (lastIndexOf (trim s) Ch.rbrace >? indexOf (trim s) Ch.lbrace)
         = false).
Proof.
  unfold boundaryTrim.
  set (t := trim s).
  destruct (negb (indexOf t Ch.lbrace =? -1)
            && negb (lastIndexOf t Ch.rbrace =? -1)
            && (lastIndexOf t Ch.rbrace >? indexOf t Ch.lbrace)) eqn:C;
    [left|right; split; reflexivity].
  apply andb_prop in C. destruct C as [C C3].
  apply andb_prop in C. destruct C as [C1 C2].
  apply negb_true_iff, Z.eqb_neq in C1.
  apply negb_true_iff, Z.eqb_neq in C2.
  apply Z.gtb_lt in C3.
  destruct (indexOf_from_found t Ch.lbrace 0) as [L1 E1]; [lia|exact C1|].
  fold (indexOf t Ch.lbrace) in L1, E1. rewrite Z.sub_0_r in E1.
  destruct (lastIndexOf_from_found t Ch.rbrace 0 (-1)) as [E|[L2 E2]];
    [lia| |].
  { unfold lastIndexOf in C2. contradiction. }
  fold (lastIndexOf t Ch.rbrace) in L2, E2. rewrite Z.sub_0_r in E2.
  apply substring_ends; assumption.
Qed.

Lemma boundaryTrim_idem (s : text) :
  boundaryTrim (boundaryTrim s) = boundaryTrim s.
Proof.
  destruct (boundaryTrim_cases s) as [B|[E C]].
  - apply boundaryTrim_braced. exact B.
  - rewrite E. unfold boundaryTrim. rewrite trim_idem, C. reflexivity.
Qed.

(** *** Control-character normalization *)

Lemma normalizeLoop_idem (s : text) :
  forall inS esc,
    normalizeLoop inS esc (normalizeLoop inS esc s) = normalizeLoop inS esc s.
Proof.
  induction s as [|c r IH]; intros inS esc; [reflexivity|].
  cbn [normalizeLoop].
  destruct esc.
  { cbn [normalizeLoop]. rewrite IH. reflexivity. }
  destruct (c =? Ch.backslash)%N eqn:Eb.
  { cbn [normalizeLoop]. rewrite Eb, IH. reflexivity. }
  destruct (c =? Ch.quote)%N eqn:Eq; cbn [andb negb].
  { cbn [normalizeLoop]. rewrite Eb, Eq. cbn [andb negb]. rewrite IH.
    reflexivity. }
  destruct inS; cbn [andb].
  - destruct (c =? Ch.lf)%N eqn:El.
    { cbn [normalizeLoop].
      change (Ch.backslash =? Ch.backslash)%N with true. cbv iota.
      rewrite IH. reflexivity. }
    destruct (c =? Ch.tab)%N eqn:Et.
    { cbn [normalizeLoop].
      change (Ch.space =? Ch.backslash)%N with false.
      change (Ch.space =? Ch.quote)%N with false.
      change (Ch.space =? Ch.lf)%N with false.
      change (Ch.space =? Ch.tab)%N with false.
      change (Ch.space =? Ch.cr)%N with false.
      cbn [andb]. cbv iota. rewrite IH. reflexivity. }
    destruct (c =? Ch.cr)%N eqn:Ec.
    { apply IH. }
    cbn [normalizeLoop]. rewrite Eb, Eq, El, Et, Ec. cbn [andb].
    rewrite IH. reflexivity.
  - cbn [normalizeLoop]. rewrite Eb, Eq. cbn [andb]. rewrite IH.
    reflexivity.
Qed.

(** *** Quote-parity repair *)

Lemma countQuotes_app (a b : text) :
  countQuotes (a ++ b) = (countQuotes a + countQuotes b)%nat.
Proof. apply count_occ_app. Qed.

Lemma quoteParityRepair_even (s : text) :
  (countQuotes (quoteParityRepair s) mod 2 = 0)%nat.
Proof.
  unfold quoteParityRepair.
  destruct (Nat.eqb_spec (countQuotes s mod 2) 0) as [E|E]; cbn [negb].
  - exact E.
  - rewrite countQuotes_app.
    change (countQuotes [Ch.quote]) with 1%nat.
    pose proof (Nat.div_mod_eq (countQuotes s) 2) as D1.
    pose proof (Nat.mod_upper_bound (countQuotes s) 2) as U1.
    pose proof (Nat.div_mod_eq (countQuotes s + 1) 2) as D2.
    pose proof (Nat.mod_upper_bound (countQuotes s + 1) 2) as U2.
    lia.
Qed.

Lemma quoteParityRepair_idem (s : text) :
  quoteParityRepair (quoteParityRepair s) = quoteParityRepair s.
Proof.
  unfold quoteParityRepair at 1.
  rewrite quoteParityRepair_even. reflexivity.
Qed.

(** What the source does: the parity of all the quote characters decides,
    whether a backslash precedes them or not. *)
Lemma quoteParityRepair_all_quotes (s : text) :
  quoteParityRepair s
  = if Nat.odd (countQuotes s) then s ++ [Ch.quote] else s.
Proof.
  unfold quoteParityRepair.
  pose proof (Nat.div_mod_eq (countQuotes s) 2) as D.
  pose proof (Nat.mod_upper_bound (countQuotes s) 2) as U.
  destruct (Nat.odd (countQuotes s)) eqn:O.
  - apply Nat.odd_spec in O. destruct O as [k Hk].
    destruct (Nat.eqb_spec (countQuotes s mod 2) 0); [lia|reflexivity].
  - assert (Ev : Nat.even (countQuotes s) = true).
    { rewrite <- Nat.negb_odd, O. reflexivity. }
    apply Nat.even_spec in Ev. destruct Ev as [k Hk].
    destruct (Nat.eqb_spec (countQuotes s mod 2) 0); [reflexivity|lia].
Qed.

(** C7 (as amended): the composed fix function is not idempotent, because
    trailing-separator removal and missing-separator insertion are
    single-pass rewrites; of the five fixes, boundary trim,
    control-character normalization and quote-parity repair are idempotent,
    each on its own, on every text. *)
Theorem C7_idempotent_fixes (s : text) :
  boundaryTrim (boundaryTrim s) = boundaryTrim s
  /\ normalizeControls (normalizeControls s) = normalizeControls s
  /\ quoteParityRepair (quoteParityRepair s) = quoteParityRepair s.
Proof.
  split; [apply boundaryTrim_idem|].
  split; [apply normalizeLoop_idem|apply quoteParityRepair_idem].
Qed.

(** C7 as stated fails: one application removes only the comma next to the
    closing brace, the second removes the other one. *)
Lemma C7_counterexample :
  let x := js "{'a':1,,}" in
  simpleJsonRepair x = js "{'a':1,}"
  /\ simpleJsonRepair (simpleJsonRepair x) = js "{'a':1}"
  /\ simpleJsonRepair (simpleJsonRepair x) <> simpleJsonRepair x.
Proof. vm_compute. repeat split; try reflexivity. discriminate. Qed.

(** The two separator rewrites are not idempotent on their own either. *)
Lemma separator_rewrites_not_idempotent :
  removeTrailingSeparators (removeTrailingSeparators (js "[1, ,]"))
  <> removeTrailingSeparators (js "[1, ,]")
  /\ insertMissingSeparators (insertMissingSeparators (js "}'a}':x':"))
     <> insertMissingSeparators (js "}'a}':x':").
Proof. vm_compute. split; discriminate. Qed.

(** Without a backslash in the text the two counts agree: the source and
    the specification differ on escaped quotes only. *)
Lemma countUnescapedQuotes_no_backslash (s : text) :
  ~ In Ch.backslash s -> countUnescapedQuotes s = countQuotes s.
Proof.
  unfold countUnescapedQuotes, countQuotes.
  induction s as [|c r IH]; intros Hn; [reflexivity|].
  cbn [countUnescapedQuotes_from count_occ].
  destruct (N.eqb_spec c Ch.backslash) as [->|_].
  { exfalso. apply Hn. left. reflexivity. }
  assert (Hr : ~ In Ch.backslash r) by (intros H; apply Hn; right; exact H).
  rewrite (IH Hr).
  destruct (N.eq_dec c Ch.quote) as [E|E].
  - rewrite (proj2 (N.eqb_eq _ _) E). reflexivity.
  - rewrite (proj2 (N.eqb_neq _ _) E). reflexivity.
Qed.

(** C3: the source counts every quote character, escaped or not.  On this
    text (a trailing comma makes the direct parse fail) the trailing comma is
    removed, which leaves valid JSON with four unescaped quotes and one
    escaped quote; the specification's count is even and appends nothing,
    the source's count is five and appends a quote, which makes the repaired
    text unparsable, and [fixJsonString] ends in the empty envelope. *)
Theorem C3_quote_parity_counts_escaped_quotes :
  let x := js "{'a': 'x\'y',}" in
  let t := removeTrailingSeparators (normalizeControls (boundaryTrim x)) in
  JSON_parse x = SyntaxError
  /\ t = js "{'a': 'x\'y'}"
  /\ JSON_parse t = Value (JObject [(js "a", JString (js "x'y"))])
  /\ countUnescapedQuotes t = 4%nat
  /\ countQuotes t = 5%nat
  /\ quoteParityRepair_spec t = t
  /\ quoteParityRepair t = t ++ [Ch.quote]
  /\ simpleJsonRepair x = js "{'a': 'x\'y'}'"
  /\ JSON_parse (simpleJsonRepair x) = SyntaxError
  /\ fixJsonString x = emptyEnvelope
  /\ generateAutotests_decode x
     = Return (JObject [(js "test_files", JArray [])]).
Proof. vm_compute. repeat split; reflexivity. Qed.

(** ** The Envelope Fallback *)

Lemma extremeJsonFallback_test_files_first (jsonStr m : text) :
  regexMatch (keyArrayAt (js "test_files")) jsonStr = Some m ->
  extremeJsonFallback jsonStr = js "{'test_files': " ++ m ++ js "}".
Proof. unfold extremeJsonFallback. intros ->. reflexivity. Qed.

Lemma extremeJsonFallback_test_cases_second (jsonStr m : text) :
  regexMatch (keyArrayAt (js "test_files")) jsonStr = None ->
  regexMatch (keyArrayAt (js "test_cases")) jsonStr = Some m ->
  extremeJsonFallback jsonStr = js "{'test_cases': " ++ m ++ js "}".
Proof. unfold extremeJsonFallback. intros -> ->. reflexivity. Qed.

Lemma extremeJsonFallback_default (jsonStr : text) :
  regexMatch (keyArrayAt (js "test_files")) jsonStr = None ->
  regexMatch (keyArrayAt (js "test_cases")) jsonStr = None ->
  extremeJsonFallback jsonStr = emptyEnvelope.
Proof. unfold extremeJsonFallback. intros -> ->. reflexivity. Qed.

(** The empty envelope decodes to an object whose only key is [test_files];
    the caller of the test-case path finds no [test_cases] in it. *)
Lemma emptyEnvelope_decoded :
  JSON_parse emptyEnvelope = Value (JObject [(js "test_files", JArray [])])
  /\ getProperty (JObject [(js "test_files", JArray [])]) (js "test_cases")
     = Return None.
Proof. vm_compute. split; reflexivity. Qed.

(** The test-case path ending in the fallback: the decoded envelope has no
    [test_cases], and the caller throws its own format error. *)
Example generateTestCases_fallback_default :
  fixJsonString (js "{ 'test_cases': {'id': 1} {'id': 2} }") = emptyEnvelope
  /\ generateTestCases_decode (js "[{'id': 1} {'id': 2}]")
     = Throw BadTestCases.
Proof. vm_compute. split; reflexivity. Qed.

(** The only way for the caller's second [JSON.parse] to throw: the fallback
    was reached and one of the two key patterns matched. *)
Lemma repair_and_parse_failure (jsonStr : text) :
  repair_and_parse jsonStr = SyntaxError ->
  fixJsonString jsonStr = extremeJsonFallback jsonStr
  /\ (regexMatch (keyArrayAt (js "test_files")) jsonStr <> None
      \/ regexMatch (keyArrayAt (js "test_cases")) jsonStr <> None).
Proof.
  unfold repair_and_parse, fixJsonString. intros H.
  destruct (parses (simpleJsonRepair jsonStr)) eqn:P1.
  { apply parses_true_Value in P1. destruct P1 as [v Hv]. congruence. }
  destruct (firstParsing (extractJsonCandidates jsonStr)) as [c|] eqn:F.
  { apply firstParsing_Some in F. destruct F as (l1 & l2 & _ & _ & P).
    apply parses_true_Value in P. destruct P as [v Hv]. congruence. }
  split; [reflexivity|].
  destruct (regexMatch (keyArrayAt (js "test_files")) jsonStr) eqn:M1;
    [left; discriminate|].
  destruct (regexMatch (keyArrayAt (js "test_cases")) jsonStr) eqn:M2;
    [right; discriminate|].
  rewrite (extremeJsonFallback_default _ M1 M2) in H.
  rewrite (proj1 emptyEnvelope_decoded) in H. discriminate.
Qed.

(** *** Every envelope built from a matched key is malformed *)

Lemma regexMatch_Some (m : text -> option nat) (s x : text) :
  regexMatch m s = Some x ->
  exists pre s' n, s = pre ++ s' /\ m s' = Some n /\ x = firstn n s'.
Proof.
  induction s as [|c r IH]; simpl; intros H.
  - destruct (m []) as [n|] eqn:E; [|discriminate].
    inversion H; subst. exists [], [], n. auto.
  - destruct (m (c :: r)) as [n|] eqn:E.
    + inversion H; subst. exists [], (c :: r), n. auto.
    + destruct (IH H) as (pre & s' & n & Es & Em & Ex).
      exists (c :: pre), s', n. subst. auto.
Qed.

Lemma stripPrefixCI_Some (p s r : text) :
  stripPrefixCI p s = Some r ->
  exists k, s = k ++ r /\ Forall2 sameCI p k.
Proof.
  revert s. induction p as [|x p IH]; intros s H; simpl in H.
  - inversion H; subst. exists []. split; [reflexivity|constructor].
  - destruct s as [|y s']; [discriminate|].
    destruct (N.eqb_spec (canonicalize x) (canonicalize y)) as [E|_];
      [|discriminate].
    destruct (IH _ H) as (k & -> & F). exists (y :: k).
    split; [reflexivity|constructor; assumption].
Qed.

Lemma spanSpace_spec (s w t : text) :
  spanSpace s = (w, t) ->
  s = w ++ t /\ Forall (fun c => is_space c = true) w.
Proof.
  revert w t. induction s as [|c r IH]; simpl; intros w t H.
  - inversion H; subst. split; [reflexivity|constructor].
  - destruct (is_space c) eqn:E.
    + destruct (spanSpace r) as [w' t'] eqn:Er. inversion H; subst.
      destruct (IH _ _ eq_refl) as [-> F]. split; [reflexivity|].
      constructor; assumption.
    + inversion H; subst. split; [reflexivity|constructor].
Qed.

Lemma sameCI_quote (c : char) : sameCI Ch.quote c -> c = Ch.quote.
Proof.
  unfold sameCI, canonicalize. change (canonicalize Ch.quote) with 34%N.
  simpl. destruct ((97 <=? c) && (c <=? 122))%N eqn:E; intros H.
  - apply andb_prop in E. destruct E as [E1 E2].
    apply N.leb_le in E1. unfold Ch.quote in *. lia.
  - symmetry. exact H.
Qed.

(** The shape of a match of a key pattern: the quoted key in some case,
    white space, a colon, and the rest. *)
Lemma keyArrayAt_shape (key s : text) (n : nat) :
  keyArrayAt key s = Some n ->
  exists k w1 tail,
    firstn n s = Ch.quote :: k ++ Ch.quote :: w1 ++ Ch.colon :: tail
    /\ Forall2 sameCI key k
    /\ Forall (fun c => is_space c = true) w1.
Proof.
  unfold keyArrayAt. intros H.
  destruct (stripPrefixCI (Ch.quote :: key ++ [Ch.quote]) s) as [r1|] eqn:E1;
    [|discriminate].
  apply stripPrefixCI_Some in E1. destruct E1 as (k0 & Es & F0).
  inversion F0 as [|q0 q1 p0 k1 Hq F1 Eq0 Eq1]; subst.
  apply sameCI_quote in Hq. subst q1.
  apply Forall2_app_inv_l in F1. destruct F1 as (k & kq & Fk & Fq & ->).
  inversion Fq as [|q0 q2 p0 k2 Hq2 F2 Eq0 Eq1]; subst.
  inversion F2; subst. apply sameCI_quote in Hq2. subst q2.
  destruct (spanSpace r1) as [w1 r2] eqn:E2.
  apply spanSpace_spec in E2. destruct E2 as [-> Fw1].
  destruct r2 as [|c r3]; [discriminate|].
  destruct (N.eqb_spec c Ch.colon) as [->|_]; [|discriminate].
  destruct (spanSpace r3) as [w2 r4] eqn:E3.
  destruct r4 as [|b r5]; [discriminate|].
  destruct (b =? Ch.lbracket)%N; [|discriminate].
  destruct (lazyUntil Ch.rbracket r5) as [n'|]; [|discriminate].
  inversion H; subst n. clear H.
  exists k, w1, (firstn (length w2 + 1 + n') r3). split; [|split; assumption].
  pose proof (Forall2_length Fk) as Lk.
  assert (Es : (Ch.quote :: k ++ [Ch.quote]) ++ w1 ++ Ch.colon :: r3
               = (Ch.quote :: k ++ Ch.quote :: w1 ++ [Ch.colon]) ++ r3).
  { repeat (cbn [app]; rewrite <- ?app_assoc). reflexivity. }
  assert (En : (length key + 2 + length w1 + 1 + length w2 + 1 + n')%nat
               = (length (Ch.quote :: k ++ Ch.quote :: w1 ++ [Ch.colon])
                  + (length w2 + 1 + n'))%nat).
  { cbn [length]. rewrite length_app. cbn [length]. rewrite length_app.
    cbn [length]. lia. }
  rewrite Es, En, firstn_app_2.
  repeat (cbn [app]; rewrite <- ?app_assoc). reflexivity.
Qed.

Lemma lexString_plain (k rest : text) :
  Forall (fun c => plain c = true) k ->
  lexString (k ++ Ch.quote :: rest) = Some (k, rest).
Proof.
  induction 1 as [|c k Hc F IH]; cbn [app lexString].
  - change (Ch.quote =? Ch.quote)%N with true. reflexivity.
  - unfold plain in Hc.
    apply andb_prop in Hc. destruct Hc as [Hc H3].
    apply andb_prop in Hc. destruct Hc as [H1 H2].
    apply negb_true_iff in H1, H2, H3. rewrite H1, H2, H3, IH. reflexivity.
Qed.

Lemma sameCI_plain (key k : text) :
  Forall (fun p => keyChar p = true) key ->
  Forall2 sameCI key k ->
  Forall (fun c => plain c = true) k.
Proof.
  intros Fk F2. induction F2 as [|p c key k Hpc F2 IH]; [constructor|].
  inversion Fk as [|p0 key0 Hp Fk']; subst. constructor; [|apply IH, Fk'].
  unfold keyChar in Hp. unfold sameCI in Hpc. rewrite Hpc in Hp.
  unfold plain, canonicalize in *. unfold Ch.quote, Ch.backslash.
  destruct ((97 <=? c) && (c <=? 122))%N eqn:E.
  - apply andb_prop in E. destruct E as [E1 E2].
    apply N.leb_le in E1. apply N.leb_le in E2.
    destruct (N.eqb_spec c 34); [lia|].
    destruct (N.eqb_spec c 92); [lia|].
    destruct (N.ltb_spec c 32); [lia|]. reflexivity.
  - apply orb_prop in Hp. destruct Hp as [Hp|Hp].
    + apply andb_prop in Hp. destruct Hp as [E1 E2].
      apply N.leb_le in E1. apply N.leb_le in E2.
      destruct (N.eqb_spec c 34); [lia|].
      destruct (N.eqb_spec c 92); [lia|].
      destruct (N.ltb_spec c 32); [lia|]. reflexivity.
    + apply N.eqb_eq in Hp. rewrite Hp. reflexivity.
Qed.

Lemma skipWs_spaces_colon (w rest : text) :
  Forall (fun c => is_space c = true) w ->
  exists d r, skipWs (w ++ Ch.colon :: rest) = d :: r
              /\ (d =? Ch.comma)%N = false /\ (d =? Ch.rbrace)%N = false.
Proof.
  induction 1 as [|c w Hc F IH]; cbn [app skipWs].
  - change (is_json_ws Ch.colon) with false. cbv iota.
    exists Ch.colon, rest. repeat split; reflexivity.
  - destruct (is_json_ws c); [exact IH|].
    exists c, (w ++ Ch.colon :: rest). split; [reflexivity|].
    split.
    + destruct (N.eqb_spec c Ch.comma) as [->|_]; [discriminate Hc|reflexivity].
    + destruct (N.eqb_spec c Ch.rbrace) as [->|_]; [discriminate Hc|reflexivity].
Qed.

(** An object text whose first member has a quoted key in the place of its
    value: a colon (or white space unknown to JSON) comes where a comma or a
    closing brace must. *)
Lemma JSON_parse_key_for_value (key1 k w1 tail : text) :
  Forall (fun c => plain c = true) key1 ->
  Forall (fun c => plain c = true) k ->
  Forall (fun c => is_space c = true) w1 ->
  JSON_parse (Ch.lbrace :: Ch.quote :: key1 ++ Ch.quote :: Ch.colon :: Ch.space
                :: Ch.quote :: k ++ Ch.quote :: w1 ++ Ch.colon :: tail)
  = SyntaxError.
Proof.
  intros F1 Fk Fw. unfold JSON_parse.
  set (T := Ch.lbrace :: _).
  assert (Hf : exists f, parseFuel T = S (S (S f))).
  { exists (2 * length T - 2)%nat. unfold parseFuel, T. cbn [length]. lia. }
  destruct Hf as [f ->]. unfold T.
  assert (EV : forall f' r, parseValue (S f') (Ch.lbrace :: Ch.quote :: r)
                            = parseMembers f' (Ch.quote :: r) [])
    by reflexivity.
  assert (EM : forall f' r acc,
             parseMembers (S f') (Ch.quote :: r) acc
             = match lexString r with
               | Some (key, r1) =>
                   match skipWs r1 with
                   | c :: r2 =>
                       if (c =? Ch.colon)%N then
                         match parseValue f' r2 with
                         | POk v r3 =>
                             match skipWs r3 with
                             | d :: r4 =>
                                 if (d =? Ch.comma)%N then
                                   parseMembers f' r4 ((key, v) :: acc)
                                 else if (d =? Ch.rbrace)%N then
                                   POk (JObject (rev ((key, v) :: acc))) r4
                                 else PFail
                             | [] => PFail
                             end
                         | PFail => PFail
                         | PFuel => PFuel
                         end
                       else PFail
                   | [] => PFail
                   end
               | None => PFail
               end) by reflexivity.
  assert (ES : forall f' r,
             parseValue (S f') (Ch.space :: Ch.quote :: r)
             = match lexString r with
               | Some (str, r') => POk (JString str) r'
               | None => PFail
               end) by reflexivity.
  rewrite EV, EM, (lexString_plain key1 _ F1).
  change (skipWs (Ch.colon :: ?r)) with (Ch.colon :: r).
  change (Ch.colon =? Ch.colon)%N with true. cbv iota.
  rewrite ES, (lexString_plain k _ Fk).
  destruct (skipWs_spaces_colon w1 tail Fw) as (d & r & -> & -> & ->).
  reflexivity.
Qed.

Lemma knownKeys_plain :
  Forall (fun c => plain c = true) (js "test_files")
  /\ Forall (fun c => plain c = true) (js "test_cases")
  /\ Forall (fun p => keyChar p = true) (js "test_files")
  /\ Forall (fun p => keyChar p = true) (js "test_cases").
Proof. repeat split; repeat constructor. Qed.

(** Whenever the fallback matches one of its two keys, the text it returns
    is not JSON: the caller's [JSON.parse] throws. *)
Lemma extremeJsonFallback_match_malformed (jsonStr : text) :
  regexMatch (keyArrayAt (js "test_files")) jsonStr <> None
  \/ regexMatch (keyArrayAt (js "test_cases")) jsonStr <> None ->
  JSON_parse (extremeJsonFallback jsonStr) = SyntaxError.
Proof.
  destruct knownKeys_plain as (P1 & P2 & K1 & K2).
  intros H. unfold extremeJsonFallback.
  destruct (regexMatch (keyArrayAt (js "test_files")) jsonStr) as [m|] eqn:M1.
  - apply regexMatch_Some in M1. destruct M1 as (pre & s' & n & _ & Em & ->).
    apply keyArrayAt_shape in Em. destruct Em as (k & w1 & tail & -> & Fk & Fw).
    pose proof (JSON_parse_key_for_value (js "test_files") k w1
                  (tail ++ js "}") P1 (sameCI_plain _ _ K1 Fk) Fw) as R.
    rewrite <- R. f_equal. simpl. do 16 f_equal.
    rewrite <- !app_assoc. simpl. rewrite <- app_assoc. reflexivity.
  - destruct (regexMatch (keyArrayAt (js "test_cases")) jsonStr) as [m|] eqn:M2.
    + apply regexMatch_Some in M2.
      destruct M2 as (pre & s' & n & _ & Em & ->).
      apply keyArrayAt_shape in Em.
      destruct Em as (k & w1 & tail & -> & Fk & Fw).
      pose proof (JSON_parse_key_for_value (js "test_cases") k w1
                    (tail ++ js "}") P2 (sameCI_plain _ _ K2 Fk) Fw) as R.
      rewrite <- R. f_equal. simpl. do 16 f_equal.
      rewrite <- !app_assoc. simpl. rewrite <- app_assoc. reflexivity.
    + destruct H as [H|H]; contradiction.
Qed.

(** X6: the caller's second [JSON.parse] throws exactly when the fallback is
    reached and one of its key patterns matches. *)
Lemma repair_and_parse_throws_iff (jsonStr : text) :
  repair_and_parse jsonStr = SyntaxError <->
  parses (simpleJsonRepair jsonStr) = false
  /\ firstParsing (extractJsonCandidates jsonStr) = None
  /\ (regexMatch (keyArrayAt (js "test_files")) jsonStr <> None
      \/ regexMatch (keyArrayAt (js "test_cases")) jsonStr <> None).
Proof.
  split.
  - intros H. pose proof (repair_and_parse_failure _ H) as [_ K].
    unfold repair_and_parse, fixJsonString in H.
    destruct (parses (simpleJsonRepair jsonStr)) eqn:P1.
    { apply parses_true_Value in P1. destruct P1 as [v Hv]. congruence. }
    destruct (firstParsing (extractJsonCandidates jsonStr)) as [c|] eqn:F.
    { apply firstParsing_Some in F. destruct F as (l1 & l2 & _ & _ & P).
      apply parses_true_Value in P. destruct P as [v Hv]. congruence. }
    auto.
  - intros (P1 & F & K). unfold repair_and_parse, fixJsonString.
    rewrite P1, F. apply extremeJsonFallback_match_malformed. exact K.
Qed.

(** The empty text ends in the empty envelope, which parses. *)
Lemma repair_and_parse_empty_text :
  fixJsonString [] = emptyEnvelope
  /\ repair_and_parse [] = Value (JObject [(js "test_files", JArray [])]).
Proof. vm_compute. split; reflexivity. Qed.

(** C1: the envelope built by the fallback repeats the matched key (the
    whole match is spliced after the key of the template), so the text it
    returns is not JSON and the caller's [JSON.parse] throws; the envelope
    the specification describes would have parsed. *)
Theorem C1_fallback_envelope_does_not_parse :
  let raw := js "{'test_files': [1] oops}" in
  regexMatch objectLazyAt (trim raw) = Some raw
  /\ JSON_parse raw = SyntaxError
  /\ parses (simpleJsonRepair raw) = false
  /\ extractJsonCandidates raw = [raw]
  /\ fixJsonString raw = js "{'test_files': 'test_files': [1]}"
  /\ repair_and_parse raw = SyntaxError
  /\ generateAutotests_decode raw = Throw ParseError
  /\ JSON_parse (js "{'test_files': [1]}")
     = Value (JObject [(js "test_files", JArray [JNumber (js "1")])]).
Proof. vm_compute. repeat split; reflexivity. Qed.

(** C9: with both key patterns present the [test_files] template is the one
    used, whatever the order of the keys in the text; but the text it
    produces repeats the key and is not a JSON object at all. *)
Theorem C9_fallback_envelope_repeats_key :
  let x := js "{'test_cases': [2], 'test_files': [1] oops}" in
  regexMatch (keyArrayAt (js "test_files")) x = Some (js "'test_files': [1]")
  /\ regexMatch (keyArrayAt (js "test_cases")) x = Some (js "'test_cases': [2]")
  /\ fixJsonString x = extremeJsonFallback x
  /\ extremeJsonFallback x = js "{'test_files': 'test_files': [1]}"
  /\ JSON_parse (extremeJsonFallback x) = SyntaxError
  /\ JSON_parse (js "{'test_files': [1]}")
     = Value (JObject [(js "test_files", JArray [JNumber (js "1")])]).
Proof. vm_compute. repeat split; reflexivity. Qed.

(** ** The two call sites on valid text *)

Lemma regexMatch_arrayGreedy_whole (mid : text) :
  regexMatch arrayGreedyAt (Ch.lbracket :: mid ++ [Ch.rbracket])
  = Some (Ch.lbracket :: mid ++ [Ch.rbracket]).
Proof.
  unfold regexMatch, arrayGreedyAt.
  change (Ch.lbracket =? Ch.lbracket)%N with true. cbv iota.
  unfold lastIndexOf. rewrite lastIndexOf_from_last.
  destruct (Z.eqb_spec (0 + Z.of_nat (length mid)) (-1)); [lia|].
  replace (S (Z.to_nat (0 + Z.of_nat (length mid)) + 1))
    with (length (Ch.lbracket :: mid ++ [Ch.rbracket]))
    by (simpl length; rewrite length_app; simpl; lia).
  rewrite firstn_all. reflexivity.
Qed.

(** X9: the test-case path on a response that is a valid array from its first
    to its last character: the greedy pattern takes the whole text, the
    direct parse succeeds, and its value is returned with no repair. *)
Lemma generateTestCases_direct (response mid : text) (items : list json) :
  trim response = Ch.lbracket :: mid ++ [Ch.rbracket] ->
  JSON_parse (trim response) = Value (JArray items) ->
  generateTestCases_decode response = Return (JArray items).
Proof.
  intros E P. unfold generateTestCases_decode.
  rewrite E, regexMatch_arrayGreedy_whole, <- E, P. reflexivity.
Qed.

(** C5: on the autotest path the lazy pattern stops at the first closing
    brace.  This response is valid JSON; the extracted text is cut inside
    it, nothing can be repaired or located, and the decoded value is the
    empty envelope instead of the value of the text.  (On the test-case path
    the greedy pattern keeps the whole array: [generateTestCases_direct].) *)
Theorem C5_autotest_path_cuts_valid_object :
  let raw := js "{'test_files': [{'filename': 'a'}]}" in
  JSON_parse raw
  = Value (JObject [(js "test_files",
                     JArray [JObject [(js "filename", JString (js "a"))]])])
  /\ regexMatch objectLazyAt (trim raw)
     = Some (js "{'test_files': [{'filename': 'a'}")
  /\ fixJsonString (js "{'test_files': [{'filename': 'a'}") = emptyEnvelope
  /\ generateAutotests_decode raw
     = Return (JObject [(js "test_files", JArray [])])
  /\ generateTestCases_decode (js "[{'id': 'TC-1'}]")
     = Return (JArray [JObject [(js "id", JString (js "TC-1"))]]).
Proof. vm_compute. repeat split; reflexivity. Qed.

(** C10: the separator rewrites run over the whole text with no regard for
    string literals.  A comma followed by white space and a closing bracket
    inside a literal is deleted; a closing brace that is the content of a
    literal, followed by the quotes of the next literal and a colon, gets a
    comma added to it.  Both texts are valid JSON before and after, with a
    different value. *)
Theorem C10_separator_rewrites_alter_string_literals :
  (exists s : text,
      JSON_parse s = Value (JObject [(js "a", JString (js "x, ]"))])
      /\ simpleJsonRepair s <> s
      /\ JSON_parse (simpleJsonRepair s)
         = Value (JObject [(js "a", JString (js "x ]"))]))
  /\ (exists s : text,
         JSON_parse s = Value (JArray [JString (js "}"); JString (js ":")])
         /\ simpleJsonRepair s <> s
         /\ JSON_parse (simpleJsonRepair s)
            = Value (JArray [JString (js "},"); JString (js ":")])).
Proof.
  split.
  - exists (js "{'a': 'x, ]'}"). vm_compute.
    repeat split; try reflexivity. discriminate.
  - exists (js "['}',':']"). vm_compute.
    repeat split; try reflexivity. discriminate.
Qed.

(** * Further properties of the services *)

(** ** Global rewrites *)

Lemma firstn_length_app {A} (a b : list A) : firstn (length a) (a ++ b) = a.
Proof.
  induction a as [|x a IH]; simpl; [destruct b; reflexivity|].
  rewrite IH. reflexivity.
Qed.

Lemma replaceAll_go_skip (m : text -> option (nat * text)) (k : nat) (s : text) :
  replaceAll_go m k s = replaceAll_go m 0 (skipn k s).
Proof.
  revert k. induction s as [|c r IH]; intros k.
  - destruct k; reflexivity.
  - destruct k as [|k]; [reflexivity|]. cbn [replaceAll_go skipn]. apply IH.
Qed.

Lemma replaceAll_cons (m : text -> option (nat * text)) (c : char) (r : text) :
  replaceAll m (c :: r)
  = match m (c :: r) with
    | Some (n, rep) => rep ++ replaceAll m (skipn (Nat.pred n) r)
    | None => c :: replaceAll m r
    end.
Proof.
  unfold replaceAll. cbn [replaceAll_go].
  destruct (m (c :: r)) as [[n rep]|]; [|reflexivity].
  rewrite replaceAll_go_skip. reflexivity.
Qed.

(** A character filter that every single replacement respects is respected
    by the whole rewrite. *)
Lemma replaceAll_filter (m : text -> option (nat * text)) (p : char -> bool) :
  (forall s n rep, m s = Some (n, rep) ->
     (1 <= n)%nat /\ filter p rep = filter p (firstn n s)) ->
  forall s, filter p (replaceAll m s) = filter p s.
Proof.
  intros Hm s.
  induction s as [s IH] using (well_founded_induction
    (Wf_nat.well_founded_ltof _ (@length char))).
  unfold Wf_nat.ltof in IH.
  destruct s as [|c r]; [reflexivity|].
  rewrite replaceAll_cons.
  destruct (m (c :: r)) as [[n rep]|] eqn:E.
  - destruct (Hm _ _ _ E) as [Hn Hf].
    rewrite filter_app, Hf, IH.
    + rewrite <- filter_app. f_equal.
      destruct n as [|n]; [lia|]. cbn [Nat.pred firstn].
      cbn [app]. f_equal. apply firstn_skipn.
    + rewrite length_skipn. simpl. lia.
  - cbn [filter]. rewrite IH by (simpl; lia). reflexivity.
Qed.

Lemma replaceAll_Forall (m : text -> option (nat * text)) (P : char -> Prop) :
  (forall s n rep, m s = Some (n, rep) -> Forall P rep) ->
  forall s, Forall P s -> Forall P (replaceAll m s).
Proof.
  intros Hm s.
  induction s as [s IH] using (well_founded_induction
    (Wf_nat.well_founded_ltof _ (@length char))).
  unfold Wf_nat.ltof in IH. intros F.
  destruct s as [|c r]; [constructor|].
  rewrite replaceAll_cons. inversion F as [|c0 r0 Hc Fr]; subst.
  destruct (m (c :: r)) as [[n rep]|] eqn:E.
  - apply Forall_app. split; [exact (Hm _ _ _ E)|].
    apply IH.
    + rewrite length_skipn. simpl. lia.
    + rewrite <- (firstn_skipn (Nat.pred n) r) in Fr.
      apply Forall_app in Fr. exact (proj2 Fr).
  - constructor; [exact Hc|]. apply IH; [simpl; lia|exact Fr].
Qed.

(** Where the pattern matches at no position, nothing is rewritten. *)
Lemma replaceAll_no_match (m : text -> option (nat * text)) (s : text) :
  (forall pre t, s = pre ++ t -> m t = None) -> replaceAll m s = s.
Proof.
  induction s as [|c r IH]; intros H; [reflexivity|].
  rewrite replaceAll_cons, (H [] (c :: r) eq_refl). f_equal.
  apply IH. intros pre t E. apply (H (c :: pre)). rewrite E. reflexivity.
Qed.

Lemma spanNonQuote_spec (s k t : text) :
  spanNonQuote s = (k, t) -> s = k ++ t.
Proof.
  revert k t. induction s as [|c r IH]; simpl; intros k t H.
  - inversion H; subst. reflexivity.
  - destruct (c =? Ch.quote)%N.
    + inversion H; subst. reflexivity.
    + destruct (spanNonQuote r) as [k' t'] eqn:E. inversion H; subst.
      rewrite (IH _ _ eq_refl). reflexivity.
Qed.


(** A match of a missing-separator pattern: a comma comes after the closing
    delimiter, the match itself stays. *)
Lemma missingSepAt_Some (close : char) (s : text) (n : nat) (rep : text) :
  missingSepAt close s = Some (n, rep) ->
  (1 <= n)%nat
  /\ exists tail, firstn n s = close :: tail /\ rep = close :: Ch.comma :: tail.
Proof.
  unfold missingSepAt. intros H.
  destruct s as [|c r]; [discriminate|].
  destruct (N.eqb_spec c close) as [->|_]; [|discriminate].
  destruct (spanSpace r) as [w t] eqn:E.
  apply spanSpace_spec in E. destruct E as [-> _].
  destruct t as [|q t1]; [discriminate|].
  destruct (N.eqb_spec q Ch.quote) as [->|_]; [|discriminate].
  destruct (spanNonQuote t1) as [k t2] eqn:E2.
  apply spanNonQuote_spec in E2. subst t1.
  destruct k as [|k0 k]; [discriminate|].
  destruct t2 as [|q2 [|c2 t3]]; try discriminate.
  destruct (N.eqb_spec q2 Ch.quote) as [->|_]; [|discriminate].
  destruct (N.eqb_spec c2 Ch.colon) as [->|_]; [|discriminate].
  cbn [andb] in H. inversion H; subst. split; [lia|].
  exists (w ++ Ch.quote :: (k0 :: k) ++ [Ch.quote; Ch.colon]).
  split; [|reflexivity].
  cbn [firstn]. f_equal.
  assert (E : w ++ Ch.quote :: (k0 :: k) ++ Ch.quote :: Ch.colon :: t3
              = (w ++ Ch.quote :: (k0 :: k) ++ [Ch.quote; Ch.colon]) ++ t3)
    by (repeat (cbn [app]; rewrite <- ?app_assoc); reflexivity).
  assert (L : (length w + 1 + S (length k) + 2)%nat
              = length (w ++ Ch.quote :: (k0 :: k) ++ [Ch.quote; Ch.colon]))
    by (rewrite length_app; cbn [length app]; rewrite length_app;
        cbn [length]; lia).
  rewrite E, L. apply firstn_length_app.
Qed.


(** ** What [simpleJsonRepair] leaves alone *)

Lemma isInfix_refl (s : text) : isInfix s s.
Proof. exists [], []. rewrite app_nil_r. reflexivity. Qed.


Lemma substring_isInfix (s : text) (a b : Z) : isInfix (substring s a b) s.
Proof.
  unfold substring.
  match goal with
  | |- isInfix (firstn ?n (skipn ?lo s)) s =>
      exists (firstn lo s), (skipn n (skipn lo s))
  end.
  rewrite firstn_skipn, firstn_skipn. reflexivity.
Qed.







Lemma countQuotes_filter (s : text) :
  countQuotes s = length (filter (fun c => (c =? Ch.quote)%N) s).
Proof.
  unfold countQuotes. induction s as [|c r IH]; [reflexivity|].
  cbn [count_occ filter].
  destruct (N.eq_dec c Ch.quote) as [E|E].
  - rewrite (proj2 (N.eqb_eq _ _) E). simpl. rewrite IH. reflexivity.
  - rewrite (proj2 (N.eqb_neq _ _) E). exact IH.
Qed.

(** X2: the repaired text always holds an even number of quote characters. *)
Theorem simpleJsonRepair_even_quotes (s : text) :
  Nat.even (countQuotes (simpleJsonRepair s)) = true.
Proof.
  unfold simpleJsonRepair, insertMissingSeparators.
  set (y := quoteParityRepair _).
  assert (Hmiss : forall close x,
             countQuotes (replaceAll (missingSepAt close) x) = countQuotes x).
  { intros close x. rewrite !countQuotes_filter. f_equal.
    apply replaceAll_filter. intros t n rep E.
    apply missingSepAt_Some in E. destruct E as (Hn & tail & -> & ->).
    split; [exact Hn|]. reflexivity. }
  rewrite !Hmiss. unfold y.
  pose proof (quoteParityRepair_even
                (removeTrailingSeparators
                   (normalizeControls (boundaryTrim s)))) as E.
  apply Nat.even_spec.
  set (q := countQuotes _) in *.
  exists (q / 2)%nat. pose proof (Nat.div_mod_eq q 2). lia.
Qed.

(** ** The located spans are parts of the text *)

Lemma scanStep_infix (jsonStr : text) (st : ScanState) (i : Z) (c : char) :
  Forall (fun x => isInfix x jsonStr) (candidates st) ->
  Forall (fun x => isInfix x jsonStr) (candidates (scanStep jsonStr st i c)).
Proof.
  intros F. unfold scanStep.
  repeat match goal with
  | |- context [if ?b then _ else _] => destruct b
  end; cbn [candidates]; try exact F.
  apply Forall_app. split; [exact F|].
  constructor; [apply substring_isInfix|constructor].
Qed.

Lemma scanFrom_infix (jsonStr : text) (rest : text) :
  forall i st,
    Forall (fun x => isInfix x jsonStr) (candidates st) ->
    Forall (fun x => isInfix x jsonStr)
      (candidates (scanFrom jsonStr i rest st)).
Proof.
  induction rest as [|c r IH]; intros i st F; [exact F|].
  cbn [scanFrom]. apply IH. apply scanStep_infix. exact F.
Qed.

(** X4: every candidate is a contiguous part of the text it was located in,
    copied verbatim; what [fixJsonString] returns is therefore the repaired
    whole text, a verbatim part of its input, or the fallback's envelope. *)
Theorem fixJsonString_result_origin (jsonStr : text) :
  Forall (fun c => isInfix c jsonStr) (extractJsonCandidates jsonStr)
  /\ (fixJsonString jsonStr = simpleJsonRepair jsonStr
      \/ (isInfix (fixJsonString jsonStr) jsonStr
          /\ braced (fixJsonString jsonStr))
      \/ fixJsonString jsonStr = extremeJsonFallback jsonStr).
Proof.
  assert (F : Forall (fun c => isInfix c jsonStr)
                (extractJsonCandidates jsonStr)).
  { eapply Permutation_Forall; [apply sortBy_perm|].
    apply scanFrom_infix. constructor. }
  split; [exact F|].
  unfold fixJsonString.
  destruct (parses (simpleJsonRepair jsonStr)); [left; reflexivity|].
  destruct (firstParsing (extractJsonCandidates jsonStr)) as [c|] eqn:E;
    [|right; right; reflexivity].
  right; left. apply firstParsing_Some in E.
  destruct E as (l1 & l2 & Es & _ & _).
  assert (B : Forall braced (extractJsonCandidates jsonStr)).
  { eapply Permutation_Forall; [apply sortBy_perm|].
    apply locatedSpans_braced. }
  rewrite Es in F, B.
  apply Forall_app in F. apply Forall_app in B.
  destruct F as [_ F]. destruct B as [_ B].
  inversion F; inversion B; subst. split; assumption.
Qed.

(** ** What the two call sites extract from the answer *)

Lemma lastIndexOf_from_spec (c : char) (s : text) :
  forall k found,
    (~ In c s /\ lastIndexOf_from k s c found = found)
    \/ (exists mid post,
           s = mid ++ c :: post /\ ~ In c post
           /\ lastIndexOf_from k s c found = k + Z.of_nat (length mid)).
Proof.
  induction s as [|x r IH]; intros k found; cbn [lastIndexOf_from].
  - left. split; [intros []|reflexivity].
  - destruct (IH (k + 1) (if (x =? c)%N then k else found))
      as [[Hn E]|(mid & post & -> & Hn & E)].
    + destruct (N.eqb_spec x c) as [->|Nx].
      * right. exists [], r. repeat split; [exact Hn|]. rewrite E. simpl. lia.
      * left. split; [|exact E]. intros [H|H]; [exact (Nx H)|exact (Hn H)].
    + right. exists (x :: mid), post. repeat split; [exact Hn|].
      rewrite E. cbn [length]. lia.
Qed.

Lemma lastIndexOf_notin (c : char) (s : text) :
  lastIndexOf s c = -1 <-> ~ In c s.
Proof.
  unfold lastIndexOf. split.
  - intros E. destruct (lastIndexOf_from_spec c s 0 (-1))
      as [[Hn _]|(mid & post & _ & _ & E')]; [exact Hn|]. lia.
  - intros Hn. destruct (lastIndexOf_from_spec c s 0 (-1))
      as [[_ E]|(mid & post & -> & _ & _)]; [exact E|].
    exfalso. apply Hn. apply in_or_app. right. left. reflexivity.
Qed.

Lemma lastIndexOf_split (c : char) (mid post : text) :
  ~ In c post -> lastIndexOf (mid ++ c :: post) c = Z.of_nat (length mid).
Proof.
  intros Hn. unfold lastIndexOf.
  destruct (lastIndexOf_from_spec c (mid ++ c :: post) 0 (-1))
    as [[H _]|(mid' & post' & E & Hn' & R)].
  { exfalso. apply H. apply in_or_app. right. left. reflexivity. }
  rewrite R. f_equal.
  assert (L : length mid = length mid' \/ (length mid < length mid')%nat
              \/ (length mid' < length mid)%nat) by lia.
  destruct L as [L|[L|L]]; [lia| |].
  - exfalso. apply Hn.
    assert (N : nth_error (mid ++ c :: post) (length mid') = Some c).
    { rewrite E, nth_error_app2, Nat.sub_diag by lia. reflexivity. }
    rewrite nth_error_app2 in N by lia.
    destruct (length mid' - length mid)%nat eqn:D; [lia|].
    simpl in N. eapply nth_error_In. exact N.
  - exfalso. apply Hn'.
    assert (N : nth_error (mid' ++ c :: post') (length mid) = Some c).
    { rewrite <- E, nth_error_app2, Nat.sub_diag by lia. reflexivity. }
    rewrite nth_error_app2 in N by lia.
    destruct (length mid - length mid')%nat eqn:D; [lia|].
    simpl in N. eapply nth_error_In. exact N.
Qed.

Lemma regexMatch_cons_None (m : text -> option nat) (c : char) (r : text) :
  m (c :: r) = None -> regexMatch m (c :: r) = regexMatch m r.
Proof. intros E. cbn [regexMatch]. rewrite E. reflexivity. Qed.

Lemma regexMatch_cons_Some (m : text -> option nat) (s : text) (n : nat) :
  m s = Some n -> regexMatch m s = Some (firstn n s).
Proof. intros E. destruct s; cbn [regexMatch]; rewrite E; reflexivity. Qed.

Lemma arrayGreedyAt_open (mid post : text) :
  ~ In Ch.rbracket post ->
  arrayGreedyAt (Ch.lbracket :: mid ++ Ch.rbracket :: post)
  = Some (length (Ch.lbracket :: mid ++ [Ch.rbracket])).
Proof.
  intros Hn. unfold arrayGreedyAt.
  change (Ch.lbracket =? Ch.lbracket)%N with true. cbv iota.
  rewrite (lastIndexOf_split _ _ _ Hn).
  destruct (Z.eqb_spec (Z.of_nat (length mid)) (-1)); [lia|].
  f_equal. cbn [length]. rewrite length_app. simpl. lia.
Qed.

(** X7: the greedy array pattern of the test-case path takes the text from
    its first opening bracket to its last closing bracket, and nothing
    else; it finds nothing exactly when no opening bracket is followed by a
    closing one. *)
Theorem arrayGreedy_extraction (s : text) :
  (forall m,
      regexMatch arrayGreedyAt s = Some m <->
      exists pre mid post,
        s = pre ++ m ++ post
        /\ m = Ch.lbracket :: mid ++ [Ch.rbracket]
        /\ ~ In Ch.lbracket pre /\ ~ In Ch.rbracket post)
  /\ (regexMatch arrayGreedyAt s = None <->
      ~ exists pre mid post,
          s = pre ++ Ch.lbracket :: mid ++ Ch.rbracket :: post).
Proof.
  assert (Back : forall pre mid post,
             ~ In Ch.lbracket pre -> ~ In Ch.rbracket post ->
             regexMatch arrayGreedyAt
               (pre ++ (Ch.lbracket :: mid ++ [Ch.rbracket]) ++ post)
             = Some (Ch.lbracket :: mid ++ [Ch.rbracket])).
  { intros pre mid post Hpre Hpost. induction pre as [|x pre IH].
    - cbn [app]. rewrite <- app_assoc. cbn [app].
      rewrite (regexMatch_cons_Some _ _ _ (arrayGreedyAt_open mid post Hpost)).
      f_equal.
      change (Ch.lbracket :: mid ++ Ch.rbracket :: post)
        with ((Ch.lbracket :: mid) ++ Ch.rbracket :: post).
      replace ((Ch.lbracket :: mid) ++ Ch.rbracket :: post)
        with ((Ch.lbracket :: mid ++ [Ch.rbracket]) ++ post)
        by (cbn [app]; rewrite <- app_assoc; reflexivity).
      apply firstn_length_app.
    - cbn [app]. rewrite regexMatch_cons_None.
      + apply IH. intros H. apply Hpre. right. exact H.
      + unfold arrayGreedyAt.
        destruct (N.eqb_spec x Ch.lbracket) as [->|_]; [|reflexivity].
        exfalso. apply Hpre. left. reflexivity. }
  assert (Fwd : forall t m,
             regexMatch arrayGreedyAt t = Some m ->
             exists pre mid post,
               t = pre ++ m ++ post
               /\ m = Ch.lbracket :: mid ++ [Ch.rbracket]
               /\ ~ In Ch.lbracket pre /\ ~ In Ch.rbracket post).
  { intros t. induction t as [|c r IH]; intros m H.
    - cbn in H. discriminate.
    - destruct (arrayGreedyAt (c :: r)) as [n|] eqn:E.
      + rewrite (regexMatch_cons_Some _ _ _ E) in H. inversion H; subst m.
        unfold arrayGreedyAt in E.
        destruct (N.eqb_spec c Ch.lbracket) as [->|_]; [|discriminate].
        destruct (Z.eqb_spec (lastIndexOf r Ch.rbracket) (-1)) as [_|Nj];
          [discriminate|].
        inversion E; subst n. unfold lastIndexOf in *.
        destruct (lastIndexOf_from_spec Ch.rbracket r 0 (-1))
          as [[_ R]|(mid & post & -> & Hn & R)]; [contradiction|].
        exists [], mid, post. rewrite R.
        replace (S (Z.to_nat (0 + Z.of_nat (length mid)) + 1))
          with (length (Ch.lbracket :: mid ++ [Ch.rbracket]))
          by (cbn [length]; rewrite length_app; simpl; lia).
        replace (Ch.lbracket :: mid ++ Ch.rbracket :: post)
          with ((Ch.lbracket :: mid ++ [Ch.rbracket]) ++ post)
          by (cbn [app]; rewrite <- app_assoc; reflexivity).
        rewrite firstn_length_app. repeat split; auto.
      + rewrite (regexMatch_cons_None _ _ _ E) in H.
        destruct (IH _ H) as (pre & mid & post & -> & -> & Hpre & Hpost).
        exists (c :: pre), mid, post. repeat split; auto.
        intros [->|Hin]; [|exact (Hpre Hin)].
        unfold arrayGreedyAt in E.
        change (Ch.lbracket =? Ch.lbracket)%N with true in E. cbv iota in E.
        destruct (Z.eqb_spec (lastIndexOf
                                (pre ++ (Ch.lbracket :: mid ++ [Ch.rbracket])
                                   ++ post) Ch.rbracket) (-1)) as [Ej|_];
          [|discriminate].
        apply lastIndexOf_notin in Ej. apply Ej.
        apply in_or_app. right. apply in_or_app. left.
        right. apply in_or_app. right. left. reflexivity. }
  split.
  - intros m. split; [apply Fwd|].
    intros (pre & mid & post & -> & -> & Hpre & Hpost).
    apply Back; assumption.
  - split.
    + intros HN (pre & mid & post & E).
      assert (Some_ : forall pre0, regexMatch arrayGreedyAt
                (pre0 ++ Ch.lbracket :: mid ++ Ch.rbracket :: post) <> None).
      { induction pre0 as [|x pre0 IH].
        - cbn [app].
          destruct (arrayGreedyAt (Ch.lbracket :: mid ++ Ch.rbracket :: post))
            as [n|] eqn:En.
          + rewrite (regexMatch_cons_Some _ _ _ En). discriminate.
          + exfalso. unfold arrayGreedyAt in En.
            change (Ch.lbracket =? Ch.lbracket)%N with true in En.
            cbv iota in En.
            destruct (Z.eqb_spec (lastIndexOf (mid ++ Ch.rbracket :: post)
                                    Ch.rbracket) (-1)) as [Ej|_];
              [|discriminate].
            apply lastIndexOf_notin in Ej. apply Ej.
            apply in_or_app. right. left. reflexivity.
        - cbn [app].
          destruct (arrayGreedyAt
                      (x :: pre0 ++ Ch.lbracket :: mid ++ Ch.rbracket :: post))
            as [n|] eqn:En.
          + rewrite (regexMatch_cons_Some _ _ _ En). discriminate.
          + rewrite (regexMatch_cons_None _ _ _ En). exact IH. }
      apply (Some_ pre). rewrite <- E. exact HN.
    + intros HN. destruct (regexMatch arrayGreedyAt s) as [m|] eqn:E;
        [|reflexivity].
      exfalso. apply HN. apply Fwd in E.
      destruct E as (pre & mid & post & -> & -> & _ & _).
      exists pre, mid, post. cbn [app]. rewrite <- app_assoc. reflexivity.
Qed.

Lemma lazyUntil_spec (c : char) (s : text) :
  (forall n, lazyUntil c s = Some n ->
     exists body post,
       s = body ++ c :: post /\ ~ In c body /\ n = S (length body))
  /\ (lazyUntil c s = None -> ~ In c s).
Proof.
  induction s as [|x r [IHs IHn]]; cbn [lazyUntil].
  - split; [discriminate|]. intros _ [].
  - destruct (N.eqb_spec x c) as [->|Nx].
    + split; [|discriminate]. intros n E. inversion E; subst.
      exists [], r. repeat split. intros [].
    + destruct (lazyUntil c r) as [n'|].
      * split; [|discriminate]. intros n E. inversion E; subst.
        destruct (IHs _ eq_refl) as (body & post & -> & Hn & ->).
        exists (x :: body), post. repeat split.
        intros [H|H]; [exact (Nx H)|exact (Hn H)].
      * split; [discriminate|]. intros _ [H|H]; [exact (Nx H)|].
        exact (IHn eq_refl H).
Qed.

Lemma lazyUntil_split (c : char) (body post : text) :
  ~ In c body -> lazyUntil c (body ++ c :: post) = Some (S (length body)).
Proof.
  induction body as [|x body IH]; intros Hn; cbn [app lazyUntil length].
  - rewrite N.eqb_refl. reflexivity.
  - destruct (N.eqb_spec x c) as [->|_].
    + exfalso. apply Hn. left. reflexivity.
    + rewrite IH; [reflexivity|]. intros H. apply Hn. right. exact H.
Qed.

Lemma objectLazyAt_open (body post : text) :
  ~ In Ch.rbrace body ->
  objectLazyAt (Ch.lbrace :: body ++ Ch.rbrace :: post)
  = Some (length (Ch.lbrace :: body ++ [Ch.rbrace])).
Proof.
  intros Hn. unfold objectLazyAt.
  change (Ch.lbrace =? Ch.lbrace)%N with true. cbv iota.
  rewrite (lazyUntil_split _ _ _ Hn). f_equal.
  cbn [length]. rewrite length_app. simpl. lia.
Qed.

Lemma objectLazy_cut (body post : text) :
  (Ch.lbrace :: body ++ [Ch.rbrace]) ++ post
  = Ch.lbrace :: body ++ Ch.rbrace :: post.
Proof. cbn [app]. rewrite <- app_assoc. reflexivity. Qed.

Lemma objectLazy_back (pre body post : text) :
  ~ In Ch.lbrace pre -> ~ In Ch.rbrace body ->
  regexMatch objectLazyAt (pre ++ (Ch.lbrace :: body ++ [Ch.rbrace]) ++ post)
  = Some (Ch.lbrace :: body ++ [Ch.rbrace]).
Proof.
  intros Hpre Hbody. induction pre as [|x pre IH].
  - cbn [app]. rewrite <- app_assoc. cbn [app].
    rewrite (regexMatch_cons_Some _ _ _ (objectLazyAt_open body post Hbody)).
    f_equal. rewrite <- (objectLazy_cut body post). apply firstn_length_app.
  - cbn [app]. rewrite regexMatch_cons_None.
    + apply IH. intros H. apply Hpre. right. exact H.
    + unfold objectLazyAt.
      destruct (N.eqb_spec x Ch.lbrace) as [->|_]; [|reflexivity].
      exfalso. apply Hpre. left. reflexivity.
Qed.

(** X8: the lazy object pattern of the autotest path takes the text from its
    first opening brace to the first closing brace after it, so what it
    extracts never holds a closing brace before its last character; it
    finds nothing exactly when no opening brace is followed by a closing
    one. *)
Theorem objectLazy_extraction (s : text) :
  (forall m,
      regexMatch objectLazyAt s = Some m <->
      exists pre body post,
        s = pre ++ m ++ post
        /\ m = Ch.lbrace :: body ++ [Ch.rbrace]
        /\ ~ In Ch.lbrace pre /\ ~ In Ch.rbrace body)
  /\ (regexMatch objectLazyAt s = None <->
      ~ exists pre mid post,
          s = pre ++ Ch.lbrace :: mid ++ Ch.rbrace :: post).
Proof.
  pose proof objectLazy_cut as Cut.
  pose proof objectLazy_back as Back.
  assert (Fwd : forall t m,
             regexMatch objectLazyAt t = Some m ->
             exists pre body post,
               t = pre ++ m ++ post
               /\ m = Ch.lbrace :: body ++ [Ch.rbrace]
               /\ ~ In Ch.lbrace pre /\ ~ In Ch.rbrace body).
  { intros t. induction t as [|c r IH]; intros m H.
    - cbn in H. discriminate.
    - destruct (objectLazyAt (c :: r)) as [n|] eqn:E.
      + rewrite (regexMatch_cons_Some _ _ _ E) in H. inversion H; subst m.
        unfold objectLazyAt in E.
        destruct (N.eqb_spec c Ch.lbrace) as [->|_]; [|discriminate].
        destruct (lazyUntil Ch.rbrace r) as [n'|] eqn:El; [|discriminate].
        inversion E; subst n.
        destruct (proj1 (lazyUntil_spec Ch.rbrace r) _ El)
          as (body & post & -> & Hn & ->).
        exists [], body, post.
        replace (S (S (length body)))
          with (length (Ch.lbrace :: body ++ [Ch.rbrace]))
          by (cbn [length]; rewrite length_app; simpl; lia).
        rewrite <- (Cut body post), firstn_length_app. repeat split; auto.
      + rewrite (regexMatch_cons_None _ _ _ E) in H.
        destruct (IH _ H) as (pre & body & post & -> & -> & Hpre & Hbody).
        exists (c :: pre), body, post. repeat split; auto.
        intros [->|Hin]; [|exact (Hpre Hin)].
        unfold objectLazyAt in E.
        change (Ch.lbrace =? Ch.lbrace)%N with true in E. cbv iota in E.
        destruct (lazyUntil Ch.rbrace
                    (pre ++ (Ch.lbrace :: body ++ [Ch.rbrace]) ++ post))
          as [n'|] eqn:El; [discriminate|].
        apply (proj2 (lazyUntil_spec Ch.rbrace _)) in El. apply El.
        apply in_or_app. right. apply in_or_app. left.
        right. apply in_or_app. right. left. reflexivity. }
  split.
  - intros m. split; [apply Fwd|].
    intros (pre & body & post & -> & -> & Hpre & Hbody).
    apply Back; assumption.
  - split.
    + intros HN (pre & mid & post & E).
      assert (Some_ : forall pre0, regexMatch objectLazyAt
                (pre0 ++ Ch.lbrace :: mid ++ Ch.rbrace :: post) <> None).
      { induction pre0 as [|x pre0 IH].
        - cbn [app].
          destruct (objectLazyAt (Ch.lbrace :: mid ++ Ch.rbrace :: post))
            as [n|] eqn:En.
          + rewrite (regexMatch_cons_Some _ _ _ En). discriminate.
          + exfalso. unfold objectLazyAt in En.
            change (Ch.lbrace =? Ch.lbrace)%N with true in En.
            cbv iota in En.
            destruct (lazyUntil Ch.rbrace (mid ++ Ch.rbrace :: post))
              as [n'|] eqn:El; [discriminate|].
            apply (proj2 (lazyUntil_spec Ch.rbrace _)) in El. apply El.
            apply in_or_app. right. left. reflexivity.
        - cbn [app].
          destruct (objectLazyAt
                      (x :: pre0 ++ Ch.lbrace :: mid ++ Ch.rbrace :: post))
            as [n|] eqn:En.
          + rewrite (regexMatch_cons_Some _ _ _ En). discriminate.
          + rewrite (regexMatch_cons_None _ _ _ En). exact IH. }
      apply (Some_ pre). rewrite <- E. exact HN.
    + intros HN. destruct (regexMatch objectLazyAt s) as [m|] eqn:E;
        [|reflexivity].
      exfalso. apply HN. apply Fwd in E.
      destruct E as (pre & body & post & -> & -> & _ & _).
      exists pre, body, post. rewrite (Cut body post). reflexivity.
Qed.

(** X10: the autotest path on an answer that is, from its first to its last
    character, a valid object with no closing brace inside: the lazy
    pattern takes the whole text, the direct parse succeeds, and its value
    is returned with no repair. *)
Theorem generateAutotests_direct (response body : text) (v : json) :
  trim response = Ch.lbrace :: body ++ [Ch.rbrace] ->
  ~ In Ch.rbrace body ->
  JSON_parse (trim response) = Value v ->
  generateAutotests_decode response = Return v.
Proof.
  intros E Hn P. unfold generateAutotests_decode.
  assert (M : regexMatch objectLazyAt (trim response) = Some (trim response)).
  { pose proof (objectLazy_back [] body [] (fun H => H) Hn) as B.
    cbn [app] in B. rewrite app_nil_r in B. rewrite <- E in B. exact B. }
  rewrite M, P. reflexivity.
Qed.

Lemma generateAutotests_direct_witness :
  generateAutotests_decode (js "  {'test_files': [], 'readme': 'none'} ")
  = Return (JObject [(js "test_files", JArray []);
                     (js "readme", JString (js "none"))]).
Proof.
  apply (generateAutotests_direct
           (js "  {'test_files': [], 'readme': 'none'} ")
           (js "'test_files': [], 'readme': 'none'")).
  - vm_compute. reflexivity.
  - vm_compute. intros H.
    repeat (destruct H as [H|H]; [discriminate H|]). exact H.
  - vm_compute. reflexivity.
Defined.

Lemma generateTestCases_direct_witness :
  generateTestCases_decode (js " [{'id': 'TC-1', 'steps': []}] ")
  = Return (JArray [JObject [(js "id", JString (js "TC-1"));
                              (js "steps", JArray [])]]).
Proof.
  apply (generateTestCases_direct
           (js " [{'id': 'TC-1', 'steps': []}] ")
           (js "{'id': 'TC-1', 'steps': []}")).
  - vm_compute. reflexivity.
  - vm_compute. reflexivity.
Defined.

(** X5: the fallback never recovers data.  The text it returns is valid JSON
    only when neither key pattern matched, and the value is then the empty
    envelope: an object whose one member, [test_files], is the empty
    array. *)
Theorem extremeJsonFallback_parses_iff (jsonStr : text) (v : json) :
  JSON_parse (extremeJsonFallback jsonStr) = Value v <->
  regexMatch (keyArrayAt (js "test_files")) jsonStr = None
  /\ regexMatch (keyArrayAt (js "test_cases")) jsonStr = None
  /\ v = JObject [(js "test_files", JArray [])].
Proof.
  split.
  - intros H.
    destruct (regexMatch (keyArrayAt (js "test_files")) jsonStr) eqn:M1.
    { rewrite extremeJsonFallback_match_malformed in H; [discriminate|].
      left. rewrite M1. discriminate. }
    destruct (regexMatch (keyArrayAt (js "test_cases")) jsonStr) eqn:M2.
    { rewrite extremeJsonFallback_match_malformed in H; [discriminate|].
      right. rewrite M2. discriminate. }
    rewrite (extremeJsonFallback_default _ M1 M2) in H.
    rewrite (proj1 emptyEnvelope_decoded) in H. inversion H. auto.
  - intros (M1 & M2 & ->).
    rewrite (extremeJsonFallback_default _ M1 M2).
    exact (proj1 emptyEnvelope_decoded).
Qed.

(** ** Trailing slashes of a URL *)

Lemma forallb_slash_repeat (s : text) :
  forallb (fun c => (c =? slash)%N) s = true -> s = repeat slash (length s).
Proof.
  induction s as [|c r IH]; [reflexivity|]. cbn [forallb length repeat].
  intros H. apply andb_prop in H. destruct H as [Hc Hr].
  apply N.eqb_eq in Hc. subst c. f_equal. apply IH. exact Hr.
Qed.

Lemma stripTrailingSlashes_fixed (t : text) :
  (forall body, t <> body ++ [slash]) -> stripTrailingSlashes t = t.
Proof.
  unfold stripTrailingSlashes.
  induction t as [|c r IH]; intros H; [reflexivity|].
  cbn [regexReplaceFirst slashesToEndAt].
  destruct (forallb (fun x => (x =? slash)%N) (c :: r)) eqn:F.
  - exfalso. apply forallb_slash_repeat in F.
    apply (H (repeat slash (length r))).
    rewrite F at 1. cbn [length repeat].
    rewrite <- repeat_cons. reflexivity.
  - f_equal. apply IH. intros body E. apply (H (c :: body)).
    rewrite E. reflexivity.
Qed.

(** X12: stripping the trailing slashes of a URL (the backend URL of the
    settings and of [ApiService], the base URL of the local LLM) removes a
    run of slashes at the end and nothing else; the result never ends with
    a slash, and stripping again changes nothing. *)
Theorem stripTrailingSlashes_spec (url : text) :
  (exists k, url = stripTrailingSlashes url ++ repeat slash k)
  /\ (forall body, stripTrailingSlashes url <> body ++ [slash])
  /\ stripTrailingSlashes (stripTrailingSlashes url)
     = stripTrailingSlashes url.
Proof.
  assert (Main : (exists k, url = stripTrailingSlashes url ++ repeat slash k)
                 /\ (forall body, stripTrailingSlashes url <> body ++ [slash])).
  { unfold stripTrailingSlashes.
    induction url as [|c r [[k Ek] IHn]].
    - split; [exists 0%nat; reflexivity|]. intros [|x body]; discriminate.
    - cbn [regexReplaceFirst slashesToEndAt].
      destruct (forallb (fun x => (x =? slash)%N) (c :: r)) eqn:F.
      + rewrite skipn_all. cbn [app]. split.
        * exists (length (c :: r)). apply forallb_slash_repeat. exact F.
        * intros [|x body]; discriminate.
      + split.
        * exists k. cbn [app]. f_equal. exact Ek.
        * intros body E.
          destruct body as [|x body]; cbn [app] in E.
          -- inversion E as [[Ec Er]]. subst c.
             rewrite Er in Ek. cbn [app] in Ek.
             rewrite Ek in F. cbn [forallb] in F.
             change (slash =? slash)%N with true in F. cbn [andb] in F.
             assert (A : forallb (fun x => (x =? slash)%N) (repeat slash k)
                         = true).
             { clear. induction k; [reflexivity|]. cbn [repeat forallb].
               rewrite IHk. reflexivity. }
             rewrite A in F. discriminate.
          -- inversion E as [[Ec Er]]. exact (IHn body Er). }
  destruct Main as [M1 M2]. repeat split; [exact M1|exact M2|].
  apply stripTrailingSlashes_fixed. exact M2.
Qed.

(** ** The settings *)

Lemma text_eqb_eq (a b : text) : text_eqb a b = true <-> a = b.
Proof.
  unfold text_eqb. destruct (list_eq_dec N.eq_dec a b); split; intros H;
    try reflexivity; try assumption; try discriminate. contradiction.
Qed.

(** X13: which settings [isConfigValid] accepts.  A local provider (ollama,
    llmstudio) is valid unless its base URL is set to the empty text: with
    no setting the default URL applies.  A hosted provider (openai, which is
    also the default, openrouter, anthropic) is valid exactly when its API
    key is set and not empty.  Any other provider name makes the check
    throw. *)
Theorem isConfigValid_spec (config : Settings) :
  let p := configGet config (js "provider") (js "openai") in
  (isConfigValid config = Done {| valid := true; message := None |} <->
   ((p = js "ollama" \/ p = js "llmstudio")
    /\ config (p ++ js ".baseUrl") <> Some [])
   \/ ((p = js "openai" \/ p = js "openrouter" \/ p = js "anthropic")
       /\ exists k, config (p ++ js ".apiKey") = Some k /\ k <> []))
  /\ ((exists e, isConfigValid config = Failed e) <->
      ~ In p [js "openai"; js "openrouter"; js "anthropic"; js "ollama";
              js "llmstudio"]).
Proof.
  intros p. unfold isConfigValid, getLLMConfig. fold p.
  assert (D : forall a b : text, {a = b} + {a <> b})
    by (apply list_eq_dec, N.eq_dec).
  assert (T : forall a, text_eqb p a = true <-> p = a)
    by (intros; apply text_eqb_eq).
  assert (Fz : forall key dflt, dflt <> [] ->
             (falsyString (Some (configGet config key dflt)) = false
              <-> config key <> Some [])).
  { intros key dflt Hd. unfold configGet.
    destruct (config key) as [[|x v]|]; cbn.
    - split; [discriminate|]. intros H. contradiction H. reflexivity.
    - split; [discriminate|reflexivity].
    - destruct dflt; [contradiction Hd; reflexivity|].
      split; [discriminate|reflexivity]. }
  assert (Fk : forall key,
             (falsyString (Some (configGet config key [])) = false
              <-> exists k, config key = Some k /\ k <> [])).
  { intros key. unfold configGet.
    destruct (config key) as [[|x v]|]; cbn.
    - split; [discriminate|]. intros (k & E & N). inversion E; subst.
      contradiction N. reflexivity.
    - split; [|reflexivity]. intros _. exists (x :: v).
      split; [reflexivity|discriminate].
    - split; [discriminate|]. intros (k & E & _). discriminate. }
  destruct (D p (js "openai")) as [E1|N1].
  { rewrite (proj2 (T _) E1). cbn [provider apiKey baseUrl]. rewrite E1.
    change (js "openai" ++ js ".apiKey") with (js "openai.apiKey").
    split.
    - destruct (falsyString (Some (configGet config (js "openai.apiKey") [])))
        eqn:F.
      + split; [discriminate|]. intros [[[H|H] _]|[_ H]]; try discriminate.
        apply Fk in H. congruence.
      + split; [|reflexivity]. intros _. right. split; [auto|].
        apply Fk. exact F.
    - split.
      + intros [e H].
        destruct (falsyString _) in H; discriminate.
      + intros H. exfalso. apply H. left. reflexivity. }
  rewrite (proj1 (not_true_iff_false _)
             (fun H => N1 (proj1 (T _) H))).
  destruct (D p (js "openrouter")) as [E2|N2].
  { rewrite (proj2 (T _) E2). cbn [provider apiKey baseUrl]. rewrite E2.
    change (js "openrouter" ++ js ".apiKey") with (js "openrouter.apiKey").
    split.
    - destruct (falsyString
                  (Some (configGet config (js "openrouter.apiKey") [])))
        eqn:F.
      + split; [discriminate|]. intros [[[H|H] _]|[_ H]]; try discriminate.
        apply Fk in H. congruence.
      + split; [|reflexivity]. intros _. right. split; [auto|].
        apply Fk. exact F.
    - split.
      + intros [e H].
        destruct (falsyString _) in H; discriminate.
      + intros H. exfalso. apply H. right. left. reflexivity. }
  rewrite (proj1 (not_true_iff_false _)
             (fun H => N2 (proj1 (T _) H))).
  destruct (D p (js "anthropic")) as [E3|N3].
  { rewrite (proj2 (T _) E3). cbn [provider apiKey baseUrl]. rewrite E3.
    change (js "anthropic" ++ js ".apiKey") with (js "anthropic.apiKey").
    split.
    - destruct (falsyString
                  (Some (configGet config (js "anthropic.apiKey") [])))
        eqn:F.
      + split; [discriminate|]. intros [[[H|H] _]|[_ H]]; try discriminate.
        apply Fk in H. congruence.
      + split; [|reflexivity]. intros _. right. split; [auto|].
        apply Fk. exact F.
    - split.
      + intros [e H].
        destruct (falsyString _) in H; discriminate.
      + intros H. exfalso. apply H. right. right. left. reflexivity. }
  rewrite (proj1 (not_true_iff_false _)
             (fun H => N3 (proj1 (T _) H))).
  destruct (D p (js "ollama")) as [E4|N4].
  { rewrite (proj2 (T _) E4). cbn [provider apiKey baseUrl]. rewrite E4.
    change (js "ollama" ++ js ".baseUrl") with (js "ollama.baseUrl").
    split.
    - destruct (falsyString
                  (Some (configGet config (js "ollama.baseUrl")
                           (js "http://localhost:11434")))) eqn:F.
      + split; [discriminate|]. intros [[_ H]|[[H|[H|H]] _]];
          try discriminate.
        apply (Fz _ (js "http://localhost:11434")) in H; [congruence|].
        discriminate.
      + split; [|reflexivity]. intros _. left. split; [auto|].
        apply (Fz _ (js "http://localhost:11434")); [discriminate|exact F].
    - split.
      + intros [e H].
        destruct (falsyString _) in H; discriminate.
      + intros H. exfalso. apply H. do 3 right. left. reflexivity. }
  rewrite (proj1 (not_true_iff_false _)
             (fun H => N4 (proj1 (T _) H))).
  destruct (D p (js "llmstudio")) as [E5|N5].
  { rewrite (proj2 (T _) E5). cbn [provider apiKey baseUrl]. rewrite E5.
    change (js "llmstudio" ++ js ".baseUrl") with (js "llmstudio.baseUrl").
    split.
    - destruct (falsyString
                  (Some (configGet config (js "llmstudio.baseUrl")
                           (js "http://localhost:1234")))) eqn:F.
      + split; [discriminate|]. intros [[_ H]|[[H|[H|H]] _]];
          try discriminate.
        apply (Fz _ (js "http://localhost:1234")) in H; [congruence|].
        discriminate.
      + split; [|reflexivity]. intros _. left. split; [auto|].
        apply (Fz _ (js "http://localhost:1234")); [discriminate|exact F].
    - split.
      + intros [e H].
        destruct (falsyString _) in H; discriminate.
      + intros H. exfalso. apply H. do 4 right. left. reflexivity. }
  rewrite (proj1 (not_true_iff_false _)
             (fun H => N5 (proj1 (T _) H))).
  split.
  - split; [discriminate|].
    intros [[[H|H] _]|[[H|[H|H]] _]]; contradiction.
  - split.
    + intros _ [H|[H|[H|[H|[H|[]]]]]]; symmetry in H; contradiction.
    + intros _. eexists. reflexivity.
Qed.

(** ** Cells of the spreadsheet export *)

Lemma replaceAll_nulAt (s : text) :
  replaceAll nulAt s = filter (fun c => negb (c =? 0)%N) s.
Proof.
  induction s as [|c r IH]; [reflexivity|].
  rewrite replaceAll_cons. cbn [nulAt filter].
  destruct (c =? 0)%N; cbn [negb Nat.pred skipn app]; rewrite IH; reflexivity.
Qed.

Lemma replaceAll_crAt (s : text) :
  replaceAll crAt s = map (fun c => if (c =? Ch.cr)%N then Ch.lf else c) s.
Proof.
  induction s as [|c r IH]; [reflexivity|].
  rewrite replaceAll_cons. cbn [crAt map].
  destruct (c =? Ch.cr)%N; cbn [Nat.pred skipn app]; rewrite IH; reflexivity.
Qed.

Lemma crlfAt_no_cr (t : text) : ~ In Ch.cr t -> crlfAt t = None.
Proof.
  intros H. unfold crlfAt. destruct t as [|a [|b t']]; try reflexivity.
  destruct (N.eqb_spec a Ch.cr) as [->|_]; [|reflexivity].
  exfalso. apply H. left. reflexivity.
Qed.

Lemma sanitize_text_clean (s : text) :
  let r := replaceAll crAt (replaceAll crlfAt (replaceAll nulAt s)) in
  ~ In 0%N r /\ ~ In Ch.cr r.
Proof.
  intros r. unfold r. rewrite replaceAll_crAt, replaceAll_nulAt. split.
  - intros H. apply in_map_iff in H. destruct H as (x & E & Hx).
    assert (F : Forall (fun c => c <> 0%N)
                  (replaceAll crlfAt (filter (fun c => negb (c =? 0)%N) s))).
    { apply replaceAll_Forall.
      - intros t n rep Em. unfold crlfAt in Em.
        destruct t as [|a [|b t']]; try discriminate.
        destruct ((a =? Ch.cr)%N && (b =? Ch.lf)%N); [|discriminate].
        inversion Em; subst. repeat constructor. discriminate.
      - apply Forall_forall. intros c Hc. apply filter_In in Hc.
        destruct Hc as [_ Hc]. apply negb_true_iff, N.eqb_neq in Hc.
        exact Hc. }
    rewrite Forall_forall in F. specialize (F _ Hx).
    destruct (x =? Ch.cr)%N; [discriminate E|]. congruence.
  - intros H. apply in_map_iff in H. destruct H as (x & E & _).
    destruct (x =? Ch.cr)%N eqn:Q; [discriminate E|].
    apply N.eqb_neq in Q. congruence.
Qed.

Lemma sanitize_text_fixed (s : text) :
  ~ In 0%N s -> ~ In Ch.cr s ->
  replaceAll crAt (replaceAll crlfAt (replaceAll nulAt s)) = s.
Proof.
  intros H0 Hc.
  assert (E1 : replaceAll nulAt s = s).
  { rewrite replaceAll_nulAt. apply forallb_filter_id.
    apply forallb_forall. intros x Hx. apply negb_true_iff, N.eqb_neq.
    intros ->. exact (H0 Hx). }
  assert (E2 : replaceAll crlfAt s = s).
  { apply replaceAll_no_match. intros pre t E. apply crlfAt_no_cr.
    intros H. apply Hc. rewrite E. apply in_or_app. right. exact H. }
  rewrite E1, E2, replaceAll_crAt.
  rewrite <- (map_id s) at 2. apply map_ext_in. intros x Hx.
  destruct (N.eqb_spec x Ch.cr) as [->|_]; [|reflexivity].
  contradiction (Hc Hx).
Qed.

(** X14: a sanitised spreadsheet cell never holds a NUL character or a
    carriage return; a text without them is returned unchanged (so
    sanitising twice is sanitising once), and null or undefined becomes the
    empty text. *)
Theorem sanitize_spec (value : cellValue) :
  ~ In 0%N (sanitize value)
  /\ ~ In Ch.cr (sanitize value)
  /\ (forall s, value = CellString s \/ value = CellOther s ->
        ~ In 0%N s -> ~ In Ch.cr s -> sanitize value = s)
  /\ sanitize (CellString (sanitize value)) = sanitize value
  /\ (value = CellNull -> sanitize value = []).
Proof.
  assert (C : ~ In 0%N (sanitize value) /\ ~ In Ch.cr (sanitize value)).
  { destruct value as [|s|s]; cbn [sanitize];
      [split; intros []|apply sanitize_text_clean..]. }
  destruct C as [C0 Cc]. repeat split; try assumption.
  - intros s [->| ->] H0 Hc; apply sanitize_text_fixed; assumption.
  - cbn [sanitize]. apply sanitize_text_fixed; assumption.
  - intros ->. reflexivity.
Qed.

Lemma sanitize_spec_witness :
  sanitize (CellString (js "step one")) = js "step one"
  /\ sanitize CellNull = [].
Proof.
  split.
  - apply (proj1 (proj2 (proj2 (sanitize_spec (CellString (js "step one")))))
             (js "step one")).
    + left. reflexivity.
    + vm_compute. intros H.
      repeat (destruct H as [H|H]; [discriminate H|]). exact H.
    + vm_compute. intros H.
      repeat (destruct H as [H|H]; [discriminate H|]). exact H.
  - apply (proj2 (proj2 (proj2 (proj2 (sanitize_spec CellNull))))).
    reflexivity.
Defined.

(** ** The text of a local-LLM answer *)

(** X11: from the body of a local-LLM answer with status 200, the text handed
    to the extraction is: the body itself when it is not JSON and not
    empty; the string the body denotes when it is a JSON string; the
    [response] member when the body is a JSON object that holds a non-empty
    string there.  In every other case the call of [trim] throws a
    TypeError, whatever the floating-point value of a number. *)
Theorem llmResponseText_spec (isZero : text -> bool) (body : text) :
  (forall t,
      llmResponseText isZero (ollamaResolved body) = Return t <->
      (JSON_parse body = SyntaxError /\ body <> [] /\ t = body)
      \/ JSON_parse body = Value (JString t)
      \/ (exists members,
             JSON_parse body = Value (JObject members)
             /\ lookupMember (js "response") members = Some (JString t)
             /\ t <> []))
  /\ (forall e, llmResponseText isZero (ollamaResolved body) = Throw e ->
        e = TypeError).
Proof.
  unfold ollamaResolved.
  pose proof (JSON_parse_never_out_of_fuel body) as NF.
  destruct (JSON_parse body) as [v| |] eqn:P; [| |contradiction].
  - (* the body is JSON *)
    destruct v as [|b|lexeme|str|items|members];
      unfold llmResponseText; cbn [getProperty truthy].
    1-3,5: split; [intros t; split;
                   [discriminate
                   |intros [(H & _)|[H|(ms & H & _)]]; discriminate]
                  |intros e H; inversion H; reflexivity].
    + (* a JSON string *)
      split; [|discriminate]. intros t. split.
      * intros H. inversion H; subst. right. left. reflexivity.
      * intros [(H & _)|[H|(ms & H & _)]]; try discriminate.
        inversion H; subst. reflexivity.
    + (* a JSON object *)
      destruct (lookupMember (js "response") members) as [field|] eqn:L.
      * destruct field as [|b|lexeme|[|x str]|items|ms']; cbn [truthy];
          try (split; [intros t; split;
                 [try discriminate; destruct b; discriminate
                 |intros [(H & _)|[H|(ms & H & F & N)]];
                  [discriminate|discriminate|
                   inversion H; subst; rewrite L in F; inversion F; subst;
                   try contradiction (N eq_refl)]]
               |intros e H; try destruct b; inversion H; reflexivity]).
        -- (* a number: a TypeError whether it is zero or not *)
           split.
           ++ intros t. split.
              ** destruct (isZero lexeme); discriminate.
              ** intros [(H & _)|[H|(ms & H & F & N)]];
                   [discriminate|discriminate|].
                 inversion H; subst. rewrite L in F. discriminate.
           ++ intros e H. destruct (isZero lexeme); inversion H; reflexivity.
        -- (* a non-empty string *)
           split; [|discriminate]. intros t. split.
           ++ intros H. inversion H; subst. right. right.
              exists members. repeat split; [exact L|discriminate].
           ++ intros [(H & _)|[H|(ms & H & F & N)]];
                [discriminate|discriminate|].
              inversion H; subst. rewrite L in F. inversion F. reflexivity.
      * cbn [truthy]. split.
        -- intros t. split; [discriminate|].
           intros [(H & _)|[H|(ms & H & F & N)]];
             [discriminate|discriminate|].
           inversion H; subst. rewrite L in F. discriminate.
        -- intros e H. inversion H. reflexivity.
  - (* the body is not JSON *)
    unfold llmResponseText. cbn [getProperty lookupMember].
    change (text_eqb (js "response") (js "response")) with true. cbv iota.
    destruct body as [|c r]; cbn [truthy].
    + split.
      * intros t. split; [discriminate|].
        intros [(_ & N & _)|[H|(ms & H & _)]]; try discriminate.
        contradiction N. reflexivity.
      * intros e H. inversion H. reflexivity.
    + split; [|discriminate]. intros t. split.
      * intros H. inversion H; subst. left. repeat split. discriminate.
      * intros [(_ & _ & ->)|[H|(ms & H & _)]]; try discriminate.
        reflexivity.
Qed.

(** An answer whose body is an object with the text under [response], and
    an answer whose body is the JSON null. *)
Lemma llmResponseText_spec_witness :
  llmResponseText (fun _ => false) (ollamaResolved (js "{'response': '[1]'}"))
  = Return (js "[1]")
  /\ (llmResponseText (fun _ => false) (ollamaResolved (js "null"))
      = Throw TypeError
      /\ TypeError = TypeError).
Proof.
  split.
  - apply (proj2 (proj1 (llmResponseText_spec (fun _ => false)
                           (js "{'response': '[1]'}")) (js "[1]"))).
    right. right. exists [(js "response", JString (js "[1]"))].
    split; [vm_compute; reflexivity|].
    split; [vm_compute; reflexivity|]. discriminate.
  - assert (H : llmResponseText (fun _ => false) (ollamaResolved (js "null"))
                = Throw TypeError) by (vm_compute; reflexivity).
    split; [exact H|].
    exact (proj2 (llmResponseText_spec (fun _ => false) (js "null"))
             TypeError H).
Defined.

(** ** The files sent with a request *)

Lemma findIndex_from_first {A} (p : A -> bool) (pre : list A) (x : A)
    (r : list A) (i : Z) :
  p x = true ->
  (findIndex_from p i (pre ++ x :: r) = i + Z.of_nat (length pre)
   <-> forall f, In f pre -> p f = false).
Proof.
  intros Hx. revert i. induction pre as [|y pre IH]; intros i.
  - cbn [app findIndex_from length]. rewrite Hx. split; [intros _ f []|lia].
  - cbn [app findIndex_from length]. destruct (p y) eqn:Py.
    + split; [lia|]. intros H. rewrite (H y) in Py; [discriminate|].
      left. reflexivity.
    + replace (i + Z.of_nat (S (length pre)))
        with (i + 1 + Z.of_nat (length pre)) by lia.
      split.
      * intros E f [<-|Hf]; [exact Py|].
        exact (proj1 (IH (i + 1)) E f Hf).
      * intros H. apply IH. intros f Hf. apply H. right. exact Hf.
Qed.

Lemma uniqueFiles_from (files rest pre : list FileContext) :
  files = pre ++ rest ->
  let out :=
    filterIndexed_from
      (fun file index self =>
         index =? findIndex (fun f => text_eqb (path f) (path file)) self)
      files (Z.of_nat (length pre)) rest in
  NoDup (map path out)
  /\ forall g, In g out <->
               exists a b, rest = a ++ g :: b
                           /\ forall f, In f (pre ++ a) -> path f <> path g.
Proof.
  revert pre. induction rest as [|x r IH]; intros pre E out.
  - split; [constructor|]. intros g. split; [intros []|].
    intros (a & b & Ea & _). destruct a; discriminate.
  - assert (E' : files = (pre ++ [x]) ++ r)
      by (rewrite <- app_assoc; exact E).
    specialize (IH (pre ++ [x]) E').
    rewrite length_app in IH. cbn [length] in IH.
    replace (Z.of_nat (length pre + 1)) with (Z.of_nat (length pre) + 1)
      in IH by lia.
    cbv zeta in IH. destruct IH as [IHn IHi].
    unfold out. cbn [filterIndexed_from].
    set (out' := filterIndexed_from _ files (Z.of_nat (length pre) + 1) r)
      in *.
    assert (K : (Z.of_nat (length pre)
                 =? findIndex (fun f => text_eqb (path f) (path x)) files)
                = true
                <-> forall f, In f pre -> path f <> path x).
    { unfold findIndex. rewrite E, Z.eqb_eq.
      pose proof (findIndex_from_first
                    (fun f => text_eqb (path f) (path x)) pre x r 0
                    (proj2 (text_eqb_eq _ _) eq_refl)) as Fi.
      rewrite Z.add_0_l in Fi. split.
      - intros H f Hf Ep. symmetry in H.
        pose proof (proj1 Fi H f Hf) as Hx. cbv beta in Hx.
        apply text_eqb_eq in Ep. congruence.
      - intros H. symmetry. apply (proj2 Fi). intros f Hf.
        apply not_true_iff_false. intros Ep. apply text_eqb_eq in Ep.
        exact (H f Hf Ep). }
    assert (Tail : forall g, In g out' ->
               exists a b, x :: r = a ++ g :: b
                           /\ forall f, In f (pre ++ a) -> path f <> path g).
    { intros g Hg. apply IHi in Hg. destruct Hg as (a & b & -> & Hf).
      exists (x :: a), b. split; [reflexivity|].
      intros f Hin. apply Hf. rewrite <- app_assoc. exact Hin. }
    destruct (Z.of_nat (length pre)
              =? findIndex (fun f => text_eqb (path f) (path x)) files) eqn:Kx.
    + split.
      * cbn [map]. constructor; [|exact IHn].
        intros Hin. apply in_map_iff in Hin. destruct Hin as (g & Ep & Hg).
        apply IHi in Hg. destruct Hg as (a & b & _ & Hf).
        apply (Hf x); [|symmetry; exact Ep].
        apply in_or_app. left. apply in_or_app. right. left. reflexivity.
      * intros g. split.
        -- intros [<-|Hg]; [|apply Tail; exact Hg].
           exists [], r. split; [reflexivity|].
           rewrite app_nil_r. apply K. reflexivity.
        -- intros (a & b & Ea & Hf). destruct a as [|y a].
           ++ inversion Ea; subst. left. reflexivity.
           ++ inversion Ea; subst. right. apply IHi. exists a, b.
              split; [reflexivity|]. intros f Hin. apply Hf.
              rewrite <- app_assoc in Hin. exact Hin.
    + split; [exact IHn|]. intros g. split; [apply Tail|].
      intros (a & b & Ea & Hf). destruct a as [|y a].
      * inversion Ea; subst. exfalso.
        rewrite app_nil_r in Hf. apply K in Hf. congruence.
      * inversion Ea; subst. apply IHi. exists a, b.
        split; [reflexivity|]. intros f Hin. apply Hf.
        rewrite <- app_assoc in Hin. exact Hin.
Qed.

(** X15: removing duplicates keeps, for every path, the first collected file
    with that path and drops the later ones: no two kept files share a
    path, and a file is kept exactly when no file before it in the list has
    its path. *)
Theorem uniqueFiles_spec (files : list FileContext) :
  NoDup (map path (uniqueFiles files))
  /\ (forall g, In g (uniqueFiles files) <->
                exists a b, files = a ++ g :: b
                            /\ forall f, In f a -> path f <> path g)
  /\ (forall f, In f files ->
        exists g, In g (uniqueFiles files) /\ path g = path f).
Proof.
  destruct (uniqueFiles_from files files [] eq_refl) as [N I].
  cbn [length app] in N, I. fold (uniqueFiles files) in N, I.
  change (filterIndexed_from
            (fun file index self =>
               index =? findIndex (fun f => text_eqb (path f) (path file)) self)
            files (Z.of_nat 0) files) with (uniqueFiles files) in *.
  split; [exact N|]. split; [exact I|].
  intros f Hf.
  (* the first file with the path of f *)
  assert (First : forall l, In f l ->
            exists a g b, l = a ++ g :: b /\ path g = path f
                          /\ forall h, In h a -> path h <> path g).
  { induction l as [|y l IH]; intros Hin; [destruct Hin|].
    destruct (list_eq_dec N.eq_dec (path y) (path f)) as [Ey|Ny].
    - exists [], y, l. repeat split; [exact Ey|]. intros h [].
    - destruct Hin as [->|Hin]; [contradiction Ny; reflexivity|].
      destruct (IH Hin) as (a & g & b & -> & Eg & Ha).
      exists (y :: a), g, b. repeat split; [exact Eg|].
      intros h [<-|Hh]; [congruence|exact (Ha h Hh)]. }
  destruct (First files Hf) as (a & g & b & E & Eg & Ha).
  exists g. split; [|exact Eg]. apply I. exists a, b. split; assumption.
Qed.

(** Two collected files with one path: the first one stands for both. *)
Lemma uniqueFiles_spec_witness :
  In (mkFileContext (js "src/a.ts") (js "later") (js "typescript"))
     [mkFileContext (js "src/a.ts") (js "first") (js "typescript");
      mkFileContext (js "src/a.ts") (js "later") (js "typescript")]
  /\ exists g,
       In g (uniqueFiles
               [mkFileContext (js "src/a.ts") (js "first") (js "typescript");
                mkFileContext (js "src/a.ts") (js "later") (js "typescript")])
       /\ path g = path (mkFileContext (js "src/a.ts") (js "later")
                           (js "typescript")).
Proof.
  assert (H : In (mkFileContext (js "src/a.ts") (js "later") (js "typescript"))
                [mkFileContext (js "src/a.ts") (js "first") (js "typescript");
                 mkFileContext (js "src/a.ts") (js "later") (js "typescript")])
    by (right; left; reflexivity).
  split; [exact H|].
  exact (proj2 (proj2 (uniqueFiles_spec _)) _ H).
Defined.

Lemma limitLoop_spec (u : list FileContext) :
  forall t acc,
    exists taken rest,
      u = taken ++ rest
      /\ limitLoop u t acc = acc ++ taken
      /\ (t <= 500000 -> t + totalSize taken <= 500000)
      /\ (rest = []
          \/ exists f rest', rest = f :: rest'
               /\ t + totalSize taken + Z.of_nat (length (content f))
                  > 500000).
Proof.
  induction u as [|f u IH]; intros t acc.
  - exists [], []. cbn. rewrite app_nil_r. repeat split; auto. lia.
  - cbn [limitLoop].
    destruct (Z.gtb_spec (t + Z.of_nat (length (content f))) 500000) as [G|G].
    + exists [], (f :: u). cbn [app totalSize fold_right].
      rewrite app_nil_r. repeat split; [lia|].
      right. exists f, u. split; [reflexivity|lia].
    + destruct (IH (t + Z.of_nat (length (content f))) (acc ++ [f]))
        as (taken & rest & -> & El & Hb & Hr).
      exists (f :: taken), rest. cbn [app totalSize fold_right].
      fold (totalSize taken).
      repeat split.
      * rewrite El, <- app_assoc. reflexivity.
      * intros _. specialize (Hb G). lia.
      * destruct Hr as [->|(g & rest' & -> & Hg)]; [left; reflexivity|].
        right. exists g, rest'. split; [reflexivity|lia].
Qed.

(** X16: the size limit keeps a leading part of the files, in order, whose
    contents total at most 500000 characters, and stops at the first file
    that would take the total over the limit, even when later files would
    still fit. *)
Theorem limitFiles_spec (files : list FileContext) :
  exists rest,
    files = limitFiles files ++ rest
    /\ totalSize (limitFiles files) <= 500000
    /\ (rest = []
        \/ exists f rest', rest = f :: rest'
             /\ totalSize (limitFiles files) + Z.of_nat (length (content f))
                > 500000).
Proof.
  unfold limitFiles.
  destruct (limitLoop_spec files 0 []) as (taken & rest & E & El & Hb & Hr).
  cbn [app] in El. rewrite El. exists rest. repeat split.
  - exact E.
  - specialize (Hb ltac:(lia)). lia.
  - destruct Hr as [->|(f & rest' & -> & Hf)]; [left; reflexivity|].
    right. exists f, rest'. split; [reflexivity|lia].
Qed.

(** ** Control characters inside string literals *)

Lemma normalizeLoop_no_raw_control (s : text) : forall inS esc,
  rawControlInString inS esc (normalizeLoop inS esc s) = false.
Proof.
  induction s as [|c r IH]; intros inS esc; [reflexivity|].
  cbn [normalizeLoop]. destruct esc.
  { cbn [rawControlInString]. apply IH. }
  destruct (c =? Ch.backslash)%N eqn:Eb.
  { cbn [rawControlInString]. rewrite Eb. apply IH. }
  destruct (c =? Ch.quote)%N eqn:Eq; cbn [andb negb].
  { cbn [rawControlInString]. rewrite Eb, Eq. apply IH. }
  destruct inS; cbn [andb].
  - destruct (c =? Ch.lf)%N eqn:El.
    { cbn [rawControlInString].
      change (Ch.backslash =? Ch.backslash)%N with true. cbv iota. apply IH. }
    destruct (c =? Ch.tab)%N eqn:Et.
    { cbn [rawControlInString].
      change (Ch.space =? Ch.backslash)%N with false.
      change (Ch.space =? Ch.quote)%N with false.
      change (Ch.space =? Ch.lf)%N with false.
      change (Ch.space =? Ch.tab)%N with false.
      change (Ch.space =? Ch.cr)%N with false.
      cbn [andb orb]. cbv iota. apply IH. }
    destruct (c =? Ch.cr)%N eqn:Ec.
    { apply IH. }
    cbn [rawControlInString]. rewrite Eb, Eq, El, Et, Ec. cbn [andb orb].
    apply IH.
  - cbn [rawControlInString]. rewrite Eb, Eq. cbn [andb orb]. apply IH.
Qed.

(** X3: after the character loop of [simpleJsonRepair] no string literal
    holds an unescaped raw line feed, tab or carriage return, and outside
    the literals and after a backslash the loop copies the text: a text with
    no quote comes out unchanged. *)
Theorem normalizeControls_no_raw_control (s : text) :
  rawControlInString false false (normalizeControls s) = false
  /\ (~ In Ch.quote s -> normalizeControls s = s).
Proof.
  split; [apply normalizeLoop_no_raw_control|].
  unfold normalizeControls. intros Hq.
  assert (G : forall r esc, ~ In Ch.quote r -> normalizeLoop false esc r = r).
  { induction r as [|c r IH]; intros esc Hr; [reflexivity|].
    cbn [normalizeLoop].
    assert (Hc : (c =? Ch.quote)%N = false).
    { apply N.eqb_neq. intros ->. apply Hr. left. reflexivity. }
    assert (Hr' : ~ In Ch.quote r) by (intros H; apply Hr; right; exact H).
    destruct esc; [rewrite IH by exact Hr'; reflexivity|].
    destruct (c =? Ch.backslash)%N; [rewrite IH by exact Hr'; reflexivity|].
    rewrite Hc. cbn [andb]. rewrite IH by exact Hr'. reflexivity. }
  apply G. exact Hq.
Qed.

(** The loop leaves a text without quotes alone. *)
Lemma normalizeControls_no_raw_control_witness :
  ~ In Ch.quote (js "[1, 2]") /\ normalizeControls (js "[1, 2]") = js "[1, 2]".
Proof.
  assert (H : ~ In Ch.quote (js "[1, 2]")).
  { intros H. vm_compute in H. repeat (destruct H as [H|H]; [discriminate H|]). exact H. }
  split; [exact H|].
  exact (proj2 (normalizeControls_no_raw_control (js "[1, 2]")) H).
Defined.

(** ** The tree of the workspace *)

Lemma fsNode_nested_ind (P : fsNode -> Prop) :
  P FsMissing -> P FsFile -> P (FsDir None) ->
  (forall items, Forall (fun e => P (snd e)) items -> P (FsDir (Some items))) ->
  forall node, P node.
Proof.
  intros Hm Hf Hn Hs. fix IH 1.
  intros [| |[items|]]; [exact Hm | exact Hf | | exact Hn].
  apply Hs.
  refine ((fix go (l : list (text * fsNode)) : Forall (fun e => P (snd e)) l :=
             match l with
             | [] => Forall_nil _
             | e :: r => Forall_cons e (IH (snd e)) (go r)
             end) items).
Qed.

Lemma buildTree_unread (node : fsNode) (prefix : text) (depth : nat) :
  shown depth node = FsFile -> buildTree node prefix depth = [].
Proof.
  destruct node as [| |[items|]]; cbn [shown buildTree]; intros H;
    destruct (3 <? depth)%nat; try reflexivity; discriminate H.
Qed.

Lemma forEachItem_shown (depth len : nat) (prefix : text)
    (rest : list (text * fsNode)) :
  Forall (fun e => forall p d, buildTree (shown d (snd e)) p d
                               = buildTree (snd e) p d) rest ->
  forall index,
    forEachItem (fun node newPrefix => buildTree node newPrefix (S depth))
      len prefix
      (map (fun e => if includes ignorePatterns (fst e)
                     then (js "node_modules", FsMissing)
                     else (fst e, shown (S depth) (snd e))) rest) index
    = forEachItem (fun node newPrefix => buildTree node newPrefix (S depth))
        len prefix rest index.
Proof.
  induction 1 as [|[item node] rest Hx _ IH]; intros index; [reflexivity|].
  cbn [map forEachItem fst snd]. cbn [snd] in Hx.
  destruct (includes ignorePatterns item) eqn:Ei.
  { cbn [forEachItem].
    change (includes ignorePatterns (js "node_modules")) with true.
    cbv iota. apply IH. }
  cbn [forEachItem]. rewrite Ei.
  destruct node as [| |entries].
  - reflexivity.
  - cbn [shown]. rewrite IH. reflexivity.
  - specialize (Hx (prefix ++ (if (index =? len - 1)%nat
                               then indentLast else indentMid)) (S depth)).
    destruct (shown (S depth) (FsDir entries)) as [| |shownEntries] eqn:E.
    + cbn [shown] in E. destruct (3 <? S depth)%nat; [discriminate E|].
      destruct entries; discriminate E.
    + rewrite (buildTree_unread _ _ _ E). rewrite IH. reflexivity.
    + rewrite Hx, IH. reflexivity.
Qed.

(** X17: the tree of the workspace depends on nothing but what [shown]
    keeps.  An entry named in [ignorePatterns] counts for its place in the
    listing only: its name, what it is and what it holds never reach the
    output.  Nothing below the fourth level is read, and a directory that
    is not read, at the fourth level or because reading it fails, is listed
    like a file. *)
Theorem buildTree_shown (node : fsNode) (prefix : text) (depth : nat) :
  buildTree (shown depth node) prefix depth = buildTree node prefix depth.
Proof.
  revert prefix depth.
  induction node as [| | |items IH] using fsNode_nested_ind;
    intros prefix depth; try reflexivity.
  - cbn [shown]. destruct (3 <? depth)%nat eqn:E; cbn [buildTree];
      rewrite E; reflexivity.
  - cbn [shown]. destruct (3 <? depth)%nat eqn:E.
    + cbn [buildTree]. rewrite E. reflexivity.
    + cbn [buildTree]. rewrite E, length_map.
      apply forEachItem_shown.
      apply Forall_impl with (2 := IH). intros e He p d. apply He.
Qed.

(** ** A valid object inside other text *)

Lemma scanPlain_iff (c : char) :
  scanPlain c = true <->
  c <> Ch.lbrace /\ c <> Ch.rbrace /\ c <> Ch.quote /\ c <> Ch.backslash.
Proof.
  unfold scanPlain. rewrite negb_true_iff, !orb_false_iff, !N.eqb_neq.
  tauto.
Qed.

Lemma scanStep_plain (jsonStr : text) (st : ScanState) (i : Z) (c : char) :
  scanPlain c = true -> escapeNext st = false -> scanStep jsonStr st i c = st.
Proof.
  intros Hc He. apply scanPlain_iff in Hc. destruct Hc as (A & B & C & D).
  apply N.eqb_neq in A, B, C, D.
  unfold scanStep. rewrite He, A, B, C, D. cbn [andb].
  destruct (negb (inString st)); reflexivity.
Qed.

Lemma scanFrom_plain (jsonStr u : text) :
  forallb scanPlain u = true ->
  forall i st, escapeNext st = false -> scanFrom jsonStr i u st = st.
Proof.
  induction u as [|c u IH]; intros H i st He; [reflexivity|].
  cbn [forallb] in H. apply andb_true_iff in H. destruct H as [Hc Hu].
  cbn [scanFrom]. rewrite scanStep_plain by assumption. apply IH; assumption.
Qed.

Lemma scanKeeps_plain (u : text) : forallb scanPlain u = true -> scanKeeps u.
Proof.
  intros H jsonStr i st _ He _. apply scanFrom_plain; assumption.
Qed.

Lemma scanKeeps_app (a b : text) : scanKeeps a -> scanKeeps b -> scanKeeps (a ++ b).
Proof.
  intros Ha Hb jsonStr i st H1 H2 H3.
  rewrite scanFrom_app, Ha by assumption. apply Hb; assumption.
Qed.

Lemma scanKeeps_string (body : text) :
  literalBody false body = true -> scanKeeps (Ch.quote :: body ++ [Ch.quote]).
Proof.
  intros Hb jsonStr i st H1 H2 _.
  destruct st as [bc sp ins esc cs]. cbn in H1, H2. subst ins esc.
  cbn [scanFrom]. unfold scanStep at 1.
  cbn [escapeNext inString braceCount startPos candidates].
  change (Ch.quote =? Ch.backslash)%N with false.
  change (Ch.quote =? Ch.quote)%N with true. cbn [andb negb]. cbv iota.
  rewrite scanFrom_app.
  rewrite (scanFrom_literalBody jsonStr body) by (try reflexivity; exact Hb).
  cbn [scanFrom braceCount startPos candidates]. unfold scanStep.
  cbn [escapeNext inString braceCount startPos candidates].
  change (Ch.quote =? Ch.backslash)%N with false.
  change (Ch.quote =? Ch.quote)%N with true. reflexivity.
Qed.

Lemma scanKeeps_object (u : text) :
  scanKeeps u -> scanKeeps (Ch.lbrace :: u ++ [Ch.rbrace]).
Proof.
  intros Hu jsonStr i st H1 H2 H3.
  destruct st as [bc sp ins esc cs]. cbn in H1, H2, H3. subst ins esc.
  cbn [scanFrom]. unfold scanStep at 1.
  cbn [escapeNext inString braceCount startPos candidates].
  change (Ch.lbrace =? Ch.backslash)%N with false.
  change (Ch.lbrace =? Ch.quote)%N with false.
  change (Ch.lbrace =? Ch.lbrace)%N with true. cbn [andb negb]. cbv iota.
  rewrite scanFrom_app.
  rewrite Hu by (cbn; try reflexivity; lia).
  cbn [scanFrom]. unfold scanStep.
  cbn [escapeNext inString braceCount startPos candidates].
  change (Ch.rbrace =? Ch.backslash)%N with false.
  change (Ch.rbrace =? Ch.quote)%N with false.
  change (Ch.rbrace =? Ch.lbrace)%N with false.
  change (Ch.rbrace =? Ch.rbrace)%N with true. cbn [andb negb]. cbv iota.
  assert (E0 : (bc =? 0) = false) by (apply Z.eqb_neq; lia).
  assert (E1 : (bc + 1 - 1 =? 0) = false) by (apply Z.eqb_neq; lia).
  rewrite E0, E1. cbn [andb]. f_equal. lia.
Qed.

Lemma skipWs_split (s : text) :
  exists w, s = w ++ skipWs s /\ forallb scanPlain w = true.
Proof.
  induction s as [|c r (w & E & F)]; [exists []; split; reflexivity|].
  cbn [skipWs]. destruct (is_json_ws c) eqn:Ec.
  - exists (c :: w). split; [cbn [app]; f_equal; exact E|].
    cbn [forallb]. rewrite F, andb_true_r.
    apply scanPlain_iff. unfold is_json_ws in Ec.
    rewrite !orb_true_iff, !N.eqb_eq in Ec.
    unfold Ch.lbrace, Ch.rbrace, Ch.quote, Ch.backslash. lia.
  - exists []. split; reflexivity.
Qed.

Lemma hexValue_plain (h : char) (a : N) :
  hexValue h = Some a ->
  (h =? Ch.backslash)%N = false /\ (h =? Ch.quote)%N = false.
Proof.
  unfold hexValue, is_digit. intros H.
  rewrite !N.eqb_neq. unfold Ch.backslash, Ch.quote.
  destruct ((48 <=? h) && (h <=? 57))%N eqn:E1.
  { apply andb_true_iff in E1. rewrite !N.leb_le in E1. lia. }
  destruct ((65 <=? h) && (h <=? 70))%N eqn:E2.
  { apply andb_true_iff in E2. rewrite !N.leb_le in E2. lia. }
  destruct ((97 <=? h) && (h <=? 102))%N eqn:E3; [|discriminate H].
  apply andb_true_iff in E3. rewrite !N.leb_le in E3. lia.
Qed.

(** What [lexString] consumes is the content of a literal, as the scanning
    loop reads literals, and its closing quote. *)
Lemma lexString_literal (n : nat) : forall s w t,
  (length s <= n)%nat -> lexString s = Some (w, t) ->
  exists body, s = body ++ Ch.quote :: t /\ literalBody false body = true.
Proof.
  induction n as [|n IH]; intros s w t L H.
  { destruct s; [discriminate H | simpl in L; lia]. }
  destruct s as [|c r]; [discriminate H|].
  cbn [lexString] in H. cbn [length] in L.
  destruct (c =? Ch.quote)%N eqn:Eq.
  { inversion H; subst. apply N.eqb_eq in Eq. subst c.
    exists []. split; reflexivity. }
  destruct (c =? Ch.backslash)%N eqn:Eb.
  { destruct r as [|e r1]; [discriminate H|]. cbn [length] in L.
    destruct (e =? 117)%N eqn:Eu.
    - destruct r1 as [|h1 [|h2 [|h3 [|h4 r2]]]]; try discriminate H.
      cbn [length] in L.
      destruct (hexValue h1) eqn:H1; [|discriminate H].
      destruct (hexValue h2) eqn:H2; [|discriminate H].
      destruct (hexValue h3) eqn:H3; [|discriminate H].
      destruct (hexValue h4) eqn:H4; [|discriminate H].
      destruct (lexString r2) as [[w' t']|] eqn:E2; [|discriminate H].
      inversion H; subst.
      destruct (IH r2 w' t) as (body & -> & Hb); [lia | exact E2 |].
      exists (c :: e :: h1 :: h2 :: h3 :: h4 :: body).
      split; [reflexivity|].
      apply hexValue_plain in H1, H2, H3, H4.
      destruct H1 as [A1 B1], H2 as [A2 B2], H3 as [A3 B3], H4 as [A4 B4].
      cbn [literalBody].
      rewrite Eb, A1, B1, A2, B2, A3, B3, A4, B4. exact Hb.
    - destruct (simpleEscape e); [|discriminate H].
      destruct (lexString r1) as [[w' t']|] eqn:E1; [|discriminate H].
      inversion H; subst.
      destruct (IH r1 w' t) as (body & -> & Hb); [lia | exact E1 |].
      exists (c :: e :: body). split; [reflexivity|].
      cbn [literalBody]. rewrite Eb. exact Hb. }
  destruct (c <? 32)%N; [discriminate H|].
  destruct (lexString r) as [[w' t']|] eqn:E1; [|discriminate H].
  inversion H; subst.
  destruct (IH r w' t) as (body & -> & Hb); [lia | exact E1 |].
  exists (c :: body). split; [reflexivity|].
  cbn [literalBody]. rewrite Eb, Eq. exact Hb.
Qed.

Lemma lexString_scanKeeps (s w t : text) :
  lexString s = Some (w, t) ->
  exists u, Ch.quote :: s = u ++ t /\ scanKeeps u.
Proof.
  intros H. destruct (lexString_literal (length s) s w t (le_n _) H)
    as (body & -> & Hb).
  exists (Ch.quote :: body ++ [Ch.quote]). split.
  - cbn [app]. rewrite <- app_assoc. reflexivity.
  - apply scanKeeps_string. exact Hb.
Qed.

Lemma is_digit_plain (c : char) : is_digit c = true -> scanPlain c = true.
Proof.
  unfold is_digit. intros H. apply andb_true_iff in H. rewrite !N.leb_le in H.
  apply scanPlain_iff. unfold Ch.lbrace, Ch.rbrace, Ch.quote, Ch.backslash. lia.
Qed.

Lemma eqb_plain (c k : char) :
  (c =? k)%N = true -> scanPlain k = true -> scanPlain c = true.
Proof. intros H. apply N.eqb_eq in H. subst. auto. Qed.

Lemma spanDigits_split (s w t : text) :
  spanDigits s = (w, t) -> s = w ++ t /\ forallb scanPlain w = true.
Proof.
  revert w t. induction s as [|c r IH]; intros w t H; cbn [spanDigits] in H.
  { inversion H; subst. split; reflexivity. }
  destruct (is_digit c) eqn:Ec.
  - destruct (spanDigits r) as [w' t'] eqn:E. inversion H; subst.
    destruct (IH _ _ eq_refl) as [-> F]. split; [reflexivity|].
    cbn [forallb]. rewrite F, (is_digit_plain _ Ec). reflexivity.
  - inversion H; subst. split; reflexivity.
Qed.

Lemma lexSign_split (s w t : text) :
  lexSign s = (w, t) -> s = w ++ t /\ forallb scanPlain w = true.
Proof.
  unfold lexSign. destruct s as [|c r]; intros H.
  { inversion H; subst. split; reflexivity. }
  destruct (c =? 45)%N eqn:E; inversion H; subst; split; try reflexivity.
  cbn [forallb]. rewrite (eqb_plain _ _ E eq_refl). reflexivity.
Qed.

Lemma lexInt_split (s w t : text) :
  lexInt s = Some (w, t) -> s = w ++ t /\ forallb scanPlain w = true.
Proof.
  unfold lexInt. destruct s as [|c r]; intros H; [discriminate H|].
  destruct (c =? 48)%N eqn:E.
  { inversion H; subst. split; [reflexivity|].
    cbn [forallb]. rewrite (eqb_plain _ _ E eq_refl). reflexivity. }
  destruct (is_digit c) eqn:Ec; [|discriminate H].
  destruct (spanDigits r) as [w' t'] eqn:Es. inversion H; subst.
  destruct (spanDigits_split _ _ _ Es) as [-> F].
  split; [reflexivity|]. cbn [forallb].
  rewrite F, (is_digit_plain _ Ec). reflexivity.
Qed.

Lemma lexFrac_split (s w t : text) :
  lexFrac s = Some (w, t) -> s = w ++ t /\ forallb scanPlain w = true.
Proof.
  unfold lexFrac. destruct s as [|c r]; intros H.
  { inversion H; subst. split; reflexivity. }
  destruct (c =? 46)%N eqn:E.
  - destruct (spanDigits r) as [w' t'] eqn:Es.
    destruct (spanDigits_split _ _ _ Es) as [-> F].
    destruct w' as [|d w']; [discriminate H|]. inversion H; subst.
    split; [reflexivity|]. cbn [forallb] in *.
    rewrite F, (eqb_plain _ _ E eq_refl). reflexivity.
  - inversion H; subst. split; reflexivity.
Qed.

Lemma lexExp_split (s w t : text) :
  lexExp s = Some (w, t) -> s = w ++ t /\ forallb scanPlain w = true.
Proof.
  unfold lexExp. destruct s as [|c r]; intros H.
  { inversion H; subst. split; reflexivity. }
  destruct ((c =? 101)%N || (c =? 69)%N) eqn:E.
  - assert (Pc : scanPlain c = true).
    { apply orb_true_iff in E. destruct E as [E|E];
        exact (eqb_plain _ _ E eq_refl). }
    assert (Sg : exists sg r1,
               match r with
               | x :: r' =>
                   if (x =? 43)%N || (x =? 45)%N then ([x], r') else ([], r)
               | [] => ([], r)
               end = (sg, r1)
               /\ r = sg ++ r1 /\ forallb scanPlain sg = true).
    { destruct r as [|x r'].
      - exists [], []. repeat split; reflexivity.
      - destruct ((x =? 43)%N || (x =? 45)%N) eqn:Ex.
        + exists [x], r'. repeat split; try reflexivity.
          cbn [forallb]. apply orb_true_iff in Ex.
          destruct Ex as [Ex|Ex]; rewrite (eqb_plain _ _ Ex eq_refl);
            reflexivity.
        + exists [], (x :: r'). repeat split; reflexivity. }
    destruct Sg as (sg & r1 & Esg & -> & Fsg).
    rewrite Esg in H.
    destruct (spanDigits r1) as [w' t'] eqn:Es.
    destruct (spanDigits_split _ _ _ Es) as [-> F].
    destruct w' as [|d w']; [discriminate H|]. inversion H; subst.
    split; [cbn [app]; rewrite <- app_assoc; reflexivity|].
    cbn [forallb]. rewrite forallb_app, Pc, Fsg, F. reflexivity.
  - inversion H; subst. split; reflexivity.
Qed.

Lemma lexNumber_split (s w t : text) :
  lexNumber s = Some (w, t) -> s = w ++ t /\ forallb scanPlain w = true.
Proof.
  unfold lexNumber. intros H.
  destruct (lexSign s) as [sign s1] eqn:E0.
  destruct (lexSign_split _ _ _ E0) as [-> F0].
  destruct (lexInt s1) as [[ip s2]|] eqn:E1; [|discriminate H].
  destruct (lexInt_split _ _ _ E1) as [-> F1].
  destruct (lexFrac s2) as [[fp s3]|] eqn:E2; [|discriminate H].
  destruct (lexFrac_split _ _ _ E2) as [-> F2].
  destruct (lexExp s3) as [[ep s4]|] eqn:E3; [|discriminate H].
  destruct (lexExp_split _ _ _ E3) as [-> F3].
  inversion H; subst. split.
  - rewrite <- !app_assoc. reflexivity.
  - rewrite !forallb_app, F0, F1, F2, F3. reflexivity.
Qed.

Lemma stripPrefix_split (p s r : text) :
  stripPrefix p s = Some r -> s = p ++ r.
Proof.
  revert s. induction p as [|x p IH]; intros s H; cbn [stripPrefix] in H.
  { inversion H. reflexivity. }
  destruct s as [|y s]; [discriminate H|].
  destruct (x =? y)%N eqn:E; [|discriminate H].
  apply N.eqb_eq in E. subst y. cbn [app]. f_equal. apply IH. exact H.
Qed.

Lemma parseScalar_split (s : text) (v : json) (r : text) :
  parseScalar s = POk v r ->
  exists u, s = u ++ r /\ forallb scanPlain u = true.
Proof.
  unfold parseScalar. intros H.
  destruct (stripPrefix (js "true") s) as [r'|] eqn:E1.
  { inversion H; subst. apply stripPrefix_split in E1.
    exists (js "true"). split; [exact E1|reflexivity]. }
  destruct (stripPrefix (js "false") s) as [r'|] eqn:E2.
  { inversion H; subst. apply stripPrefix_split in E2.
    exists (js "false"). split; [exact E2|reflexivity]. }
  destruct (stripPrefix (js "null") s) as [r'|] eqn:E3.
  { inversion H; subst. apply stripPrefix_split in E3.
    exists (js "null"). split; [exact E3|reflexivity]. }
  destruct (lexNumber s) as [[lexeme r']|] eqn:E4; [|discriminate H].
  inversion H; subst. exists lexeme. apply lexNumber_split. exact E4.
Qed.

(** What the parser consumes for a value, the scanning loop passes in
    balance: its literals are closed, its braces are paired. *)
Lemma parse_scanKeeps (f : nat) :
  (forall s v rest, parseValue f s = POk v rest ->
     exists u, s = u ++ rest /\ scanKeeps u)
  /\ (forall s acc v rest, parseElements f s acc = POk v rest ->
        exists u, s = u ++ rest /\ scanKeeps u)
  /\ (forall s acc v rest, parseMembers f s acc = POk v rest ->
        exists u, s = u ++ Ch.rbrace :: rest /\ scanKeeps u).
Proof.
  induction f as [|f (IHv & IHe & IHm)].
  { repeat split; intros; discriminate. }
  split; [|split].
  - (* parseValue *)
    intros s v rest H. simpl in H.
    destruct (skipWs_split s) as (w & Es & Fw).
    destruct (skipWs s) as [|c r]; [discriminate H|].
    destruct (c =? Ch.lbrace)%N eqn:E1.
    { apply N.eqb_eq in E1. subst c.
      destruct (skipWs_split r) as (w2 & Er & Fw2).
      destruct (skipWs r) as [|d r']; [discriminate H|].
      destruct (d =? Ch.rbrace)%N eqn:E2.
      - apply N.eqb_eq in E2. subst d. inversion H; subst v rest.
        exists (w ++ Ch.lbrace :: w2 ++ [Ch.rbrace]). split.
        + rewrite Es, Er. list_eq.
        + apply scanKeeps_app; [apply scanKeeps_plain; exact Fw|].
          apply scanKeeps_object, scanKeeps_plain. exact Fw2.
      - destruct (IHm _ _ _ _ H) as (um & Em & Km).
        exists (w ++ Ch.lbrace :: (w2 ++ um) ++ [Ch.rbrace]). split.
        + rewrite Es, Er, Em. list_eq.
        + apply scanKeeps_app; [apply scanKeeps_plain; exact Fw|].
          apply scanKeeps_object, scanKeeps_app;
            [apply scanKeeps_plain; exact Fw2 | exact Km]. }
    destruct (c =? Ch.lbracket)%N eqn:E2.
    { apply N.eqb_eq in E2. subst c.
      destruct (skipWs_split r) as (w2 & Er & Fw2).
      destruct (skipWs r) as [|d r']; [discriminate H|].
      destruct (d =? Ch.rbracket)%N eqn:E3.
      - apply N.eqb_eq in E3. subst d. inversion H; subst v rest.
        exists (w ++ [Ch.lbracket] ++ w2 ++ [Ch.rbracket]). split.
        + rewrite Es, Er. list_eq.
        + repeat apply scanKeeps_app; apply scanKeeps_plain;
            solve [assumption | reflexivity].
      - destruct (IHe _ _ _ _ H) as (ue & Ee & Ke).
        exists (w ++ [Ch.lbracket] ++ w2 ++ ue). split.
        + rewrite Es, Er, Ee. list_eq.
        + repeat apply scanKeeps_app;
            solve [exact Ke
                  | apply scanKeeps_plain; solve [assumption | reflexivity]]. }
    destruct (c =? Ch.quote)%N eqn:E3.
    { apply N.eqb_eq in E3. subst c.
      destruct (lexString r) as [[str r']|] eqn:El; [|discriminate H].
      inversion H; subst v rest.
      destruct (lexString_scanKeeps _ _ _ El) as (uk & Ek & Kk).
      exists (w ++ uk). split.
      - rewrite Es, Ek. list_eq.
      - apply scanKeeps_app; [apply scanKeeps_plain; exact Fw | exact Kk]. }
    destruct (parseScalar_split _ _ _ H) as (us & Eus & Fs).
    exists (w ++ us). split.
    + rewrite Es, Eus. list_eq.
    + apply scanKeeps_app; apply scanKeeps_plain; assumption.
  - (* parseElements *)
    intros s acc v rest H. simpl in H.
    destruct (parseValue f s) as [v1 r| |] eqn:Ev; try discriminate H.
    destruct (IHv _ _ _ Ev) as (u1 & E1 & K1).
    destruct (skipWs_split r) as (w & Er & Fw).
    destruct (skipWs r) as [|d r']; [discriminate H|].
    destruct (d =? Ch.comma)%N eqn:Ec.
    + apply N.eqb_eq in Ec. subst d.
      destruct (IHe _ _ _ _ H) as (u2 & E2 & K2).
      exists (u1 ++ w ++ [Ch.comma] ++ u2). split.
      * rewrite E1, Er, E2. list_eq.
      * repeat apply scanKeeps_app;
          solve [assumption
                | apply scanKeeps_plain; solve [assumption | reflexivity]].
    + destruct (d =? Ch.rbracket)%N eqn:Eb; [|discriminate H].
      apply N.eqb_eq in Eb. subst d. inversion H; subst v rest.
      exists (u1 ++ w ++ [Ch.rbracket]). split.
      * rewrite E1, Er. list_eq.
      * repeat apply scanKeeps_app;
          solve [assumption
                | apply scanKeeps_plain; solve [assumption | reflexivity]].
  - (* parseMembers *)
    intros s acc v rest H. simpl in H.
    destruct (skipWs_split s) as (w & Es & Fw).
    destruct (skipWs s) as [|q r]; [discriminate H|].
    destruct (q =? Ch.quote)%N eqn:Eq; [|discriminate H].
    apply N.eqb_eq in Eq. subst q.
    destruct (lexString r) as [[k r1]|] eqn:El; [|discriminate H].
    destruct (lexString_scanKeeps _ _ _ El) as (uk & Ek & Kk).
    destruct (skipWs_split r1) as (w1 & Er1 & Fw1).
    destruct (skipWs r1) as [|c r2]; [discriminate H|].
    destruct (c =? Ch.colon)%N eqn:Ec; [|discriminate H].
    apply N.eqb_eq in Ec. subst c.
    destruct (parseValue f r2) as [v1 r3| |] eqn:Ev; try discriminate H.
    destruct (IHv _ _ _ Ev) as (uv & Euv & Kv).
    destruct (skipWs_split r3) as (w3 & Er3 & Fw3).
    destruct (skipWs r3) as [|d r4]; [discriminate H|].
    destruct (d =? Ch.comma)%N eqn:Ed.
    + apply N.eqb_eq in Ed. subst d.
      destruct (IHm _ _ _ _ H) as (um & Em & Km).
      exists (w ++ uk ++ w1 ++ [Ch.colon] ++ uv ++ w3 ++ [Ch.comma] ++ um).
      split.
      * rewrite Es, Ek, Er1, Euv, Er3, Em. list_eq.
      * repeat apply scanKeeps_app;
          solve [assumption
                | apply scanKeeps_plain; solve [assumption | reflexivity]].
    + destruct (d =? Ch.rbrace)%N eqn:Eb; [|discriminate H].
      apply N.eqb_eq in Eb. subst d. inversion H; subst v rest.
      exists (w ++ uk ++ w1 ++ [Ch.colon] ++ uv ++ w3). split.
      * rewrite Es, Ek, Er1, Euv, Er3. list_eq.
      * repeat apply scanKeeps_app;
          solve [assumption
                | apply scanKeeps_plain; solve [assumption | reflexivity]].
Qed.

Lemma skipWs_nil_all (s : text) : skipWs s = [] -> forallb is_json_ws s = true.
Proof.
  induction s as [|c r IH]; [reflexivity|]. cbn [skipWs forallb].
  destruct (is_json_ws c); [exact IH | discriminate].
Qed.

(** A valid object text that ends with its closing brace: between the two
    braces the scanning loop keeps its state. *)
Lemma JSON_parse_object_scanKeeps (body : text) (v : json) :
  JSON_parse (Ch.lbrace :: body ++ [Ch.rbrace]) = Value v -> scanKeeps body.
Proof.
  unfold JSON_parse, parseFuel. intros H.
  destruct (parseValue _ _) as [v' rest| |] eqn:Ep; try discriminate H.
  destruct (skipWs rest) eqn:Ew; [|discriminate H]. clear H.
  apply skipWs_nil_all in Ew.
  rewrite Nat.add_1_r in Ep.
  remember (2 * length (Ch.lbrace :: body ++ [Ch.rbrace]))%nat as f eqn:Ef.
  clear Ef. cbn [parseValue] in Ep.
  change (skipWs (Ch.lbrace :: body ++ [Ch.rbrace]))
    with (Ch.lbrace :: body ++ [Ch.rbrace]) in Ep.
  change (Ch.lbrace =? Ch.lbrace)%N with true in Ep. cbv iota in Ep.
  destruct (skipWs_split (body ++ [Ch.rbrace])) as (w2 & Er & Fw2).
  assert (M : exists m, body ++ [Ch.rbrace] = m ++ Ch.rbrace :: rest
                        /\ scanKeeps m).
  { destruct (skipWs (body ++ [Ch.rbrace])) as [|d r']; [discriminate Ep|].
    destruct (d =? Ch.rbrace)%N eqn:E2.
    - apply N.eqb_eq in E2. subst d. inversion Ep; subst v' rest.
      exists w2. split; [exact Er | apply scanKeeps_plain; exact Fw2].
    - destruct (proj2 (proj2 (parse_scanKeeps f)) _ _ _ _ Ep)
        as (um & Em & Km).
      exists (w2 ++ um). split.
      + rewrite Er at 1. rewrite Em. list_eq.
      + apply scanKeeps_app; [apply scanKeeps_plain; exact Fw2 | exact Km]. }
  destruct M as (m & Em & Km).
  destruct (exists_last (l := Ch.rbrace :: rest)) as (x & y & Exy);
    [discriminate|].
  rewrite Exy, app_assoc in Em. apply app_inj_tail in Em.
  destruct Em as [Eb Ey]. subst y.
  destruct rest as [|c rest'].
  - destruct x as [|x0 x']; [|destruct x'; discriminate Exy].
    rewrite app_nil_r in Eb. subst m. exact Km.
  - exfalso.
    assert (Hl : forallb is_json_ws (c :: rest') = true) by exact Ew.
    assert (Hin : In Ch.rbrace (c :: rest')).
    { assert (E : Ch.rbrace :: c :: rest' = x ++ [Ch.rbrace]) by exact Exy.
      destruct x as [|x0 x']; [discriminate E|].
      inversion E as [[E0 E1]]. rewrite E1. apply in_or_app. right. left.
      reflexivity. }
    rewrite forallb_forall in Hl. apply Hl in Hin. discriminate Hin.
Qed.

Lemma scanStep_grows (jsonStr : text) (st : ScanState) (i : Z) (c : char) :
  exists more, candidates (scanStep jsonStr st i c) = candidates st ++ more.
Proof.
  unfold scanStep.
  repeat match goal with
         | |- context [if ?b then _ else _] => destruct b
         end;
    cbn [candidates];
    solve [exists []; rewrite app_nil_r; reflexivity
          | eexists; reflexivity].
Qed.

Lemma scanFrom_grows (jsonStr rest : text) : forall i st,
  exists more, candidates (scanFrom jsonStr i rest st) = candidates st ++ more.
Proof.
  induction rest as [|c r IH]; intros i st.
  - exists []. rewrite app_nil_r. reflexivity.
  - cbn [scanFrom].
    destruct (IH (i + 1) (scanStep jsonStr st i c)) as (m2 & E2).
    destruct (scanStep_grows jsonStr st i c) as (m1 & E1).
    exists (m1 ++ m2). rewrite E2, E1, app_assoc. reflexivity.
Qed.

Lemma substring_middle (pre mid post : text) :
  substring (pre ++ mid ++ post) (Z.of_nat (length pre))
    (Z.of_nat (length pre) + Z.of_nat (length mid)) = mid.
Proof.
  unfold substring, clamp. rewrite !length_app.
  rewrite !Nat2Z.inj_add.
  rewrite (Z.min_l (Z.of_nat (length pre))) by lia.
  rewrite (Z.max_r 0 (Z.of_nat (length pre))) by lia.
  rewrite (Z.min_l (Z.of_nat (length pre) + Z.of_nat (length mid))) by lia.
  rewrite (Z.max_r 0 (Z.of_nat (length pre) + Z.of_nat (length mid))) by lia.
  rewrite Z.min_l, Z.max_r by lia.
  replace (Z.to_nat (Z.of_nat (length pre) + Z.of_nat (length mid)
                     - Z.of_nat (length pre))) with (length mid) by lia.
  rewrite Nat2Z.id, skipn_app, skipn_all, Nat.sub_diag. cbn [skipn app].
  apply firstn_length_app.
Qed.

(** The scan of a balanced span met at depth zero, outside a literal: at
    its closing brace the loop records exactly that span. *)
Lemma scanFrom_object (jsonStr body : text) (i : Z) (st : ScanState) :
  scanKeeps body -> 0 <= i ->
  braceCount st = 0 -> inString st = false -> escapeNext st = false ->
  scanFrom jsonStr i (Ch.lbrace :: body ++ [Ch.rbrace]) st
  = {| braceCount := 0; startPos := i;
       inString := false; escapeNext := false;
       candidates :=
         candidates st
         ++ [substring jsonStr i
               (i + Z.of_nat (length (Ch.lbrace :: body ++ [Ch.rbrace])))] |}.
Proof.
  intros Kb Hi Hb Hs He. destruct st as [bc sp ins esc cs].
  cbn in Hb, Hs, He. subst bc ins esc.
  cbn [scanFrom]. unfold scanStep at 1.
  cbn [escapeNext inString braceCount startPos candidates].
  change (Ch.lbrace =? Ch.backslash)%N with false.
  change (Ch.lbrace =? Ch.quote)%N with false.
  change (Ch.lbrace =? Ch.lbrace)%N with true. cbn [andb negb]. cbv iota.
  change (0 =? 0) with true. cbv iota.
  rewrite scanFrom_app. rewrite Kb by (cbn; try reflexivity; lia).
  cbn [scanFrom]. unfold scanStep.
  cbn [escapeNext inString braceCount startPos candidates].
  change (Ch.rbrace =? Ch.backslash)%N with false.
  change (Ch.rbrace =? Ch.quote)%N with false.
  change (Ch.rbrace =? Ch.lbrace)%N with false.
  change (Ch.rbrace =? Ch.rbrace)%N with true. cbn [andb negb]. cbv iota.
  change (0 + 1 - 1 =? 0) with true.
  assert (E : (i =? -1) = false) by (apply Z.eqb_neq; lia).
  rewrite E. cbn [andb negb].
  replace (i + 1 + Z.of_nat (length body) + 1)
    with (i + Z.of_nat (length (Ch.lbrace :: body ++ [Ch.rbrace])))
    by (cbn [length]; rewrite length_app; cbn [length]; lia).
  reflexivity.
Qed.

(** ** What the Candidate Locator records *)

Lemma braceWalk_app (a b : text) : forall d inS esc,
  braceWalk d inS esc (a ++ b)
  = let '(d', inS', esc') := braceWalk d inS esc a in
    braceWalk d' inS' esc' b.
Proof.
  induction a as [|c a IH]; intros d inS esc; [reflexivity|].
  cbn [app braceWalk].
  repeat match goal with
         | |- context [if ?b then _ else _] => destruct b
         end; apply IH.
Qed.

Lemma scanFrom_braceWalk (jsonStr s : text) : forall i st,
  braceWalk (braceCount st) (inString st) (escapeNext st) s
  = (braceCount (scanFrom jsonStr i s st),
     inString (scanFrom jsonStr i s st),
     escapeNext (scanFrom jsonStr i s st)).
Proof.
  induction s as [|c r IH]; intros i st; [reflexivity|].
  cbn [scanFrom braceWalk]. rewrite <- IH.
  destruct st as [bc sp ins esc cs]. unfold scanStep.
  cbn [escapeNext inString braceCount startPos candidates].
  destruct esc; [reflexivity|].
  destruct (c =? Ch.backslash)%N; [reflexivity|].
  destruct (c =? Ch.quote)%N; [reflexivity|]. cbn [andb].
  destruct ins; [reflexivity|]. cbn [negb].
  destruct (c =? Ch.lbrace)%N; [reflexivity|].
  destruct (c =? Ch.rbrace)%N; reflexivity.
Qed.

(** A text whose braces are paired is passed by the loop in balance. *)
Lemma bracesBalanced_scan (jsonStr body : text) :
  forall (d : nat) (inS esc : bool) (i : Z) (st : ScanState),
    bracesBalanced d inS esc body = true ->
    1 <= braceCount st - Z.of_nat d ->
    inString st = inS -> escapeNext st = esc ->
    scanFrom jsonStr i body st
    = {| braceCount := braceCount st - Z.of_nat d; startPos := startPos st;
         inString := false; escapeNext := false;
         candidates := candidates st |}.
Proof.
  induction body as [|c r IH]; intros d inS esc i st Hb Hd Hs He;
    destruct st as [bc sp ins esc0 cs];
    cbn [escapeNext inString braceCount startPos candidates] in *;
    subst ins esc0.
  - cbn [bracesBalanced] in Hb.
    apply andb_true_iff in Hb. destruct Hb as [Hb He].
    apply andb_true_iff in Hb. destruct Hb as [Hz Hs].
    apply Nat.eqb_eq in Hz. subst d.
    destruct inS; [discriminate Hs|]. destruct esc; [discriminate He|].
    cbn [scanFrom]. f_equal. cbn. lia.
  - cbn [scanFrom]. cbn [bracesBalanced] in Hb. unfold scanStep.
    cbn [escapeNext inString braceCount startPos candidates].
    destruct esc.
    { rewrite (IH d inS false) by (try exact Hb; cbn; try reflexivity; lia).
      reflexivity. }
    destruct (c =? Ch.backslash)%N.
    { rewrite (IH d inS true) by (try exact Hb; cbn; try reflexivity; lia).
      reflexivity. }
    destruct (c =? Ch.quote)%N; cbn [andb negb].
    { rewrite (IH d (negb inS) false)
        by (try exact Hb; cbn; try reflexivity; lia).
      reflexivity. }
    destruct inS; cbn [negb].
    { rewrite (IH d true false) by (try exact Hb; cbn; try reflexivity; lia).
      reflexivity. }
    destruct (c =? Ch.lbrace)%N.
    { assert (E0 : (bc =? 0) = false) by (apply Z.eqb_neq; lia).
      rewrite E0.
      rewrite (IH (S d) false false)
        by (try exact Hb; cbn [braceCount inString escapeNext];
            try reflexivity; lia).
      cbn [braceCount startPos candidates]. f_equal. lia. }
    destruct (c =? Ch.rbrace)%N.
    { destruct d as [|d']; [discriminate Hb|].
      assert (E0 : (bc - 1 =? 0) = false) by (apply Z.eqb_neq; lia).
      rewrite E0. cbn [andb].
      rewrite (IH d' false false)
        by (try exact Hb; cbn [braceCount inString escapeNext];
            try reflexivity; lia).
      cbn [braceCount startPos candidates]. f_equal. lia. }
    rewrite (IH d false false) by (try exact Hb; cbn; try reflexivity; lia).
    reflexivity.
Qed.

Lemma bracesBalanced_scanKeeps (body : text) :
  bracesBalanced 0 false false body = true -> scanKeeps body.
Proof.
  intros Hb jsonStr i st Hs He Hd.
  rewrite (bracesBalanced_scan jsonStr body 0 false false i st Hb)
    by (try assumption; cbn; lia).
  destruct st as [bc sp ins esc cs]. cbn in *. subst. f_equal. lia.
Qed.

Lemma recordable_snoc (pre c : text) (x : char) :
  recordable pre c -> recordable (pre ++ [x]) c.
Proof.
  intros (before & after & E & Hz & Hb).
  exists before, (after ++ [x]). split; [rewrite E; list_eq|].
  split; assumption.
Qed.

(** One iteration keeps the invariant of the loop. *)
Lemma locator_step (jsonStr pre rest : text) (c : char) (st : ScanState) :
  jsonStr = pre ++ c :: rest ->
  locatorInv pre st ->
  locatorInv (pre ++ [c]) (scanStep jsonStr st (Z.of_nat (length pre)) c).
Proof.
  intros E (Ha & Hb & Hc). destruct st as [bc sp ins esc cs].
  cbn [escapeNext inString braceCount startPos candidates] in *.
  assert (Hc' : Forall (recordable (pre ++ [c])) cs).
  { apply Forall_impl with (2 := Hc). intros a. apply recordable_snoc. }
  assert (grow : forall bc' ins' esc',
             (forall tail,
                 bracesBalanced (Z.to_nat (bc - 1)) ins esc (c :: tail)
                 = bracesBalanced (Z.to_nat (bc' - 1)) ins' esc' tail) ->
             1 <= bc ->
             exists before body,
               pre ++ [c] = before ++ Ch.lbrace :: body
               /\ sp = Z.of_nat (length before)
               /\ atDepthZero before
               /\ forall tail,
                    bracesBalanced 0 false false (body ++ tail)
                    = bracesBalanced (Z.to_nat (bc' - 1)) ins' esc' tail).
  { intros bc' ins' esc' Hstep B.
    destruct (Hb B) as (before & body & Ep & Es & Hz & Ht).
    exists before, (body ++ [c]). split; [rewrite Ep; list_eq|].
    split; [exact Es|]. split; [exact Hz|]. intros tail.
    rewrite <- app_assoc. cbn [app]. rewrite Ht. apply Hstep. }
  unfold locatorInv, scanStep.
  cbn [escapeNext inString braceCount startPos candidates].
  rewrite braceWalk_app, Ha. cbn [braceWalk].
  destruct esc.
  { split; [reflexivity|]. split; [|exact Hc']. intros B.
    apply grow; [|exact B]. intros tail. reflexivity. }
  destruct (c =? Ch.backslash)%N eqn:Eb.
  { split; [reflexivity|]. split; [|exact Hc']. intros B.
    apply grow; [|exact B]. intros tail. cbn [bracesBalanced].
    rewrite Eb. reflexivity. }
  destruct (c =? Ch.quote)%N eqn:Eq; cbn [andb negb].
  { split; [reflexivity|]. split; [|exact Hc']. intros B.
    apply grow; [|exact B]. intros tail. cbn [bracesBalanced].
    rewrite Eb, Eq. reflexivity. }
  destruct ins; cbn [negb].
  { split; [reflexivity|]. split; [|exact Hc']. intros B.
    apply grow; [|exact B]. intros tail. cbn [bracesBalanced].
    rewrite Eb, Eq. reflexivity. }
  destruct (c =? Ch.lbrace)%N eqn:El.
  { cbn [escapeNext inString braceCount startPos candidates].
    split; [reflexivity|]. split; [|exact Hc']. intros B.
    destruct (Z.eqb_spec bc 0) as [Z0|N0].
    - subst bc. apply N.eqb_eq in El. subst c.
      exists pre, []. split; [reflexivity|]. split; [reflexivity|].
      split; [exact Ha|]. intros tail. reflexivity.
    - apply grow; [|lia]. intros tail. cbn [bracesBalanced].
      rewrite Eb, Eq, El. f_equal. lia. }
  destruct (c =? Ch.rbrace)%N eqn:Er.
  { cbn [escapeNext inString braceCount startPos candidates].
    split; [reflexivity|]. split.
    - intros B. apply grow; [|lia]. intros tail. cbn [bracesBalanced].
      rewrite Eb, Eq, El, Er.
      destruct (Z.to_nat (bc - 1)) as [|d'] eqn:Ed; [lia|].
      f_equal. lia.
    - destruct (Z.eqb_spec (bc - 1) 0) as [E1|_]; [|exact Hc'].
      destruct (Hb ltac:(lia)) as (before & body & Ep & Es & Hz & Ht).
      assert (Esp : (sp =? -1) = false) by (apply Z.eqb_neq; lia).
      rewrite Esp. cbn [andb negb].
      apply Forall_app. split; [exact Hc'|]. constructor; [|constructor].
      apply N.eqb_eq in Er. subst c.
      assert (Ejs : jsonStr
                    = before ++ (Ch.lbrace :: body ++ [Ch.rbrace]) ++ rest).
      { rewrite E, Ep. list_eq. }
      assert (Esub : substring jsonStr sp (Z.of_nat (length pre) + 1)
                     = Ch.lbrace :: body ++ [Ch.rbrace]).
      { rewrite Es.
        replace (Z.of_nat (length pre) + 1)
          with (Z.of_nat (length before)
                + Z.of_nat (length (Ch.lbrace :: body ++ [Ch.rbrace])))
          by (rewrite Ep; cbn [length]; rewrite !length_app; cbn [length];
              lia).
        rewrite Ejs. apply substring_middle. }
      rewrite Esub. exists before, [].
      split; [rewrite Ep; list_eq|]. split; [exact Hz|].
      exists body. split; [reflexivity|].
      specialize (Ht []). rewrite app_nil_r in Ht. rewrite Ht.
      replace (bc - 1) with 0 by lia. reflexivity. }
  split; [reflexivity|]. split; [|exact Hc']. intros B.
  apply grow; [|exact B]. intros tail. cbn [bracesBalanced].
  rewrite Eb, Eq, El, Er. reflexivity.
Qed.

Lemma locator_scan (jsonStr : text) :
  forall rest pre st,
    jsonStr = pre ++ rest ->
    locatorInv pre st ->
    locatorInv jsonStr (scanFrom jsonStr (Z.of_nat (length pre)) rest st).
Proof.
  induction rest as [|c r IH]; intros pre st E I.
  - rewrite app_nil_r in E. subst pre. exact I.
  - cbn [scanFrom].
    replace (Z.of_nat (length pre) + 1) with (Z.of_nat (length (pre ++ [c])))
      by (rewrite length_app; cbn [length]; lia).
    apply IH.
    + rewrite <- app_assoc. exact E.
    + apply (locator_step jsonStr pre r); assumption.
Qed.

(** Every located span is a balanced span that opens at depth zero. *)
Lemma locatedSpans_sound (jsonStr : text) :
  Forall (recordable jsonStr) (locatedSpans jsonStr).
Proof.
  unfold locatedSpans.
  apply (locator_scan jsonStr jsonStr [] scanInit); [reflexivity|].
  split; [reflexivity|]. split; [cbn; lia | constructor].
Qed.

(** Every balanced span that opens at depth zero is located. *)
Lemma locatedSpans_complete (jsonStr c : text) :
  recordable jsonStr c -> In c (locatedSpans jsonStr).
Proof.
  intros (before & after & E & Hz & body & Ec & Hb).
  unfold locatedSpans. rewrite E at 2. rewrite !scanFrom_app.
  pose proof (scanFrom_braceWalk jsonStr before 0 scanInit) as W.
  cbn [braceCount inString escapeNext scanInit] in W.
  unfold atDepthZero in Hz. rewrite Hz in W. inversion W as [[W1 W2 W3]].
  set (st0 := scanFrom jsonStr 0 before scanInit) in *.
  subst c.
  rewrite (scanFrom_object jsonStr body)
    by (try (symmetry; assumption); try lia;
        apply bracesBalanced_scanKeeps; exact Hb).
  match goal with
  | |- In _ (candidates (scanFrom ?j ?i after ?st)) =>
      destruct (scanFrom_grows j after i st) as (more & Em); rewrite Em
  end.
  cbn [candidates]. apply in_or_app. left. apply in_or_app. right.
  rewrite Z.add_0_l. rewrite E at 1.
  rewrite substring_middle. left. reflexivity.
Qed.

(** C8 (as amended): the Candidate Locator tracks braces only, counted
    outside string literals, and records object-shaped spans only.  What it
    returns are exactly the spans of the text that open with a brace met at
    depth zero of its counter, outside a literal, and run to the closing
    brace that pairs with it: every returned span is such a balanced span,
    copied verbatim, and every such span is returned.  Square brackets are
    not tracked: no returned span starts with a bracket, and a text without
    an opening brace, such as one whose only top-level structure is an array
    of scalars, yields the empty sequence. *)
Theorem C8_locator_records_object_spans_only (jsonStr : text) :
  (forall c,
      In c (extractJsonCandidates jsonStr) <->
      exists before after,
        jsonStr = before ++ c ++ after
        /\ atDepthZero before
        /\ balancedSpan c)
  /\ (forall c mid,
         In c (extractJsonCandidates jsonStr) -> c <> Ch.lbracket :: mid)
  /\ (~ In Ch.lbrace jsonStr -> extractJsonCandidates jsonStr = []).
Proof.
  assert (S : forall c, In c (extractJsonCandidates jsonStr) ->
                        recordable jsonStr c).
  { intros c H. pose proof (locatedSpans_sound jsonStr) as F.
    rewrite Forall_forall in F. apply F.
    apply (Permutation_in c (Permutation_sym
                               (sortBy_perm byLengthDesc
                                  (locatedSpans jsonStr)))).
    exact H. }
  split; [|split].
  - intros c. split; [apply S|]. intros H.
    apply (Permutation_in c (sortBy_perm byLengthDesc (locatedSpans jsonStr))).
    apply locatedSpans_complete. exact H.
  - intros c mid H Ec. destruct (S c H) as (_ & _ & _ & _ & body & Eb & _).
    rewrite Ec in Eb. discriminate Eb.
  - intros Hn. unfold extractJsonCandidates, locatedSpans.
    rewrite scanFrom_no_lbrace; [reflexivity|exact Hn|simpl; lia].
Qed.

(** An array of scalars yields nothing; from an array of one object the
    object is returned. *)
Lemma C8_locator_records_object_spans_only_witness :
  extractJsonCandidates (js "['alpha', 2, [3]]") = []
  /\ In (js "{'a':1}") (extractJsonCandidates (js "[{'a':1}]")).
Proof.
  split.
  - apply (proj2 (proj2 (C8_locator_records_object_spans_only
                           (js "['alpha', 2, [3]]")))).
    vm_compute. intros H.
    repeat (destruct H as [H|H]; [discriminate H|]). exact H.
  - apply (proj2 (proj1 (C8_locator_records_object_spans_only
                           (js "[{'a':1}]")) (js "{'a':1}"))).
    exists (js "["), (js "]"). split; [reflexivity|]. split; [reflexivity|].
    exists (js "'a':1"). split; reflexivity.
Defined.

(** ** Valid objects with plain text around them *)

Lemma scanFrom_plain_object (jsonStr lead body : text) (i : Z)
    (st : ScanState) :
  forallb scanPlain lead = true -> scanKeeps body -> 0 <= i ->
  braceCount st = 0 -> inString st = false -> escapeNext st = false ->
  scanFrom jsonStr i (lead ++ Ch.lbrace :: body ++ [Ch.rbrace]) st
  = {| braceCount := 0; startPos := i + Z.of_nat (length lead);
       inString := false; escapeNext := false;
       candidates :=
         candidates st
         ++ [substring jsonStr (i + Z.of_nat (length lead))
               (i + Z.of_nat (length lead)
                + Z.of_nat (length (Ch.lbrace :: body ++ [Ch.rbrace])))] |}.
Proof.
  intros Fl Kb Hi Hb Hs He.
  rewrite scanFrom_app, (scanFrom_plain jsonStr lead Fl) by exact He.
  apply scanFrom_object; try assumption. lia.
Qed.

Lemma locatedSpans_embedded (pre body post : text) :
  forallb scanPlain pre = true -> scanKeeps body ->
  exists more,
    locatedSpans (pre ++ (Ch.lbrace :: body ++ [Ch.rbrace]) ++ post)
    = (Ch.lbrace :: body ++ [Ch.rbrace]) :: more
    /\ (forallb scanPlain post = true -> more = []).
Proof.
  intros Fp Kb. unfold locatedSpans.
  set (object := Ch.lbrace :: body ++ [Ch.rbrace]).
  set (jsonStr := pre ++ object ++ post).
  assert (E : scanFrom jsonStr 0 jsonStr scanInit
              = scanFrom jsonStr (0 + Z.of_nat (length (pre ++ object))) post
                  (scanFrom jsonStr 0 (pre ++ object) scanInit)).
  { unfold jsonStr at 2. rewrite app_assoc. apply scanFrom_app. }
  rewrite E. unfold object at 2.
  rewrite (scanFrom_plain_object jsonStr pre body 0 scanInit Fp Kb)
    by (try reflexivity; lia).
  fold object. cbn [candidates scanInit app]. rewrite Z.add_0_l.
  unfold jsonStr at 2. rewrite substring_middle.
  match goal with
  | |- context [scanFrom ?j ?i post ?st] =>
      destruct (scanFrom_grows j post i st) as (more & Em);
      exists more; split; [exact Em|];
      intros Fq; rewrite (scanFrom_plain j post Fq i st eq_refl) in Em
  end.
  cbn [candidates app] in Em. inversion Em. reflexivity.
Qed.


(** The stable sort puts the head of the list before everything that is
    not longer than it. *)
Lemma insertSorted_first (x : text) (l : list text) :
  exists l1 l2,
    insertSorted byLengthDesc x l = l1 ++ x :: l2
    /\ l = l1 ++ l2
    /\ Forall (fun y => (length x < length y)%nat) l1.
Proof.
  induction l as [|y l (l1 & l2 & E & El & F)].
  - exists [], []. repeat split. constructor.
  - cbn [insertSorted]. unfold byLengthDesc at 1.
    destruct (Z.leb_spec (Z.of_nat (length y) - Z.of_nat (length x)) 0).
    + exists [], (y :: l). repeat split. constructor.
    + exists (y :: l1), l2. split; [rewrite E; reflexivity|].
      split; [rewrite El; reflexivity|]. constructor; [lia|exact F].
Qed.

Lemma firstParsing_app (a b : list text) :
  firstParsing (a ++ b)
  = match firstParsing a with
    | Some c => Some c
    | None => firstParsing b
    end.
Proof.
  induction a as [|x a IH]; [reflexivity|]. cbn [app firstParsing].
  destruct (parses x); [reflexivity|exact IH].
Qed.

(** X18: a valid object that stands in the text after a lead without
    braces, quotes and backslashes is always located, as the first span,
    whatever follows it.  [fixJsonString] then returns the repaired whole
    text when that parses, and otherwise the object itself, verbatim, or a
    strictly longer located span that parses: its result always parses and
    the fallback is never reached.  When what follows the object is plain as
    well, the object is the only located span. *)
Theorem fixJsonString_embedded_object (pre body post : text) (v : json) :
  let object := Ch.lbrace :: body ++ [Ch.rbrace] in
  let jsonStr := pre ++ object ++ post in
  forallb scanPlain pre = true ->
  JSON_parse object = Value v ->
  exists more,
    locatedSpans jsonStr = object :: more
    /\ (forallb scanPlain post = true -> more = [])
    /\ parses (fixJsonString jsonStr) = true
    /\ ((parses (simpleJsonRepair jsonStr) = true
         /\ fixJsonString jsonStr = simpleJsonRepair jsonStr)
        \/ (parses (simpleJsonRepair jsonStr) = false
            /\ fixJsonString jsonStr = object)
        \/ (parses (simpleJsonRepair jsonStr) = false
            /\ exists c,
                 In c more /\ parses c = true
                 /\ (length object < length c)%nat
                 /\ fixJsonString jsonStr = c)).
Proof.
  intros object jsonStr Fp Hv.
  pose proof (JSON_parse_object_scanKeeps body v Hv) as Kb.
  destruct (locatedSpans_embedded pre body post Fp Kb) as (more & El & Hm).
  fold object in El. fold jsonStr in El.
  assert (Po : parses object = true).
  { apply parses_true_Value. exists v. exact Hv. }
  exists more. split; [exact El|]. split; [exact Hm|].
  assert (D : (parses (simpleJsonRepair jsonStr) = true
               /\ fixJsonString jsonStr = simpleJsonRepair jsonStr)
              \/ (parses (simpleJsonRepair jsonStr) = false
                  /\ fixJsonString jsonStr = object)
              \/ (parses (simpleJsonRepair jsonStr) = false
                  /\ exists c,
                       In c more /\ parses c = true
                       /\ (length object < length c)%nat
                       /\ fixJsonString jsonStr = c)).
  { destruct (parses (simpleJsonRepair jsonStr)) eqn:Pr.
    { left. split; [reflexivity|]. unfold fixJsonString. rewrite Pr.
      reflexivity. }
    right. rewrite (fixJsonString_loop _ Pr).
    unfold extractJsonCandidates. rewrite El. cbn [sortBy].
    destruct (insertSorted_first object (sortBy byLengthDesc more))
      as (l1 & l2 & Ei & Es & Fl).
    rewrite Ei, firstParsing_app.
    destruct (firstParsing l1) as [c|] eqn:Ef.
    - right. split; [reflexivity|].
      destruct (firstParsing_Some _ _ Ef) as (a & b & Ea & _ & Pc).
      assert (Hin : In c l1).
      { rewrite Ea. apply in_or_app. right. left. reflexivity. }
      exists c. split; [|split; [exact Pc|split; [|reflexivity]]].
      + apply (Permutation_in c (Permutation_sym
                                   (sortBy_perm byLengthDesc more))).
        rewrite Es. apply in_or_app. left. exact Hin.
      + rewrite Forall_forall in Fl. apply Fl. exact Hin.
    - left. split; [reflexivity|]. cbn [firstParsing]. rewrite Po.
      reflexivity. }
  split; [|exact D].
  destruct D as [[Pr ->] | [[_ ->] | [_ (c & _ & Pc & _ & ->)]]];
    assumption.
Qed.

(** An answer of a model that wraps its object in prose; the object holds an
    escaped quote, so that the repaired whole text does not parse, and the
    object itself is returned. *)
Lemma fixJsonString_embedded_object_witness :
  let object := Ch.lbrace :: js "'a': '\''" ++ [Ch.rbrace] in
  let jsonStr := js "Here is the plan: " ++ object ++ js " Done." in
  forallb scanPlain (js "Here is the plan: ") = true
  /\ JSON_parse object = Value (JObject [(js "a", JString [Ch.quote])])
  /\ fixJsonString jsonStr = object
  /\ exists more,
       locatedSpans jsonStr = object :: more
       /\ (forallb scanPlain (js " Done.") = true -> more = [])
       /\ parses (fixJsonString jsonStr) = true
       /\ ((parses (simpleJsonRepair jsonStr) = true
            /\ fixJsonString jsonStr = simpleJsonRepair jsonStr)
           \/ (parses (simpleJsonRepair jsonStr) = false
               /\ fixJsonString jsonStr = object)
           \/ (parses (simpleJsonRepair jsonStr) = false
               /\ exists c,
                    In c more /\ parses c = true
                    /\ (length object < length c)%nat
                    /\ fixJsonString jsonStr = c)).
Proof.
  intros object jsonStr.
  assert (Fp : forallb scanPlain (js "Here is the plan: ") = true)
    by (vm_compute; reflexivity).
  assert (Hv : JSON_parse object
               = Value (JObject [(js "a", JString [Ch.quote])]))
    by (vm_compute; reflexivity).
  split; [exact Fp|]. split; [exact Hv|]. split; [vm_compute; reflexivity|].
  exact (fixJsonString_embedded_object
           (js "Here is the plan: ") (js "'a': '\''") (js " Done.") _ Fp Hv).
Defined.

(** ** The longer of two objects *)



